(** * Floating Sandbox: simulation core

    A shallow embedding of the parts of the simulation engine that the
    specification talks about:

    - [Points] (src/Game/Points.cpp): detach, mass update, the ephemeral
      particle allocator and the two combustion passes;
    - [OceanSurface] (src/Game/OceanSurface.cpp): the shallow-water
      buffers, semi-Lagrangian advection, boundary conditions and the
      external wave state machine;
    - [GameController] (src/Game/GameController.cpp): the game iteration
      and what it skips under pause.

    The C++ [float] is kept abstract behind the interface [FloatOps], so
    every function is written once, in the shape of its source.  Two
    instances are given: IEEE-754 binary32 (executable, from the standard
    library's [SpecFloat]) and the real numbers (which carry [sin], [exp]
    and [pow]). *)

From Stdlib Require Import ZArith List Bool Lia Reals Lra.
From Stdlib Require Import Floats.SpecFloat.
From stdpp Require Import base list.

Local Open Scope Z_scope.

(** ** The [float] interface *)

Class FloatOps (F : Type) := {
  f_of_Z : Z -> F;                 (* static_cast<float>(integer) *)
  fadd : F -> F -> F;
  fsub : F -> F -> F;
  fmul : F -> F -> F;
  fdiv : F -> F -> F;
  fltb : F -> F -> bool;           (* a < b *)
  fleb : F -> F -> bool;           (* a <= b *)
  feqb : F -> F -> bool;           (* a == b *)
  (* GameCore/GameMath.h is not part of the sources at hand: the
     truncating conversion is a member of the interface. *)
  FastTruncateInt32 : F -> Z
}.

(** <cmath> *)
Class LibM (F : Type) := {
  sinf : F -> F;
  expf : F -> F;
  powf : F -> F -> F
}.

Declare Scope float_scope.
Delimit Scope float_scope with flt.
Infix "+" := fadd : float_scope.
Infix "-" := fsub : float_scope.
Infix "*" := fmul : float_scope.
Infix "/" := fdiv : float_scope.

Section FloatDerived.
Context {F : Type} `{FloatOps F}.

(** A decimal literal [n/d] with both parts exactly representable. *)
Definition lit (n d : Z) : F := fdiv (f_of_Z n) (f_of_Z d).

Definition fzero : F := f_of_Z 0.
Definition fone : F := f_of_Z 1.

(** [a >= b] and [a > b] are the mirrored comparisons. *)
Definition fgeb (a b : F) : bool := fleb b a.
Definition fgtb (a b : F) : bool := fltb b a.

(** [std::min(a, b)] is [(b < a) ? b : a]; [std::max(a, b)] is
    [(a < b) ? b : a]. *)
Definition stdmin (a b : F) : F := if fltb b a then b else a.
Definition stdmax (a b : F) : F := if fltb a b then b else a.

(** [abs] *)
Definition fabs (a : F) : F := if fltb a fzero then fsub fzero a else a.

(** A value that compares equal to itself, that is, not a NaN. *)
Definition ordered (a : F) : Prop := fleb a a = true.
End FloatDerived.

(** The order laws of IEEE comparisons: [<=] is a preorder on the values
    that are not NaN, total there, [<] is its strict part, and a value
    that is not a NaN compares equal to itself. *)
Class FloatOrder (F : Type) `{FloatOps F} : Prop := {
  fleb_trans : forall x y z : F,
      fleb x y = true -> fleb y z = true -> fleb x z = true;
  fleb_ordered_l : forall x y : F, fleb x y = true -> fleb x x = true;
  fleb_ordered_r : forall x y : F, fleb x y = true -> fleb y y = true;
  fleb_total : forall x y : F,
      fleb x x = true -> fleb y y = true ->
      fleb x y = false -> fleb y x = true;
  fltb_spec : forall x y : F,
      fltb x y = true <-> fleb x y = true /\ fleb y x = false;
  feqb_refl : forall x : F, fleb x x = true -> feqb x x = true
}.

(** ** Instance 1: IEEE-754 binary32 *)

Module Binary32.

Definition prec : Z := 24.
Definition emax : Z := 128.

Definition float32 : Type := spec_float.

Definition of_Z (z : Z) : float32 := binary_normalize prec emax z 0 false.

(** Truncation toward zero of a finite value; the conversion of an
    infinity or a NaN yields the "integer indefinite" value. *)
Definition truncate (x : float32) : Z :=
  match x with
  | S754_zero _ => 0
  | S754_finite s m e =>
      let a := match e with
               | Z0 => Zpos m
               | Zpos p => Z.shiftl (Zpos m) (Zpos p)
               | Zneg p => Z.shiftr (Zpos m) (Zpos p)
               end in
      if s then - a else a
  | _ => - 2 ^ 31
  end.

#[global] Instance ops : FloatOps float32 := {
  f_of_Z := of_Z;
  fadd := SFadd prec emax;
  fsub := SFsub prec emax;
  fmul := SFmul prec emax;
  fdiv := SFdiv prec emax;
  fltb := SFltb;
  fleb := SFleb;
  feqb := SFeqb;
  FastTruncateInt32 := truncate
}.

End Binary32.

(** ** Instance 2: real numbers *)

Module Real.

Definition Rltb (x y : R) : bool := if Rlt_dec x y then true else false.
Definition Rleb (x y : R) : bool := if Rle_dec x y then true else false.
Definition Reqb (x y : R) : bool := if Req_dec_T x y then true else false.

(** Truncation toward zero. *)
Definition truncate (x : R) : Z :=
  if Rle_dec 0 x then Int_part x else (- Int_part (- x))%Z.

#[global] Instance ops : FloatOps R := {
  f_of_Z := IZR;
  fadd := Rplus;
  fsub := Rminus;
  fmul := Rmult;
  fdiv := Rdiv;
  fltb := Rltb;
  fleb := Rleb;
  feqb := Reqb;
  FastTruncateInt32 := truncate
}.

#[global] Instance libm : LibM R := {
  sinf := sin;
  expf := exp;
  powf := Rpower
}.

End Real.

(** ** Element indices and buffers *)

(** [ElementIndex] and [ElementCount] are [std::uint32_t]. *)
Abbreviation ElementIndex := Z (only parsing).
Abbreviation ElementCount := Z (only parsing).
Abbreviation PlaneId := Z (only parsing).

Definition NoneElementIndex : ElementIndex := 4294967295.

(** Unsigned 32-bit wrap-around of [++p] and [p += stride]. *)
Definition wrap32 (z : Z) : Z := z mod 4294967296.

(** Buffers are indexed unchecked in the source.  A read outside the
    buffer yields the inhabitant of the cell type and a write outside the
    buffer is dropped; where a property depends on an access, the index is
    shown or required to be inside. *)
Definition rd {A : Type} `{Inhabited A} (buf : list A) (i : ElementIndex) : A :=
  buf !!! Z.to_nat i.

Definition wr {A : Type} (buf : list A) (i : ElementIndex) (v : A) : list A :=
  <[Z.to_nat i := v]> buf.

Record vec2f (F : Type) : Type := mk_vec2f { vx : F; vy : F }.
Arguments mk_vec2f {F} _ _.
Arguments vx {F} _.
Arguments vy {F} _.

Record ConnectedSpring : Type := {
  SpringIndex : ElementIndex;
  OtherEndpointIndex : ElementIndex
}.

Inductive StateType : Type :=
| NotBurning
| Developing_1
| Developing_2
| Burning
| Extinguishing_Consumed
| Extinguishing_Smothered.

Definition StateType_eqb (a b : StateType) : bool :=
  match a, b with
  | NotBurning, NotBurning
  | Developing_1, Developing_1
  | Developing_2, Developing_2
  | Burning, Burning
  | Extinguishing_Consumed, Extinguishing_Consumed
  | Extinguishing_Smothered, Extinguishing_Smothered => true
  | _, _ => false
  end.

Inductive EphemeralType : Type :=
| ET_None
| AirBubble
| Debris
| Sparkle.

Definition EphemeralType_eqb (a b : EphemeralType) : bool :=
  match a, b with
  | ET_None, ET_None | AirBubble, AirBubble
  | Debris, Debris | Sparkle, Sparkle => true
  | _, _ => false
  end.

(** Calls made on the game event handler, most recent first. *)
Inductive GameEvent : Type :=
| OnPointCombustionBegin
| OnPointCombustionEnd.

Record DetachOptions : Type := {
  GenerateDebris : bool;
  FireDestroyEvent : bool
}.

(** ** Points (src/Game/Points.cpp) *)

Section PointsModel.
Context {F : Type} `{FloatOps F}.

Local Open Scope float_scope.

Definition vec2f_zero : vec2f F := mk_vec2f fzero fzero.
Definition vec2f_sub (a b : vec2f F) : vec2f F :=
  mk_vec2f (vx a - vx b) (vy a - vy b).
Definition vec2f_dot (a b : vec2f F) : F := vx a * vx b + vy a * vy b.

Record StructuralMaterial : Type := {
  Mass : F;
  WaterVolumeFill : F;
  HeatCapacity : F;
  IgnitionTemperature : F;
  WindReceptivity : F
}.

Record CombustionState : Type := {
  State : StateType;
  FlameDevelopment : F;
  MaxFlameDevelopment : F;
  Personality : F
}.

(** [CombustionState()] *)
Definition CombustionState_default : CombustionState :=
  {| State := NotBurning; FlameDevelopment := fzero;
     MaxFlameDevelopment := fzero; Personality := fzero |}.

(** The game parameters a pass receives.  The [static constexpr]
    members, whose values are set in a header outside the sources at
    hand, are fields like the adjustable ones. *)
Record GameParameters : Type := {
  WaterDensityAdjustment : F;
  CombustionSpeedAdjustment : F;
  CombustionHeatAdjustment : F;
  IgnitionTemperatureAdjustment : F;
  MaxBurningParticles : nat;
  (* static *)
  WaterMass : F;
  InitialTemperature : F;
  IgnitionTemperatureHighWatermark : F;
  IgnitionTemperatureLowWatermark : F;
  SmotheringWaterLowWatermark : F;
  SmotheringWaterHighWatermark : F;
  SmotheringDecayHighWatermark : F;
  SmotheringDecayLowWatermark : F;
  GravityNormalized : vec2f F;
  WindSpeedBase : F
}.

#[global] Instance float_inhabited : Inhabited F := populate fzero.
#[global] Instance vec2f_inhabited : Inhabited (vec2f F) := populate vec2f_zero.
#[global] Instance CombustionState_inhabited : Inhabited CombustionState :=
  populate CombustionState_default.
#[global] Instance EphemeralType_inhabited : Inhabited EphemeralType :=
  populate ET_None.
#[global] Instance StructuralMaterial_inhabited : Inhabited StructuralMaterial :=
  populate {| Mass := fzero; WaterVolumeFill := fzero; HeatCapacity := fzero;
              IgnitionTemperature := fzero; WindReceptivity := fzero |}.

(** The structure-of-arrays state of [Points].  Buffers that the
    functions below neither read nor update (render attributes, water
    velocities, electrical elements, repair state) are left out. *)
Record Points : Type := {
  (* Materials *)
  mMaterialsBuffer : list StructuralMaterial;
  (* Mechanical dynamics *)
  mPositionBuffer : list (vec2f F);
  mVelocityBuffer : list (vec2f F);
  mForceBuffer : list (vec2f F);
  mAugmentedMaterialMassBuffer : list F;
  mMassBuffer : list F;
  mDecayBuffer : list F;
  mIntegrationFactorTimeCoefficientBuffer : list F;
  mIntegrationFactorBuffer : list (vec2f F);
  (* Water dynamics *)
  mMaterialWaterVolumeFillBuffer : list F;
  mWaterBuffer : list F;
  (* Heat dynamics *)
  mTemperatureBuffer : list F;
  mMaterialHeatCapacityBuffer : list F;
  mMaterialIgnitionTemperatureBuffer : list F;
  mCombustionStateBuffer : list CombustionState;
  (* Wind dynamics *)
  mMaterialWindReceptivityBuffer : list F;
  (* Ephemeral particles *)
  mEphemeralTypeBuffer : list EphemeralType;
  mEphemeralStartTimeBuffer : list F;
  mEphemeralMaxLifetimeBuffer : list F;
  (* Structure *)
  mConnectedSpringsBuffer : list (list ConnectedSpring);
  mPlaneIdBuffer : list PlaneId;
  mIsPinnedBuffer : list bool;
  (* Container *)
  mShipPointCount : ElementCount;
  mAllPointCount : ElementCount;
  mFreeEphemeralParticleSearchStartIndex : ElementIndex;
  (* Combustion *)
  mBurningPoints : list ElementIndex;
  (* Parameters and collaborators *)
  mCurrentNumMechanicalDynamicsIterations : F;
  mGameEventHandler : list GameEvent
}.

(** Field updates: [set_f v p] is [p] with field [f] replaced by [v]. *)
Definition set_mMaterialsBuffer (v : list StructuralMaterial) (p : Points) : Points :=
  Build_Points v (mPositionBuffer p) (mVelocityBuffer p) (mForceBuffer p)
    (mAugmentedMaterialMassBuffer p) (mMassBuffer p) (mDecayBuffer p)
    (mIntegrationFactorTimeCoefficientBuffer p) (mIntegrationFactorBuffer p)
    (mMaterialWaterVolumeFillBuffer p) (mWaterBuffer p) (mTemperatureBuffer p)
    (mMaterialHeatCapacityBuffer p) (mMaterialIgnitionTemperatureBuffer p)
    (mCombustionStateBuffer p) (mMaterialWindReceptivityBuffer p)
    (mEphemeralTypeBuffer p) (mEphemeralStartTimeBuffer p)
    (mEphemeralMaxLifetimeBuffer p) (mConnectedSpringsBuffer p)
    (mPlaneIdBuffer p) (mIsPinnedBuffer p) (mShipPointCount p) (mAllPointCount
    p) (mFreeEphemeralParticleSearchStartIndex p) (mBurningPoints p)
    (mCurrentNumMechanicalDynamicsIterations p) (mGameEventHandler p).

Definition set_mPositionBuffer (v : list (vec2f F)) (p : Points) : Points :=
  Build_Points (mMaterialsBuffer p) v (mVelocityBuffer p) (mForceBuffer p)
    (mAugmentedMaterialMassBuffer p) (mMassBuffer p) (mDecayBuffer p)
    (mIntegrationFactorTimeCoefficientBuffer p) (mIntegrationFactorBuffer p)
    (mMaterialWaterVolumeFillBuffer p) (mWaterBuffer p) (mTemperatureBuffer p)
    (mMaterialHeatCapacityBuffer p) (mMaterialIgnitionTemperatureBuffer p)
    (mCombustionStateBuffer p) (mMaterialWindReceptivityBuffer p)
    (mEphemeralTypeBuffer p) (mEphemeralStartTimeBuffer p)
    (mEphemeralMaxLifetimeBuffer p) (mConnectedSpringsBuffer p)
    (mPlaneIdBuffer p) (mIsPinnedBuffer p) (mShipPointCount p) (mAllPointCount
    p) (mFreeEphemeralParticleSearchStartIndex p) (mBurningPoints p)
    (mCurrentNumMechanicalDynamicsIterations p) (mGameEventHandler p).

Definition set_mVelocityBuffer (v : list (vec2f F)) (p : Points) : Points :=
  Build_Points (mMaterialsBuffer p) (mPositionBuffer p) v (mForceBuffer p)
    (mAugmentedMaterialMassBuffer p) (mMassBuffer p) (mDecayBuffer p)
    (mIntegrationFactorTimeCoefficientBuffer p) (mIntegrationFactorBuffer p)
    (mMaterialWaterVolumeFillBuffer p) (mWaterBuffer p) (mTemperatureBuffer p)
    (mMaterialHeatCapacityBuffer p) (mMaterialIgnitionTemperatureBuffer p)
    (mCombustionStateBuffer p) (mMaterialWindReceptivityBuffer p)
    (mEphemeralTypeBuffer p) (mEphemeralStartTimeBuffer p)
    (mEphemeralMaxLifetimeBuffer p) (mConnectedSpringsBuffer p)
    (mPlaneIdBuffer p) (mIsPinnedBuffer p) (mShipPointCount p) (mAllPointCount
    p) (mFreeEphemeralParticleSearchStartIndex p) (mBurningPoints p)
    (mCurrentNumMechanicalDynamicsIterations p) (mGameEventHandler p).

Definition set_mForceBuffer (v : list (vec2f F)) (p : Points) : Points :=
  Build_Points (mMaterialsBuffer p) (mPositionBuffer p) (mVelocityBuffer p) v
    (mAugmentedMaterialMassBuffer p) (mMassBuffer p) (mDecayBuffer p)
    (mIntegrationFactorTimeCoefficientBuffer p) (mIntegrationFactorBuffer p)
    (mMaterialWaterVolumeFillBuffer p) (mWaterBuffer p) (mTemperatureBuffer p)
    (mMaterialHeatCapacityBuffer p) (mMaterialIgnitionTemperatureBuffer p)
    (mCombustionStateBuffer p) (mMaterialWindReceptivityBuffer p)
    (mEphemeralTypeBuffer p) (mEphemeralStartTimeBuffer p)
    (mEphemeralMaxLifetimeBuffer p) (mConnectedSpringsBuffer p)
    (mPlaneIdBuffer p) (mIsPinnedBuffer p) (mShipPointCount p) (mAllPointCount
    p) (mFreeEphemeralParticleSearchStartIndex p) (mBurningPoints p)
    (mCurrentNumMechanicalDynamicsIterations p) (mGameEventHandler p).

Definition set_mAugmentedMaterialMassBuffer (v : list F) (p : Points) : Points :=
  Build_Points (mMaterialsBuffer p) (mPositionBuffer p) (mVelocityBuffer p)
    (mForceBuffer p) v (mMassBuffer p) (mDecayBuffer p)
    (mIntegrationFactorTimeCoefficientBuffer p) (mIntegrationFactorBuffer p)
    (mMaterialWaterVolumeFillBuffer p) (mWaterBuffer p) (mTemperatureBuffer p)
    (mMaterialHeatCapacityBuffer p) (mMaterialIgnitionTemperatureBuffer p)
    (mCombustionStateBuffer p) (mMaterialWindReceptivityBuffer p)
    (mEphemeralTypeBuffer p) (mEphemeralStartTimeBuffer p)
    (mEphemeralMaxLifetimeBuffer p) (mConnectedSpringsBuffer p)
    (mPlaneIdBuffer p) (mIsPinnedBuffer p) (mShipPointCount p) (mAllPointCount
    p) (mFreeEphemeralParticleSearchStartIndex p) (mBurningPoints p)
    (mCurrentNumMechanicalDynamicsIterations p) (mGameEventHandler p).

Definition set_mMassBuffer (v : list F) (p : Points) : Points :=
  Build_Points (mMaterialsBuffer p) (mPositionBuffer p) (mVelocityBuffer p)
    (mForceBuffer p) (mAugmentedMaterialMassBuffer p) v (mDecayBuffer p)
    (mIntegrationFactorTimeCoefficientBuffer p) (mIntegrationFactorBuffer p)
    (mMaterialWaterVolumeFillBuffer p) (mWaterBuffer p) (mTemperatureBuffer p)
    (mMaterialHeatCapacityBuffer p) (mMaterialIgnitionTemperatureBuffer p)
    (mCombustionStateBuffer p) (mMaterialWindReceptivityBuffer p)
    (mEphemeralTypeBuffer p) (mEphemeralStartTimeBuffer p)
    (mEphemeralMaxLifetimeBuffer p) (mConnectedSpringsBuffer p)
    (mPlaneIdBuffer p) (mIsPinnedBuffer p) (mShipPointCount p) (mAllPointCount
    p) (mFreeEphemeralParticleSearchStartIndex p) (mBurningPoints p)
    (mCurrentNumMechanicalDynamicsIterations p) (mGameEventHandler p).

Definition set_mDecayBuffer (v : list F) (p : Points) : Points :=
  Build_Points (mMaterialsBuffer p) (mPositionBuffer p) (mVelocityBuffer p)
    (mForceBuffer p) (mAugmentedMaterialMassBuffer p) (mMassBuffer p) v
    (mIntegrationFactorTimeCoefficientBuffer p) (mIntegrationFactorBuffer p)
    (mMaterialWaterVolumeFillBuffer p) (mWaterBuffer p) (mTemperatureBuffer p)
    (mMaterialHeatCapacityBuffer p) (mMaterialIgnitionTemperatureBuffer p)
    (mCombustionStateBuffer p) (mMaterialWindReceptivityBuffer p)
    (mEphemeralTypeBuffer p) (mEphemeralStartTimeBuffer p)
    (mEphemeralMaxLifetimeBuffer p) (mConnectedSpringsBuffer p)
    (mPlaneIdBuffer p) (mIsPinnedBuffer p) (mShipPointCount p) (mAllPointCount
    p) (mFreeEphemeralParticleSearchStartIndex p) (mBurningPoints p)
    (mCurrentNumMechanicalDynamicsIterations p) (mGameEventHandler p).

Definition set_mIntegrationFactorTimeCoefficientBuffer (v : list F) (p : Points) : Points :=
  Build_Points (mMaterialsBuffer p) (mPositionBuffer p) (mVelocityBuffer p)
    (mForceBuffer p) (mAugmentedMaterialMassBuffer p) (mMassBuffer p)
    (mDecayBuffer p) v (mIntegrationFactorBuffer p)
    (mMaterialWaterVolumeFillBuffer p) (mWaterBuffer p) (mTemperatureBuffer p)
    (mMaterialHeatCapacityBuffer p) (mMaterialIgnitionTemperatureBuffer p)
    (mCombustionStateBuffer p) (mMaterialWindReceptivityBuffer p)
    (mEphemeralTypeBuffer p) (mEphemeralStartTimeBuffer p)
    (mEphemeralMaxLifetimeBuffer p) (mConnectedSpringsBuffer p)
    (mPlaneIdBuffer p) (mIsPinnedBuffer p) (mShipPointCount p) (mAllPointCount
    p) (mFreeEphemeralParticleSearchStartIndex p) (mBurningPoints p)
    (mCurrentNumMechanicalDynamicsIterations p) (mGameEventHandler p).

Definition set_mIntegrationFactorBuffer (v : list (vec2f F)) (p : Points) : Points :=
  Build_Points (mMaterialsBuffer p) (mPositionBuffer p) (mVelocityBuffer p)
    (mForceBuffer p) (mAugmentedMaterialMassBuffer p) (mMassBuffer p)
    (mDecayBuffer p) (mIntegrationFactorTimeCoefficientBuffer p) v
    (mMaterialWaterVolumeFillBuffer p) (mWaterBuffer p) (mTemperatureBuffer p)
    (mMaterialHeatCapacityBuffer p) (mMaterialIgnitionTemperatureBuffer p)
    (mCombustionStateBuffer p) (mMaterialWindReceptivityBuffer p)
    (mEphemeralTypeBuffer p) (mEphemeralStartTimeBuffer p)
    (mEphemeralMaxLifetimeBuffer p) (mConnectedSpringsBuffer p)
    (mPlaneIdBuffer p) (mIsPinnedBuffer p) (mShipPointCount p) (mAllPointCount
    p) (mFreeEphemeralParticleSearchStartIndex p) (mBurningPoints p)
    (mCurrentNumMechanicalDynamicsIterations p) (mGameEventHandler p).

Definition set_mMaterialWaterVolumeFillBuffer (v : list F) (p : Points) : Points :=
  Build_Points (mMaterialsBuffer p) (mPositionBuffer p) (mVelocityBuffer p)
    (mForceBuffer p) (mAugmentedMaterialMassBuffer p) (mMassBuffer p)
    (mDecayBuffer p) (mIntegrationFactorTimeCoefficientBuffer p)
    (mIntegrationFactorBuffer p) v (mWaterBuffer p) (mTemperatureBuffer p)
    (mMaterialHeatCapacityBuffer p) (mMaterialIgnitionTemperatureBuffer p)
    (mCombustionStateBuffer p) (mMaterialWindReceptivityBuffer p)
    (mEphemeralTypeBuffer p) (mEphemeralStartTimeBuffer p)
    (mEphemeralMaxLifetimeBuffer p) (mConnectedSpringsBuffer p)
    (mPlaneIdBuffer p) (mIsPinnedBuffer p) (mShipPointCount p) (mAllPointCount
    p) (mFreeEphemeralParticleSearchStartIndex p) (mBurningPoints p)
    (mCurrentNumMechanicalDynamicsIterations p) (mGameEventHandler p).

Definition set_mWaterBuffer (v : list F) (p : Points) : Points :=
  Build_Points (mMaterialsBuffer p) (mPositionBuffer p) (mVelocityBuffer p)
    (mForceBuffer p) (mAugmentedMaterialMassBuffer p) (mMassBuffer p)
    (mDecayBuffer p) (mIntegrationFactorTimeCoefficientBuffer p)
    (mIntegrationFactorBuffer p) (mMaterialWaterVolumeFillBuffer p) v
    (mTemperatureBuffer p) (mMaterialHeatCapacityBuffer p)
    (mMaterialIgnitionTemperatureBuffer p) (mCombustionStateBuffer p)
    (mMaterialWindReceptivityBuffer p) (mEphemeralTypeBuffer p)
    (mEphemeralStartTimeBuffer p) (mEphemeralMaxLifetimeBuffer p)
    (mConnectedSpringsBuffer p) (mPlaneIdBuffer p) (mIsPinnedBuffer p)
    (mShipPointCount p) (mAllPointCount p)
    (mFreeEphemeralParticleSearchStartIndex p) (mBurningPoints p)
    (mCurrentNumMechanicalDynamicsIterations p) (mGameEventHandler p).

Definition set_mTemperatureBuffer (v : list F) (p : Points) : Points :=
  Build_Points (mMaterialsBuffer p) (mPositionBuffer p) (mVelocityBuffer p)
    (mForceBuffer p) (mAugmentedMaterialMassBuffer p) (mMassBuffer p)
    (mDecayBuffer p) (mIntegrationFactorTimeCoefficientBuffer p)
    (mIntegrationFactorBuffer p) (mMaterialWaterVolumeFillBuffer p)
    (mWaterBuffer p) v (mMaterialHeatCapacityBuffer p)
    (mMaterialIgnitionTemperatureBuffer p) (mCombustionStateBuffer p)
    (mMaterialWindReceptivityBuffer p) (mEphemeralTypeBuffer p)
    (mEphemeralStartTimeBuffer p) (mEphemeralMaxLifetimeBuffer p)
    (mConnectedSpringsBuffer p) (mPlaneIdBuffer p) (mIsPinnedBuffer p)
    (mShipPointCount p) (mAllPointCount p)
    (mFreeEphemeralParticleSearchStartIndex p) (mBurningPoints p)
    (mCurrentNumMechanicalDynamicsIterations p) (mGameEventHandler p).

Definition set_mMaterialHeatCapacityBuffer (v : list F) (p : Points) : Points :=
  Build_Points (mMaterialsBuffer p) (mPositionBuffer p) (mVelocityBuffer p)
    (mForceBuffer p) (mAugmentedMaterialMassBuffer p) (mMassBuffer p)
    (mDecayBuffer p) (mIntegrationFactorTimeCoefficientBuffer p)
    (mIntegrationFactorBuffer p) (mMaterialWaterVolumeFillBuffer p)
    (mWaterBuffer p) (mTemperatureBuffer p) v
    (mMaterialIgnitionTemperatureBuffer p) (mCombustionStateBuffer p)
    (mMaterialWindReceptivityBuffer p) (mEphemeralTypeBuffer p)
    (mEphemeralStartTimeBuffer p) (mEphemeralMaxLifetimeBuffer p)
    (mConnectedSpringsBuffer p) (mPlaneIdBuffer p) (mIsPinnedBuffer p)
    (mShipPointCount p) (mAllPointCount p)
    (mFreeEphemeralParticleSearchStartIndex p) (mBurningPoints p)
    (mCurrentNumMechanicalDynamicsIterations p) (mGameEventHandler p).

Definition set_mMaterialIgnitionTemperatureBuffer (v : list F) (p : Points) : Points :=
  Build_Points (mMaterialsBuffer p) (mPositionBuffer p) (mVelocityBuffer p)
    (mForceBuffer p) (mAugmentedMaterialMassBuffer p) (mMassBuffer p)
    (mDecayBuffer p) (mIntegrationFactorTimeCoefficientBuffer p)
    (mIntegrationFactorBuffer p) (mMaterialWaterVolumeFillBuffer p)
    (mWaterBuffer p) (mTemperatureBuffer p) (mMaterialHeatCapacityBuffer p) v
    (mCombustionStateBuffer p) (mMaterialWindReceptivityBuffer p)
    (mEphemeralTypeBuffer p) (mEphemeralStartTimeBuffer p)
    (mEphemeralMaxLifetimeBuffer p) (mConnectedSpringsBuffer p)
    (mPlaneIdBuffer p) (mIsPinnedBuffer p) (mShipPointCount p) (mAllPointCount
    p) (mFreeEphemeralParticleSearchStartIndex p) (mBurningPoints p)
    (mCurrentNumMechanicalDynamicsIterations p) (mGameEventHandler p).

Definition set_mCombustionStateBuffer (v : list CombustionState) (p : Points) : Points :=
  Build_Points (mMaterialsBuffer p) (mPositionBuffer p) (mVelocityBuffer p)
    (mForceBuffer p) (mAugmentedMaterialMassBuffer p) (mMassBuffer p)
    (mDecayBuffer p) (mIntegrationFactorTimeCoefficientBuffer p)
    (mIntegrationFactorBuffer p) (mMaterialWaterVolumeFillBuffer p)
    (mWaterBuffer p) (mTemperatureBuffer p) (mMaterialHeatCapacityBuffer p)
    (mMaterialIgnitionTemperatureBuffer p) v (mMaterialWindReceptivityBuffer
    p) (mEphemeralTypeBuffer p) (mEphemeralStartTimeBuffer p)
    (mEphemeralMaxLifetimeBuffer p) (mConnectedSpringsBuffer p)
    (mPlaneIdBuffer p) (mIsPinnedBuffer p) (mShipPointCount p) (mAllPointCount
    p) (mFreeEphemeralParticleSearchStartIndex p) (mBurningPoints p)
    (mCurrentNumMechanicalDynamicsIterations p) (mGameEventHandler p).

Definition set_mMaterialWindReceptivityBuffer (v : list F) (p : Points) : Points :=
  Build_Points (mMaterialsBuffer p) (mPositionBuffer p) (mVelocityBuffer p)
    (mForceBuffer p) (mAugmentedMaterialMassBuffer p) (mMassBuffer p)
    (mDecayBuffer p) (mIntegrationFactorTimeCoefficientBuffer p)
    (mIntegrationFactorBuffer p) (mMaterialWaterVolumeFillBuffer p)
    (mWaterBuffer p) (mTemperatureBuffer p) (mMaterialHeatCapacityBuffer p)
    (mMaterialIgnitionTemperatureBuffer p) (mCombustionStateBuffer p) v
    (mEphemeralTypeBuffer p) (mEphemeralStartTimeBuffer p)
    (mEphemeralMaxLifetimeBuffer p) (mConnectedSpringsBuffer p)
    (mPlaneIdBuffer p) (mIsPinnedBuffer p) (mShipPointCount p) (mAllPointCount
    p) (mFreeEphemeralParticleSearchStartIndex p) (mBurningPoints p)
    (mCurrentNumMechanicalDynamicsIterations p) (mGameEventHandler p).

Definition set_mEphemeralTypeBuffer (v : list EphemeralType) (p : Points) : Points :=
  Build_Points (mMaterialsBuffer p) (mPositionBuffer p) (mVelocityBuffer p)
    (mForceBuffer p) (mAugmentedMaterialMassBuffer p) (mMassBuffer p)
    (mDecayBuffer p) (mIntegrationFactorTimeCoefficientBuffer p)
    (mIntegrationFactorBuffer p) (mMaterialWaterVolumeFillBuffer p)
    (mWaterBuffer p) (mTemperatureBuffer p) (mMaterialHeatCapacityBuffer p)
    (mMaterialIgnitionTemperatureBuffer p) (mCombustionStateBuffer p)
    (mMaterialWindReceptivityBuffer p) v (mEphemeralStartTimeBuffer p)
    (mEphemeralMaxLifetimeBuffer p) (mConnectedSpringsBuffer p)
    (mPlaneIdBuffer p) (mIsPinnedBuffer p) (mShipPointCount p) (mAllPointCount
    p) (mFreeEphemeralParticleSearchStartIndex p) (mBurningPoints p)
    (mCurrentNumMechanicalDynamicsIterations p) (mGameEventHandler p).

Definition set_mEphemeralStartTimeBuffer (v : list F) (p : Points) : Points :=
  Build_Points (mMaterialsBuffer p) (mPositionBuffer p) (mVelocityBuffer p)
    (mForceBuffer p) (mAugmentedMaterialMassBuffer p) (mMassBuffer p)
    (mDecayBuffer p) (mIntegrationFactorTimeCoefficientBuffer p)
    (mIntegrationFactorBuffer p) (mMaterialWaterVolumeFillBuffer p)
    (mWaterBuffer p) (mTemperatureBuffer p) (mMaterialHeatCapacityBuffer p)
    (mMaterialIgnitionTemperatureBuffer p) (mCombustionStateBuffer p)
    (mMaterialWindReceptivityBuffer p) (mEphemeralTypeBuffer p) v
    (mEphemeralMaxLifetimeBuffer p) (mConnectedSpringsBuffer p)
    (mPlaneIdBuffer p) (mIsPinnedBuffer p) (mShipPointCount p) (mAllPointCount
    p) (mFreeEphemeralParticleSearchStartIndex p) (mBurningPoints p)
    (mCurrentNumMechanicalDynamicsIterations p) (mGameEventHandler p).

Definition set_mEphemeralMaxLifetimeBuffer (v : list F) (p : Points) : Points :=
  Build_Points (mMaterialsBuffer p) (mPositionBuffer p) (mVelocityBuffer p)
    (mForceBuffer p) (mAugmentedMaterialMassBuffer p) (mMassBuffer p)
    (mDecayBuffer p) (mIntegrationFactorTimeCoefficientBuffer p)
    (mIntegrationFactorBuffer p) (mMaterialWaterVolumeFillBuffer p)
    (mWaterBuffer p) (mTemperatureBuffer p) (mMaterialHeatCapacityBuffer p)
    (mMaterialIgnitionTemperatureBuffer p) (mCombustionStateBuffer p)
    (mMaterialWindReceptivityBuffer p) (mEphemeralTypeBuffer p)
    (mEphemeralStartTimeBuffer p) v (mConnectedSpringsBuffer p)
    (mPlaneIdBuffer p) (mIsPinnedBuffer p) (mShipPointCount p) (mAllPointCount
    p) (mFreeEphemeralParticleSearchStartIndex p) (mBurningPoints p)
    (mCurrentNumMechanicalDynamicsIterations p) (mGameEventHandler p).

Definition set_mPlaneIdBuffer (v : list PlaneId) (p : Points) : Points :=
  Build_Points (mMaterialsBuffer p) (mPositionBuffer p) (mVelocityBuffer p)
    (mForceBuffer p) (mAugmentedMaterialMassBuffer p) (mMassBuffer p)
    (mDecayBuffer p) (mIntegrationFactorTimeCoefficientBuffer p)
    (mIntegrationFactorBuffer p) (mMaterialWaterVolumeFillBuffer p)
    (mWaterBuffer p) (mTemperatureBuffer p) (mMaterialHeatCapacityBuffer p)
    (mMaterialIgnitionTemperatureBuffer p) (mCombustionStateBuffer p)
    (mMaterialWindReceptivityBuffer p) (mEphemeralTypeBuffer p)
    (mEphemeralStartTimeBuffer p) (mEphemeralMaxLifetimeBuffer p)
    (mConnectedSpringsBuffer p) v (mIsPinnedBuffer p) (mShipPointCount p)
    (mAllPointCount p) (mFreeEphemeralParticleSearchStartIndex p)
    (mBurningPoints p) (mCurrentNumMechanicalDynamicsIterations p)
    (mGameEventHandler p).

Definition set_mFreeEphemeralParticleSearchStartIndex (v : ElementIndex) (p : Points) : Points :=
  Build_Points (mMaterialsBuffer p) (mPositionBuffer p) (mVelocityBuffer p)
    (mForceBuffer p) (mAugmentedMaterialMassBuffer p) (mMassBuffer p)
    (mDecayBuffer p) (mIntegrationFactorTimeCoefficientBuffer p)
    (mIntegrationFactorBuffer p) (mMaterialWaterVolumeFillBuffer p)
    (mWaterBuffer p) (mTemperatureBuffer p) (mMaterialHeatCapacityBuffer p)
    (mMaterialIgnitionTemperatureBuffer p) (mCombustionStateBuffer p)
    (mMaterialWindReceptivityBuffer p) (mEphemeralTypeBuffer p)
    (mEphemeralStartTimeBuffer p) (mEphemeralMaxLifetimeBuffer p)
    (mConnectedSpringsBuffer p) (mPlaneIdBuffer p) (mIsPinnedBuffer p)
    (mShipPointCount p) (mAllPointCount p) v (mBurningPoints p)
    (mCurrentNumMechanicalDynamicsIterations p) (mGameEventHandler p).

Definition set_mBurningPoints (v : list ElementIndex) (p : Points) : Points :=
  Build_Points (mMaterialsBuffer p) (mPositionBuffer p) (mVelocityBuffer p)
    (mForceBuffer p) (mAugmentedMaterialMassBuffer p) (mMassBuffer p)
    (mDecayBuffer p) (mIntegrationFactorTimeCoefficientBuffer p)
    (mIntegrationFactorBuffer p) (mMaterialWaterVolumeFillBuffer p)
    (mWaterBuffer p) (mTemperatureBuffer p) (mMaterialHeatCapacityBuffer p)
    (mMaterialIgnitionTemperatureBuffer p) (mCombustionStateBuffer p)
    (mMaterialWindReceptivityBuffer p) (mEphemeralTypeBuffer p)
    (mEphemeralStartTimeBuffer p) (mEphemeralMaxLifetimeBuffer p)
    (mConnectedSpringsBuffer p) (mPlaneIdBuffer p) (mIsPinnedBuffer p)
    (mShipPointCount p) (mAllPointCount p)
    (mFreeEphemeralParticleSearchStartIndex p) v
    (mCurrentNumMechanicalDynamicsIterations p) (mGameEventHandler p).

Definition set_mGameEventHandler (v : list GameEvent) (p : Points) : Points :=
  Build_Points (mMaterialsBuffer p) (mPositionBuffer p) (mVelocityBuffer p)
    (mForceBuffer p) (mAugmentedMaterialMassBuffer p) (mMassBuffer p)
    (mDecayBuffer p) (mIntegrationFactorTimeCoefficientBuffer p)
    (mIntegrationFactorBuffer p) (mMaterialWaterVolumeFillBuffer p)
    (mWaterBuffer p) (mTemperatureBuffer p) (mMaterialHeatCapacityBuffer p)
    (mMaterialIgnitionTemperatureBuffer p) (mCombustionStateBuffer p)
    (mMaterialWindReceptivityBuffer p) (mEphemeralTypeBuffer p)
    (mEphemeralStartTimeBuffer p) (mEphemeralMaxLifetimeBuffer p)
    (mConnectedSpringsBuffer p) (mPlaneIdBuffer p) (mIsPinnedBuffer p)
    (mShipPointCount p) (mAllPointCount p)
    (mFreeEphemeralParticleSearchStartIndex p) (mBurningPoints p)
    (mCurrentNumMechanicalDynamicsIterations p) v.

(** [for (ElementIndex i : *this)]: the container's element count is
    the count of all points, ship and ephemeral. *)
Definition all_elements (p : Points) : list ElementIndex :=
  seqZ 0 (mAllPointCount p).

(** *** Detach *)

Definition DetachHandler : Type :=
  ElementIndex -> bool -> bool -> F -> GameParameters -> Points -> Points.

Definition Detach
    (mDetachHandler : option DetachHandler)
    (pointElementIndex : ElementIndex)
    (velocity : vec2f F)
    (detachOptions : DetachOptions)
    (currentSimulationTime : F)
    (gameParameters : GameParameters)
    (p : Points) : Points :=
  (* Invoke detach handler *)
  let p :=
    match mDetachHandler with
    | Some handler =>
        handler pointElementIndex
          (GenerateDebris detachOptions)
          (FireDestroyEvent detachOptions)
          currentSimulationTime gameParameters p
    | None => p
    end in
  (* Imprint velocity, unless the point is pinned *)
  if negb (rd (mIsPinnedBuffer p) pointElementIndex)
  then set_mVelocityBuffer (wr (mVelocityBuffer p) pointElementIndex velocity) p
  else p.

(** *** UpdateMasses *)

Definition UpdateMasses_point (densityAdjustedWaterMass : F)
    (p : Points) (i : ElementIndex) : Points :=
  let mass :=
    rd (mAugmentedMaterialMassBuffer p) i
    + stdmin (rd (mWaterBuffer p) i) (rd (mMaterialWaterVolumeFillBuffer p) i)
      * densityAdjustedWaterMass in
  let p := set_mMassBuffer (wr (mMassBuffer p) i mass) p in
  set_mIntegrationFactorBuffer
    (wr (mIntegrationFactorBuffer p) i
        (mk_vec2f
           (rd (mIntegrationFactorTimeCoefficientBuffer p) i / mass)
           (rd (mIntegrationFactorTimeCoefficientBuffer p) i / mass)))
    p.

Definition UpdateMasses (gameParameters : GameParameters) (p : Points) : Points :=
  let densityAdjustedWaterMass :=
    WaterMass gameParameters * WaterDensityAdjustment gameParameters in
  fold_left (UpdateMasses_point densityAdjustedWaterMass) (all_elements p) p.

End PointsModel.

Arguments StructuralMaterial F : clear implicits.
Arguments CombustionState F : clear implicits.
Arguments GameParameters F : clear implicits.
Arguments Points F : clear implicits.
Arguments DetachHandler F : clear implicits.

(** ** Ephemeral particles (src/Game/Points.cpp) *)

Section PointsEphemeral.
Context {F : Type} `{FloatOps F}.

Local Open Scope float_scope.

(** Collaborators of [Points] that live outside the sources at hand: the
    parent world's underwater test, the integration-factor coefficient of
    [Points.h], [std::numeric_limits<float>::max()], and the vector and
    interpolation helpers of [GameCore]. *)
Record Externals : Type := {
  IsUnderwater : vec2f F -> bool;
  CalculateIntegrationFactorTimeCoefficient : F -> F;
  numeric_limits_max : F;
  normalise : vec2f F -> vec2f F;
  SmoothStep : F -> F -> F -> F
}.

(** What one turn of the search loop leaves behind. *)
Inductive ScanOutcome : Type :=
| Found (p : ElementIndex)
| WentAround (oldestParticle : ElementIndex).

(** [++p; if (p >= mAllPointCount) p = mShipPointCount;] *)
Definition advance (pts : Points F) (p : ElementIndex) : ElementIndex :=
  let p := wrap32 (p + 1) in
  if p >=? mAllPointCount pts then mShipPointCount pts else p.

(** The [for (ElementIndex p = start; ; )] loop.  The budget counts the
    turns; it runs out only on a state where the loop would leave the
    ephemeral region. *)
Fixpoint FindFreeEphemeralParticle_loop (budget : nat)
    (currentSimulationTime : F) (pts : Points F)
    (p : ElementIndex) (oldestParticle : ElementIndex)
    (oldestParticleLifetime : F) : option ScanOutcome :=
  match budget with
  | O => None
  | S budget =>
      if EphemeralType_eqb ET_None (rd (mEphemeralTypeBuffer pts) p)
      then Some (Found p)
      else
        (* Check whether it's the oldest *)
        let lifetime :=
          currentSimulationTime - rd (mEphemeralStartTimeBuffer pts) p in
        let '(oldestParticle, oldestParticleLifetime) :=
          if fgeb lifetime oldestParticleLifetime
          then (p, lifetime)
          else (oldestParticle, oldestParticleLifetime) in
        (* Advance *)
        let p := advance pts p in
        if p =? mFreeEphemeralParticleSearchStartIndex pts
        then Some (WentAround oldestParticle)
        else FindFreeEphemeralParticle_loop budget currentSimulationTime pts
               p oldestParticle oldestParticleLifetime
  end.

(** "Remember to start after this one next time" *)
Definition start_after (p : ElementIndex) (pts : Points F) : Points F :=
  let s := wrap32 (p + 1) in
  set_mFreeEphemeralParticleSearchStartIndex
    (if s >=? mAllPointCount pts then mShipPointCount pts else s) pts.

(** Returns the index and the updated state; [None] when the loop budget,
    one turn per ephemeral slot, is exceeded. *)
Definition FindFreeEphemeralParticle
    (currentSimulationTime : F) (force : bool) (pts : Points F)
    : option (ElementIndex * Points F) :=
  match FindFreeEphemeralParticle_loop
          (Z.to_nat (mAllPointCount pts - mShipPointCount pts))
          currentSimulationTime pts
          (mFreeEphemeralParticleSearchStartIndex pts)
          NoneElementIndex fzero with
  | None => None
  | Some (Found p) => Some (p, start_after p pts)
  | Some (WentAround oldestParticle) =>
      (* No luck *)
      if negb force then Some (NoneElementIndex, pts)
      else (* Steal the oldest *)
        Some (oldestParticle, start_after oldestParticle pts)
  end.

(** The attribute stores shared by the three creators, in source order. *)
Definition StoreAttributes (ext : Externals) (pointIndex : ElementIndex)
    (position velocity : vec2f F) (structuralMaterial : StructuralMaterial F)
    (waterVolumeFill temperature windReceptivity : F)
    (ephemeralType : EphemeralType) (currentSimulationTime maxLifetime : F)
    (planeId : PlaneId) (pts : Points F) : Points F :=
  let pts := set_mPositionBuffer (wr (mPositionBuffer pts) pointIndex position) pts in
  let pts := set_mVelocityBuffer (wr (mVelocityBuffer pts) pointIndex velocity) pts in
  let pts := set_mForceBuffer (wr (mForceBuffer pts) pointIndex vec2f_zero) pts in
  let pts := set_mAugmentedMaterialMassBuffer
    (wr (mAugmentedMaterialMassBuffer pts) pointIndex (Mass structuralMaterial)) pts in
  let pts := set_mMassBuffer
    (wr (mMassBuffer pts) pointIndex (Mass structuralMaterial)) pts in
  let pts := set_mDecayBuffer (wr (mDecayBuffer pts) pointIndex fone) pts in
  let pts := set_mIntegrationFactorTimeCoefficientBuffer
    (wr (mIntegrationFactorTimeCoefficientBuffer pts) pointIndex
        (CalculateIntegrationFactorTimeCoefficient ext
           (mCurrentNumMechanicalDynamicsIterations pts))) pts in
  let pts := set_mMaterialsBuffer
    (wr (mMaterialsBuffer pts) pointIndex structuralMaterial) pts in
  let pts := set_mMaterialWaterVolumeFillBuffer
    (wr (mMaterialWaterVolumeFillBuffer pts) pointIndex waterVolumeFill) pts in
  let pts := set_mWaterBuffer (wr (mWaterBuffer pts) pointIndex fzero) pts in
  let pts := set_mTemperatureBuffer
    (wr (mTemperatureBuffer pts) pointIndex temperature) pts in
  let pts := set_mMaterialHeatCapacityBuffer
    (wr (mMaterialHeatCapacityBuffer pts) pointIndex
        (HeatCapacity structuralMaterial)) pts in
  let pts := set_mMaterialIgnitionTemperatureBuffer
    (wr (mMaterialIgnitionTemperatureBuffer pts) pointIndex
        (IgnitionTemperature structuralMaterial)) pts in
  let pts := set_mCombustionStateBuffer
    (wr (mCombustionStateBuffer pts) pointIndex CombustionState_default) pts in
  let pts := set_mMaterialWindReceptivityBuffer
    (wr (mMaterialWindReceptivityBuffer pts) pointIndex windReceptivity) pts in
  let pts := set_mEphemeralTypeBuffer
    (wr (mEphemeralTypeBuffer pts) pointIndex ephemeralType) pts in
  let pts := set_mEphemeralStartTimeBuffer
    (wr (mEphemeralStartTimeBuffer pts) pointIndex currentSimulationTime) pts in
  let pts := set_mEphemeralMaxLifetimeBuffer
    (wr (mEphemeralMaxLifetimeBuffer pts) pointIndex maxLifetime) pts in
  set_mPlaneIdBuffer (wr (mPlaneIdBuffer pts) pointIndex planeId) pts.

Definition CreateEphemeralParticleAirBubble (ext : Externals)
    (gameParameters : GameParameters F)
    (position : vec2f F) (structuralMaterial : StructuralMaterial F)
    (currentSimulationTime : F) (planeId : PlaneId)
    (pts : Points F) : option (Points F) :=
  (* Get a free slot (but don't steal one) *)
  match FindFreeEphemeralParticle currentSimulationTime false pts with
  | None => None
  | Some (pointIndex, pts) =>
      if pointIndex =? NoneElementIndex
      then Some pts (* No luck *)
      else Some (StoreAttributes ext pointIndex position vec2f_zero
                   structuralMaterial (WaterVolumeFill structuralMaterial)
                   (InitialTemperature gameParameters) fzero
                   AirBubble currentSimulationTime (numeric_limits_max ext)
                   planeId pts)
  end.

Definition CreateEphemeralParticleDebris (ext : Externals)
    (gameParameters : GameParameters F)
    (position velocity : vec2f F) (structuralMaterial : StructuralMaterial F)
    (currentSimulationTime : F) (maxLifetime : F) (planeId : PlaneId)
    (pts : Points F) : option (Points F) :=
  (* Get a free slot (or steal one) *)
  match FindFreeEphemeralParticle currentSimulationTime true pts with
  | None => None
  | Some (pointIndex, pts) =>
      Some (StoreAttributes ext pointIndex position velocity
              structuralMaterial fzero (* No buoyancy *)
              (InitialTemperature gameParameters)
              (lit 3 1) (* Debris are susceptible to wind *)
              Debris currentSimulationTime maxLifetime
              planeId pts)
  end.

Definition CreateEphemeralParticleSparkle (ext : Externals)
    (gameParameters : GameParameters F)
    (position velocity : vec2f F) (structuralMaterial : StructuralMaterial F)
    (currentSimulationTime : F) (maxLifetime : F) (planeId : PlaneId)
    (pts : Points F) : option (Points F) :=
  (* Get a free slot (or steal one) *)
  match FindFreeEphemeralParticle currentSimulationTime true pts with
  | None => None
  | Some (pointIndex, pts) =>
      Some (StoreAttributes ext pointIndex position velocity
              structuralMaterial fzero (* No buoyancy *)
              (lit 77315 100) (* 500 Celsius, arbitrary *)
              (lit 5 1) (* Sparkles are susceptible to wind *)
              Sparkle currentSimulationTime maxLifetime
              planeId pts)
  end.

(** A request to one of the three creators. *)
Inductive Allocation : Type :=
| AllocAirBubble (position : vec2f F) (material : StructuralMaterial F)
    (currentSimulationTime : F) (planeId : PlaneId)
| AllocDebris (position velocity : vec2f F) (material : StructuralMaterial F)
    (currentSimulationTime maxLifetime : F) (planeId : PlaneId)
| AllocSparkle (position velocity : vec2f F) (material : StructuralMaterial F)
    (currentSimulationTime maxLifetime : F) (planeId : PlaneId).

Definition allocation_time (a : Allocation) : F :=
  match a with
  | AllocAirBubble _ _ t _ => t
  | AllocDebris _ _ _ t _ _ => t
  | AllocSparkle _ _ _ t _ _ => t
  end.

Definition allocate (ext : Externals) (gp : GameParameters F)
    (a : Allocation) (pts : Points F) : option (Points F) :=
  match a with
  | AllocAirBubble pos m t pl =>
      CreateEphemeralParticleAirBubble ext gp pos m t pl pts
  | AllocDebris pos v m t life pl =>
      CreateEphemeralParticleDebris ext gp pos v m t life pl pts
  | AllocSparkle pos v m t life pl =>
      CreateEphemeralParticleSparkle ext gp pos v m t life pl pts
  end.

Fixpoint allocate_all (ext : Externals) (gp : GameParameters F)
    (l : list Allocation) (pts : Points F) : option (Points F) :=
  match l with
  | [] => Some pts
  | a :: l =>
      match allocate ext gp a pts with
      | Some pts => allocate_all ext gp l pts
      | None => None
      end
  end.

End PointsEphemeral.

Arguments Externals F : clear implicits.
Arguments Allocation F : clear implicits.

(** ** Combustion (src/Game/Points.cpp) *)

Section PointsCombustion.
Context {F : Type} `{FloatOps F}.

Local Open Scope float_scope.

Definition IgnitionCandidate : Type := (ElementIndex * F)%type.

Definition set_State (s : StateType) (c : CombustionState F) : CombustionState F :=
  {| State := s; FlameDevelopment := FlameDevelopment c;
     MaxFlameDevelopment := MaxFlameDevelopment c; Personality := Personality c |}.

Definition set_FlameDevelopment (d : F) (c : CombustionState F) : CombustionState F :=
  {| State := State c; FlameDevelopment := d;
     MaxFlameDevelopment := MaxFlameDevelopment c; Personality := Personality c |}.

Definition notify (e : GameEvent) (pts : Points F) : Points F :=
  set_mGameEventHandler (e :: mGameEventHandler pts) pts.

(** [mDecayBuffer[i] *= decayAlpha] *)
Definition decay_by (decayAlpha : F) (pts : Points F) (i : ElementIndex) : Points F :=
  set_mDecayBuffer (wr (mDecayBuffer pts) i (rd (mDecayBuffer pts) i * decayAlpha)) pts.

(** The body of the first loop of the low-frequency pass, for one point. *)
Definition LowFrequency_point `{LibM F} (ext : Externals F)
    (gameParameters : GameParameters F) (effectiveCombustionDecayRate : F)
    (acc : Points F * list IgnitionCandidate) (pointIndex : ElementIndex)
    : Points F * list IgnitionCandidate :=
  let '(pts, mIgnitionCandidates) := acc in
  let currentState := State (rd (mCombustionStateBuffer pts) pointIndex) in
  match currentState with
  | NotBurning =>
      (* See if this point should start burning *)
      let effectiveIgnitionTemperature :=
        rd (mMaterialIgnitionTemperatureBuffer pts) pointIndex
        * IgnitionTemperatureAdjustment gameParameters in
      if fgeb (rd (mTemperatureBuffer pts) pointIndex)
              (effectiveIgnitionTemperature
               + IgnitionTemperatureHighWatermark gameParameters)
         && negb (IsUnderwater ext (rd (mPositionBuffer pts) pointIndex))
         && fltb (rd (mWaterBuffer pts) pointIndex)
                 (SmotheringWaterLowWatermark gameParameters)
         && fgtb (rd (mDecayBuffer pts) pointIndex)
                 (SmotheringDecayHighWatermark gameParameters)
      then
        (* Store point as candidate *)
        (pts,
         mIgnitionCandidates ++
           [(pointIndex,
             (rd (mTemperatureBuffer pts) pointIndex - effectiveIgnitionTemperature)
             / effectiveIgnitionTemperature)])
      else (pts, mIgnitionCandidates)
  | Burning =>
      (* See if this point should start extinguishing for temperature or decay *)
      let effectiveIgnitionTemperature :=
        rd (mMaterialIgnitionTemperatureBuffer pts) pointIndex
        * IgnitionTemperatureAdjustment gameParameters in
      if fleb (rd (mTemperatureBuffer pts) pointIndex)
              (effectiveIgnitionTemperature
               + IgnitionTemperatureLowWatermark gameParameters)
         || fltb (rd (mDecayBuffer pts) pointIndex)
                 (SmotheringDecayLowWatermark gameParameters)
      then
        (* Transition to Extinguishing - by consumption *)
        let pts :=
          set_mCombustionStateBuffer
            (wr (mCombustionStateBuffer pts) pointIndex
                (set_State Extinguishing_Consumed
                   (rd (mCombustionStateBuffer pts) pointIndex))) pts in
        (* Notify combustion end *)
        (notify OnPointCombustionEnd pts, mIgnitionCandidates)
      else
        (* 1. Decay - proportionally to mass *)
        let massMultiplier :=
          powf (Mass (rd (mMaterialsBuffer pts) pointIndex) / lit 750 1)
               (lit 15 100) in
        let totalDecaySteps := effectiveCombustionDecayRate * massMultiplier in
        let decayAlpha := powf (lit 1 100) (fone / totalDecaySteps) in
        let pts := decay_by decayAlpha pts pointIndex in
        (* 2. Decay neighbors *)
        let pts :=
          fold_left
            (fun pts s => decay_by decayAlpha pts (OtherEndpointIndex s))
            (rd (mConnectedSpringsBuffer pts) pointIndex) pts in
        (pts, mIgnitionCandidates)
  | _ => (pts, mIgnitionCandidates)
  end.

(** [for (pointIndex = pointOffset; pointIndex < mShipPointCount;
    pointIndex += pointStride)].  The budget counts the turns. *)
Fixpoint LowFrequency_loop `{LibM F} (budget : nat) (ext : Externals F)
    (gameParameters : GameParameters F) (effectiveCombustionDecayRate : F)
    (pointStride : ElementIndex) (pointIndex : ElementIndex)
    (acc : Points F * list IgnitionCandidate)
    : option (Points F * list IgnitionCandidate) :=
  if pointIndex <? mShipPointCount (fst acc) then
    match budget with
    | O => None
    | S budget =>
        LowFrequency_loop budget ext gameParameters effectiveCombustionDecayRate
          pointStride (wrap32 (pointIndex + pointStride))
          (LowFrequency_point ext gameParameters effectiveCombustionDecayRate
             acc pointIndex)
    end
  else Some acc.

(** [mBurningPoints.insert(std::lower_bound(..., pointIndex, planeId(p1) <
    planeId(p2)), pointIndex)]: on a list sorted by plane id, the first
    position whose plane id is not below the new point's. *)
Fixpoint insert_by_plane (planeIds : list PlaneId) (l : list ElementIndex)
    (pointIndex : ElementIndex) : list ElementIndex :=
  match l with
  | [] => [pointIndex]
  | p :: l' =>
      if rd planeIds p <? rd planeIds pointIndex
      then p :: insert_by_plane planeIds l' pointIndex
      else pointIndex :: l
  end.

(** "Ignite!": the body of the second loop, for the candidate at
    position [i], with the personality drawn for it. *)
Definition Ignite (ext : Externals F) (candidate : IgnitionCandidate)
    (personality : F) (pts : Points F) : Points F :=
  let pointIndex := fst candidate in
  (* Initial development depends on how deep this particle is in its burning zone *)
  let flameDevelopment :=
    lit 1 10 + lit 5 10 * SmoothStep ext fzero (lit 2 1) (snd candidate) in
  (* Max development: random and depending on number of springs connected *)
  let deltaSizeDueToConnectedSprings :=
    f_of_Z (Z.of_nat (length (rd (mConnectedSpringsBuffer pts) pointIndex)))
    * lit 625 10000 in
  let maxFlameDevelopment :=
    stdmax (lit 25 100 + deltaSizeDueToConnectedSprings + lit 5 10 * personality)
           flameDevelopment in
  let pts :=
    set_mCombustionStateBuffer
      (wr (mCombustionStateBuffer pts) pointIndex
          {| State := Developing_1;
             FlameDevelopment := flameDevelopment;
             MaxFlameDevelopment := maxFlameDevelopment;
             Personality := personality |}) pts in
  (* Add point to vector of burning points, sorted by plane ID *)
  let pts :=
    set_mBurningPoints
      (insert_by_plane (mPlaneIdBuffer pts) (mBurningPoints pts) pointIndex) pts in
  (* Notify *)
  notify OnPointCombustionBegin pts.

Fixpoint IgniteAll (ext : Externals F) (i : nat)
    (candidates : list IgnitionCandidate) (rndPersonality : nat -> F)
    (pts : Points F) : Points F :=
  match candidates with
  | [] => pts
  | c :: candidates =>
      IgniteAll ext (S i) candidates rndPersonality
        (Ignite ext c (rndPersonality i) pts)
  end.

(** "Randomly choose the max number of points we want to ignite now";
    [rndChoose] is the value of [Choose(size_t(6))]. *)
Definition maxPoints (gameParameters : GameParameters F) (rndChoose : nat)
    (burning candidates : nat) : nat :=
  Nat.min
    (Nat.min (4 + rndChoose)
       (if (burning <? MaxBurningParticles gameParameters)%nat
        then (MaxBurningParticles gameParameters - burning)%nat
        else 0%nat))
    candidates.

(** The comparator handed to [std::nth_element]. *)
Definition by_ignition_delta (t1 t2 : IgnitionCandidate) : bool :=
  fgtb (snd t1) (snd t2).

(** [nth_element] stands for [std::nth_element]; the random engine's
    draws are the arguments [rndChoose] and [rndPersonality]. *)
Definition UpdateCombustionLowFrequency `{LibM F}
    (nth_element : (IgnitionCandidate -> IgnitionCandidate -> bool) ->
                   nat -> list IgnitionCandidate -> list IgnitionCandidate)
    (ext : Externals F)
    (pointOffset pointStride : ElementIndex) (dt : F)
    (gameParameters : GameParameters F)
    (rndChoose : nat) (rndPersonality : nat -> F)
    (pts : Points F) : option (Points F) :=
  (* Decay rate - the higher this value, the slower fire consumes materials *)
  let effectiveCombustionDecayRate :=
    lit 90 1 / (CombustionSpeedAdjustment gameParameters * dt) in
  match LowFrequency_loop (Z.to_nat (mShipPointCount pts)) ext gameParameters
          effectiveCombustionDecayRate pointStride pointOffset (pts, []) with
  | None => None
  | Some (pts, mIgnitionCandidates) =>
      (* Now pick candidates for ignition *)
      let maxPoints :=
        maxPoints gameParameters rndChoose (length (mBurningPoints pts))
          (length mIgnitionCandidates) in
      (* Sort top N candidates by ignition temperature delta *)
      let mIgnitionCandidates :=
        nth_element by_ignition_delta maxPoints mIgnitionCandidates in
      (* Ignite these points *)
      Some (IgniteAll ext 0 (take maxPoints mIgnitionCandidates)
              rndPersonality pts)
  end.

(** Modelled from the spec: [SmotherCombustion] is defined in a header
    outside the sources at hand; section 4.5 has a burning or developing
    particle that is underwater or too wet "transition to
    Extinguishing(smothered)". *)
Definition SmotherCombustion (pointIndex : ElementIndex) (pts : Points F) : Points F :=
  set_mCombustionStateBuffer
    (wr (mCombustionStateBuffer pts) pointIndex
        (set_State Extinguishing_Smothered
           (rd (mCombustionStateBuffer pts) pointIndex))) pts.

(** [mBurningPoints.erase(std::find(..., pointIndex))] *)
Fixpoint erase_first (l : list ElementIndex) (pointIndex : ElementIndex)
    : list ElementIndex :=
  match l with
  | [] => []
  | p :: l => if p =? pointIndex then l else p :: erase_first l pointIndex
  end.

Definition update_combustion (f : CombustionState F -> CombustionState F)
    (pointIndex : ElementIndex) (pts : Points F) : Points F :=
  set_mCombustionStateBuffer
    (wr (mCombustionStateBuffer pts) pointIndex
        (f (rd (mCombustionStateBuffer pts) pointIndex))) pts.

(** Heat deposited by a burning point into one neighbour. *)
Definition heat_neighbour (ext : Externals F) (gameParameters : GameParameters F)
    (effectiveCombustionHeat : F) (pointIndex : ElementIndex)
    (pts : Points F) (s : ConnectedSpring) : Points F :=
  let otherEndpointIndex := OtherEndpointIndex s in
  let springDir :=
    normalise ext (vec2f_sub (rd (mPositionBuffer pts) otherEndpointIndex)
                             (rd (mPositionBuffer pts) pointIndex)) in
  let dirAlpha :=
    lit 2 10
    + lit 15 10 * (fone - vec2f_dot springDir (GravityNormalized gameParameters)) in
  set_mTemperatureBuffer
    (wr (mTemperatureBuffer pts) otherEndpointIndex
        (rd (mTemperatureBuffer pts) otherEndpointIndex
         + effectiveCombustionHeat * dirAlpha
           / rd (mMaterialHeatCapacityBuffer pts) otherEndpointIndex)) pts.

(** The development and extinguishing state machine of one point. *)
Definition develop (pointIndex : ElementIndex) (pts : Points F) : Points F :=
  let c := rd (mCombustionStateBuffer pts) pointIndex in
  match State c with
  | Developing_1 =>
      let d := FlameDevelopment c + lit 105 1000 * FlameDevelopment c in
      let c := set_FlameDevelopment d c in
      (* Check whether it's time to transition to the next development phase *)
      let c :=
        if fgtb d (MaxFlameDevelopment c + lit 2 10)
        then set_State Developing_2 c else c in
      update_combustion (fun _ => c) pointIndex pts
  | Developing_2 =>
      let extraFlameDevelopment := FlameDevelopment c - MaxFlameDevelopment c in
      let extraFlameDevelopment :=
        extraFlameDevelopment - lit 2 10 * extraFlameDevelopment in
      let c :=
        set_FlameDevelopment (MaxFlameDevelopment c + extraFlameDevelopment) c in
      (* Check whether it's time to transition to burning *)
      let c :=
        if fltb extraFlameDevelopment (lit 2 100)
        then set_FlameDevelopment (MaxFlameDevelopment c) (set_State Burning c)
        else c in
      update_combustion (fun _ => c) pointIndex pts
  | Extinguishing_Consumed
  | Extinguishing_Smothered =>
      (* Un-develop *)
      let d :=
        match State c with
        | Extinguishing_Consumed =>
            FlameDevelopment c
            - lit 625 10000
              * (MaxFlameDevelopment c - FlameDevelopment c + lit 1 100)
        | _ => FlameDevelopment c - lit 3 10 * FlameDevelopment c
        end in
      let c := set_FlameDevelopment d c in
      (* Check whether we are done now *)
      if fleb d (lit 2 100)
      then
        (* Stop burning *)
        let pts := update_combustion (fun _ => set_State NotBurning c) pointIndex pts in
        (* Remove point from set of burning points *)
        set_mBurningPoints (erase_first (mBurningPoints pts) pointIndex) pts
      else update_combustion (fun _ => c) pointIndex pts
  | Burning
  | NotBurning => pts (* Nothing to do here *)
  end.

(** The body of the high-frequency loop, for one burning point. *)
Definition HighFrequency_point (ext : Externals F) (dt : F)
    (gameParameters : GameParameters F)
    (pts : Points F) (pointIndex : ElementIndex) : Points F :=
  (* Heat generated by combustion in this step *)
  let effectiveCombustionHeat :=
    lit 100 1 * lit 1000 1 * dt * CombustionHeatAdjustment gameParameters in
  let currentState := State (rd (mCombustionStateBuffer pts) pointIndex) in
  let pts :=
    if (StateType_eqb currentState Developing_1
        || StateType_eqb currentState Developing_2
        || StateType_eqb currentState Burning
        || StateType_eqb currentState Extinguishing_Consumed)
       && (IsUnderwater ext (rd (mPositionBuffer pts) pointIndex)
           || fgtb (rd (mWaterBuffer pts) pointIndex)
                   (SmotheringWaterHighWatermark gameParameters))
    then
      (* Transition to Extinguishing - by smothering *)
      SmotherCombustion pointIndex pts
    else if StateType_eqb currentState Burning then
      (* Generate heat at the point itself and at its neighbors *)
      let pts :=
        set_mTemperatureBuffer
          (wr (mTemperatureBuffer pts) pointIndex
              (rd (mMaterialIgnitionTemperatureBuffer pts) pointIndex
               * IgnitionTemperatureAdjustment gameParameters
               * lit 11 10)) pts in
      fold_left
        (heat_neighbour ext gameParameters effectiveCombustionHeat pointIndex)
        (rd (mConnectedSpringsBuffer pts) pointIndex) pts
    else pts in
  (* Run development/extinguishing state machine now *)
  develop pointIndex pts.

(** The loop over the burning points.  The source erases from the vector
    it is iterating over; [visits] is the sequence of points the loop body
    runs on. *)
Definition HighFrequency_visits (ext : Externals F) (dt : F)
    (gameParameters : GameParameters F)
    (visits : list ElementIndex) (pts : Points F) : Points F :=
  fold_left (HighFrequency_point ext dt gameParameters) visits pts.

(** [for (auto const pointIndex : mBurningPoints)]: the iterator is a
    position in the storage of the vector, and the end it is compared with
    is the one taken on entry, so the body runs once for each position the
    vector had then.  [erase] moves the points behind the erased one down
    by one place and leaves the cells from the new end on as they were:
    [cells] is that storage, whose first cells are the vector.  After an
    erase the loop therefore skips the point that took the place of the
    erased one, and on its last rounds reads the cells behind the end. *)
Fixpoint HighFrequency_loop (ext : Externals F) (dt : F)
    (gameParameters : GameParameters F)
    (rounds position : nat) (cells : list ElementIndex) (pts : Points F)
    : Points F :=
  match rounds with
  | O => pts
  | S rounds =>
      let pointIndex := cells !!! position in
      let pts := HighFrequency_point ext dt gameParameters pts pointIndex in
      let cells :=
        mBurningPoints pts ++ drop (length (mBurningPoints pts)) cells in
      HighFrequency_loop ext dt gameParameters rounds (S position) cells pts
  end.

Definition UpdateCombustionHighFrequency (ext : Externals F) (dt : F)
    (gameParameters : GameParameters F) (pts : Points F) : Points F :=
  HighFrequency_loop ext dt gameParameters
    (length (mBurningPoints pts)) 0 (mBurningPoints pts) pts.

(** [OnOrphaned]: a flame in full burn is made tiny; [rnd] is the value
    drawn from [GenerateRandomReal(0.1, 0.14)]. *)
Definition OnOrphaned (rnd : F) (pointElementIndex : ElementIndex)
    (pts : Points F) : Points F :=
  if StateType_eqb (State (rd (mCombustionStateBuffer pts) pointElementIndex)) Burning
  then update_combustion (set_FlameDevelopment rnd) pointElementIndex pts
  else pts.

End PointsCombustion.

(** ** A reference [std::nth_element]

    Sorting the whole range is one way to meet the contract of
    [std::nth_element]; the sample runs use it. *)

Fixpoint insert_sorted {A : Type} (comp : A -> A -> bool) (x : A) (l : list A)
    : list A :=
  match l with
  | [] => [x]
  | a :: l' => if comp x a then x :: l else a :: insert_sorted comp x l'
  end.

Definition nth_element_by_sort {A : Type} (comp : A -> A -> bool) (n : nat)
    (l : list A) : list A :=
  foldr (insert_sorted comp) [] l.

(** ** Sample states, used to run the functions *)

Section Samples.
Context {F : Type} `{FloatOps F}.

Definition sample_material_in : StructuralMaterial F :=
{| Mass := lit 750 1; WaterVolumeFill := lit 1 1; HeatCapacity := lit 449 1;
   IgnitionTemperature := lit 1000 1; WindReceptivity := lit 0 1 |}.

Definition sample_parameters_in : GameParameters F :=
{| WaterDensityAdjustment := lit 1 1;
   CombustionSpeedAdjustment := lit 1 1;
   CombustionHeatAdjustment := lit 1 1;
   IgnitionTemperatureAdjustment := lit 1 1;
   MaxBurningParticles := 1;
   WaterMass := lit 1000 1;
   InitialTemperature := lit 29815 100;
   IgnitionTemperatureHighWatermark := lit 0 1;
   IgnitionTemperatureLowWatermark := lit (-1) 1;
   SmotheringWaterLowWatermark := lit 1 100;
   SmotheringWaterHighWatermark := lit 5 100;
   SmotheringDecayHighWatermark := lit 5 100;
   SmotheringDecayLowWatermark := lit 1 100;
   GravityNormalized := mk_vec2f (lit 0 1) (lit (-1) 1);
   WindSpeedBase := lit 20 1 |}.

(** Three ship points followed by two ephemeral slots; point 1 is pinned
    and carries half a unit of water, slot 3 holds a debris particle born
    at time 1 and slot 4 is free. *)
Definition sample_points_in : Points F :=
{| mMaterialsBuffer := replicate 5 sample_material_in;
   mPositionBuffer := replicate 5 vec2f_zero;
   mVelocityBuffer := replicate 5 vec2f_zero;
   mForceBuffer := replicate 5 vec2f_zero;
   mAugmentedMaterialMassBuffer := replicate 5 (lit 750 1);
   mMassBuffer := replicate 5 (lit 750 1);
   mDecayBuffer := replicate 5 (lit 1 1);
   mIntegrationFactorTimeCoefficientBuffer := replicate 5 (lit 4 10000);
   mIntegrationFactorBuffer := replicate 5 vec2f_zero;
   mMaterialWaterVolumeFillBuffer := replicate 5 (lit 1 1);
   mWaterBuffer := [lit 0 1; lit 1 2; lit 3 1; lit 0 1; lit 0 1];
   mTemperatureBuffer := replicate 5 (lit 29815 100);
   mMaterialHeatCapacityBuffer := replicate 5 (lit 449 1);
   mMaterialIgnitionTemperatureBuffer := replicate 5 (lit 1000 1);
   mCombustionStateBuffer := replicate 5 CombustionState_default;
   mMaterialWindReceptivityBuffer := replicate 5 (lit 0 1);
   mEphemeralTypeBuffer := [ET_None; ET_None; ET_None; Debris; ET_None];
   mEphemeralStartTimeBuffer := [lit 0 1; lit 0 1; lit 0 1; lit 1 1; lit 0 1];
   mEphemeralMaxLifetimeBuffer := replicate 5 (lit 0 1);
   mConnectedSpringsBuffer :=
     [ [ {| SpringIndex := 0; OtherEndpointIndex := 1 |} ];
       [ {| SpringIndex := 0; OtherEndpointIndex := 0 |};
         {| SpringIndex := 1; OtherEndpointIndex := 2 |} ];
       [ {| SpringIndex := 1; OtherEndpointIndex := 1 |} ];
       []; [] ];
   mPlaneIdBuffer := replicate 5 0;
   mIsPinnedBuffer := [false; true; false; false; false];
   mShipPointCount := 3;
   mAllPointCount := 5;
   mFreeEphemeralParticleSearchStartIndex := 3;
   mBurningPoints := [];
   mCurrentNumMechanicalDynamicsIterations := lit 30 1;
   mGameEventHandler := [] |}.

(** The sample pool with both ephemeral slots taken: slot 3 by a debris
    particle born at time 1, slot 4 by a sparkle born at time 2. *)
Definition sample_points_full_in : Points F :=
set_mEphemeralStartTimeBuffer [lit 0 1; lit 0 1; lit 0 1; lit 1 1; lit 2 1]
  (set_mEphemeralTypeBuffer [ET_None; ET_None; ET_None; Debris; Sparkle]
     sample_points_in).

(** The sample ship with dry points 0 and 2 heated to 1200 K and 1500 K,
    above the ignition temperature of 1000 K, and the wet point 1 at
    2000 K. *)
Definition sample_points_hot_in : Points F :=
set_mWaterBuffer [lit 0 1; lit 1 2; lit 0 1; lit 0 1; lit 0 1]
  (set_mTemperatureBuffer
     [lit 1200 1; lit 2000 1; lit 1500 1; lit 29815 100; lit 29815 100]
     sample_points_in).

Definition sample_externals_in : Externals F :=
{| IsUnderwater := fun pos => fltb (vy pos) fzero;
   CalculateIntegrationFactorTimeCoefficient := fun n => fdiv (lit 4 10000) n;
   numeric_limits_max := f_of_Z (2 ^ 128 - 2 ^ 104);
   normalise := fun v => v;
   SmoothStep := fun lo hi x => stdmin (stdmax x lo) hi |}.

Definition sample_allocations_in : list (Allocation F) :=
[ AllocAirBubble vec2f_zero sample_material_in (lit 2 1) 0;
  AllocAirBubble vec2f_zero sample_material_in (lit 3 1) 0;
  AllocDebris vec2f_zero vec2f_zero sample_material_in (lit 4 1) (lit 1 1) 0;
  AllocSparkle vec2f_zero vec2f_zero sample_material_in (lit 5 1) (lit 1 1) 0 ].

End Samples.

(** The samples on binary32. *)
Definition b32 (n d : Z) : Binary32.float32 := lit n d.
Definition sample_material : StructuralMaterial Binary32.float32 := sample_material_in.
Definition sample_parameters : GameParameters Binary32.float32 := sample_parameters_in.
Definition sample_points : Points Binary32.float32 := sample_points_in.
Definition sample_points_full : Points Binary32.float32 := sample_points_full_in.
Definition sample_points_hot : Points Binary32.float32 := sample_points_hot_in.
Definition sample_externals : Externals Binary32.float32 := sample_externals_in.
Definition sample_allocations : list (Allocation Binary32.float32) :=
  sample_allocations_in.

(** Stand-ins for <cmath> on the binary32 sample runs, none of which
    reaches a call to them: each returns a NaN. *)
Definition sample_libm : LibM Binary32.float32 :=
{| sinf := fun _ => S754_nan;
   expf := fun _ => S754_nan;
   powf := fun _ _ => S754_nan |}.

(** The low-frequency pass on the hot sample ship, every point visited,
    with the draw [Choose(6) = 0] and personality 0.5. *)
Definition sample_after_ignition : option (Points Binary32.float32) :=
  UpdateCombustionLowFrequency (H0 := sample_libm) nth_element_by_sort
    sample_externals 0 1 (b32 2 100) sample_parameters 0 (fun _ => b32 1 2)
    sample_points_hot.

Definition sample_points_ignited : Points Binary32.float32 :=
  match sample_after_ignition with
  | Some pts => pts
  | None => sample_points_hot
  end.

(** * OceanSurface (src/Game/OceanSurface.cpp) *)

(** Constants that OceanSurface.cpp takes from headers which are not part
    of the sources at hand (OceanSurface.h, GameParameters.h,
    GameMath.h). *)
Record OceanConstants (F : Type) : Type := {
  SamplesCount : Z;                 (* OceanSurface::SamplesCount *)
  Dx : F;                           (* OceanSurface::Dx *)
  SimulationStepTimeDuration : F;   (* GameParameters::SimulationStepTimeDuration<float> *)
  GravityMagnitude : F;             (* GameParameters::GravityMagnitude *)
  HalfMaxWorldWidth : F;            (* GameParameters::HalfMaxWorldWidth *)
  Pi : F                            (* Pi<float> *)
}.
Arguments SamplesCount {F} _.
Arguments Dx {F} _.
Arguments SimulationStepTimeDuration {F} _.
Arguments GravityMagnitude {F} _.
Arguments HalfMaxWorldWidth {F} _.
Arguments Pi {F} _.

(** What [OceanSurface::Update] reads from its [Wind] argument. *)
Record Wind (F : Type) : Type := {
  GetCurrentWindSpeed : vec2f F;
  GetMaxSpeedMagnitude : F;
  GetBaseSpeedMagnitude : F
}.
Arguments GetCurrentWindSpeed {F} _.
Arguments GetMaxSpeedMagnitude {F} _.
Arguments GetBaseSpeedMagnitude {F} _.

(** Operations of classes defined elsewhere: [vec2f::length] and the
    running average of the wind incisiveness, whose state is kept as the
    list of values it holds. *)
Record OceanExternals (F : Type) : Type := {
  vec2f_length : vec2f F -> F;
  RunningAverage_initial : list F;
  RunningAverage_Update : list F -> F -> F * list F
}.
Arguments vec2f_length {F} _ _.
Arguments RunningAverage_initial {F} _.
Arguments RunningAverage_Update {F} _ _ _.

Record Sample (F : Type) : Type := {
  SampleValue : F;
  SampleValuePlusOneMinusSampleValue : F
}.
Arguments SampleValue {F} _.
Arguments SampleValuePlusOneMinusSampleValue {F} _.

Inductive WavePhaseType : Type := Rise | Fall.
Inductive ReleaseModeType : Type := Automatic | OnCue.

Section OceanConstantsModel.
Context {F : Type} `{FloatOps F}.
Variable c : OceanConstants F.

(** Unary minus. *)
Definition fneg (a : F) : F := fmul (f_of_Z (-1)) a.

Definition SWEHeightFieldOffset : F := f_of_Z 100.
Definition SWEHeightFieldAmplification : F := f_of_Z 50.
Definition SWEWaveGenerationSamples : Z := 1.
Definition SWEBoundaryConditionsSamples : Z := 1.
Definition SWEOuterLayerSamples : Z :=
  SWEWaveGenerationSamples + SWEBoundaryConditionsSamples.
Definition SWETotalSamples : Z :=
  SWEOuterLayerSamples + SamplesCount c + SWEOuterLayerSamples.

#[global] Instance Sample_inhabited : Inhabited (Sample F) :=
  populate {| SampleValue := fzero; SampleValuePlusOneMinusSampleValue := fzero |}.

End OceanConstantsModel.

(** ** The external wave state machine *)

Module SWEWaveStateMachine.

Record t (F : Type) : Type := {
  mSampleIndex : Z;
  mLowHeight : F;
  mCurrentPhaseStartHeight : F;
  mCurrentPhaseTargetHeight : F;
  mCurrentHeight : F;
  mCurrentProgress : F;
  mStartSimulationTime : F;
  mCurrentWavePhase : WavePhaseType;
  mReleaseMode : ReleaseModeType;
  mSmoothingDelay : F
}.
Arguments mSampleIndex {F} _.
Arguments mLowHeight {F} _.
Arguments mCurrentPhaseStartHeight {F} _.
Arguments mCurrentPhaseTargetHeight {F} _.
Arguments mCurrentHeight {F} _.
Arguments mCurrentProgress {F} _.
Arguments mStartSimulationTime {F} _.
Arguments mCurrentWavePhase {F} _.
Arguments mReleaseMode {F} _.
Arguments mSmoothingDelay {F} _.

Section Machine.
Context {F : Type} `{FloatOps F} `{LibM F}.
Variable c : OceanConstants F.
Local Open Scope float_scope.

Definition set_mCurrentProgress (v : F) (m : t F) : t F :=
{| mSampleIndex := mSampleIndex m;
   mLowHeight := mLowHeight m;
   mCurrentPhaseStartHeight := mCurrentPhaseStartHeight m;
   mCurrentPhaseTargetHeight := mCurrentPhaseTargetHeight m;
   mCurrentHeight := mCurrentHeight m;
   mCurrentProgress := v;
   mStartSimulationTime := mStartSimulationTime m;
   mCurrentWavePhase := mCurrentWavePhase m;
   mReleaseMode := mReleaseMode m;
   mSmoothingDelay := mSmoothingDelay m |}.

Definition set_mCurrentHeight (v : F) (m : t F) : t F :=
{| mSampleIndex := mSampleIndex m;
   mLowHeight := mLowHeight m;
   mCurrentPhaseStartHeight := mCurrentPhaseStartHeight m;
   mCurrentPhaseTargetHeight := mCurrentPhaseTargetHeight m;
   mCurrentHeight := v;
   mCurrentProgress := mCurrentProgress m;
   mStartSimulationTime := mStartSimulationTime m;
   mCurrentWavePhase := mCurrentWavePhase m;
   mReleaseMode := mReleaseMode m;
   mSmoothingDelay := mSmoothingDelay m |}.

Definition set_mSmoothingDelay (v : F) (m : t F) : t F :=
{| mSampleIndex := mSampleIndex m;
   mLowHeight := mLowHeight m;
   mCurrentPhaseStartHeight := mCurrentPhaseStartHeight m;
   mCurrentPhaseTargetHeight := mCurrentPhaseTargetHeight m;
   mCurrentHeight := mCurrentHeight m;
   mCurrentProgress := mCurrentProgress m;
   mStartSimulationTime := mStartSimulationTime m;
   mCurrentWavePhase := mCurrentWavePhase m;
   mReleaseMode := mReleaseMode m;
   mSmoothingDelay := v |}.

(** [CalculateSmoothingDelay] reads the target height, the current height
    and the phase.  [abs] and [exp] are taken in single precision. *)
Definition CalculateSmoothingDelay (m : t F) : F :=
  let deltaH :=
    stdmin (fabs (mCurrentPhaseTargetHeight m - mCurrentHeight m))
           (SWEHeightFieldOffset / f_of_Z 5) in
  let delayTicks :=
    match mCurrentWavePhase m with
    | Rise =>
        lit (-1988881) 100000
        + (lit 147403 1000 / lit 6126081 10000000)
          * (fone - expf (lit (-6126081) 10000000 * deltaH))
    | Fall =>
        lit 1220013 1000000
        + (lit 78394 10000 / lit 6485749 10000000)
          * (fone - expf (lit (-6485749) 10000000 * deltaH))
    end in
  let delay := stdmax delayTicks fone * SimulationStepTimeDuration c in
  delay.

(** The constructor: every member but the delay is set first, the delay
    is computed from them. *)
Definition Make (sampleIndex : Z) (startHeight targetHeight : F)
    (releaseMode : ReleaseModeType) (currentSimulationTime : F) : t F :=
  let m :=
    {| mSampleIndex := sampleIndex;
       mLowHeight := startHeight;
       mCurrentPhaseStartHeight := startHeight;
       mCurrentPhaseTargetHeight := targetHeight;
       mCurrentHeight := startHeight;
       mCurrentProgress := fzero;
       mStartSimulationTime := currentSimulationTime;
       mCurrentWavePhase := Rise;
       mReleaseMode := releaseMode;
       mSmoothingDelay := fzero |} in
  set_mSmoothingDelay (CalculateSmoothingDelay m) m.

(** The accessor of OceanSurface.h. *)
Definition GetSampleIndex (m : t F) : Z := mSampleIndex m.

Definition Restart (restartHeight currentSimulationTime : F) (m : t F) : t F :=
  (* Rise in any case, and our new target is the restart height *)
  let m :=
    {| mSampleIndex := mSampleIndex m;
       mLowHeight := mLowHeight m;
       mCurrentPhaseStartHeight := mCurrentHeight m;
       mCurrentPhaseTargetHeight := restartHeight;
       mCurrentHeight := mCurrentHeight m;
       mCurrentProgress := fzero;
       mStartSimulationTime := currentSimulationTime;
       mCurrentWavePhase := Rise;
       mReleaseMode := mReleaseMode m;
       mSmoothingDelay := mSmoothingDelay m |} in
  (* Recalculate delay *)
  set_mSmoothingDelay (CalculateSmoothingDelay m) m.

Definition StartFallPhase (currentSimulationTime : F) (m : t F) : t F :=
  (* assert(mCurrentWavePhase == WavePhaseType::Rise) *)
  let m :=
    {| mSampleIndex := mSampleIndex m;
       mLowHeight := mLowHeight m;
       mCurrentPhaseStartHeight := mCurrentHeight m;
       mCurrentPhaseTargetHeight := mLowHeight m;
       mCurrentHeight := mCurrentHeight m;
       mCurrentProgress := fzero;
       mStartSimulationTime := currentSimulationTime;
       mCurrentWavePhase := Fall;
       mReleaseMode := mReleaseMode m;
       mSmoothingDelay := mSmoothingDelay m |} in
  set_mSmoothingDelay (CalculateSmoothingDelay m) m.

Definition Release (currentSimulationTime : F) (m : t F) : t F :=
  match mCurrentWavePhase m with
  | Rise =>
      (* Start falling *)
      StartFallPhase currentSimulationTime m
  | Fall =>
      (* Stop altogether *)
      set_mCurrentProgress fone m
  end.

(** [Update] returns the new height, or nothing when the wave is over,
    together with the machine it leaves. *)
Definition Update (currentSimulationTime : F) (m : t F) : option F * t F :=
  (* Advance iff we are not done yet *)
  let m :=
    if fltb (mCurrentProgress m) fone
    then set_mCurrentProgress
           ((currentSimulationTime - mStartSimulationTime m) / mSmoothingDelay m) m
    else m in
  (* Calculate sinusoidal progress *)
  let sinProgress :=
    sinf (Pi c / f_of_Z 2 * stdmin (mCurrentProgress m) fone) in
  (* Calculate new height value *)
  let m :=
    set_mCurrentHeight
      (mCurrentPhaseStartHeight m
       + (mCurrentPhaseTargetHeight m - mCurrentPhaseStartHeight m) * sinProgress)
      m in
  (* Check whether it's time to switch phase *)
  if fgeb (mCurrentProgress m) fone then
    match mCurrentWavePhase m with
    | Rise =>
        match mReleaseMode m with
        | Automatic =>
            (* Start falling *)
            let m := StartFallPhase currentSimulationTime m in
            (Some (mCurrentHeight m), m)
        | OnCue => (Some (mCurrentHeight m), m)
        end
    | Fall =>
        (* We're done *)
        (None, m)
    end
  else (Some (mCurrentHeight m), m).

End Machine.
End SWEWaveStateMachine.

(** ** The surface

    The two height buffers and the two velocity buffers are reached only
    through the current and next pointers, which [std::swap] exchanges;
    the model keeps each buffer under the role it has. *)

Module OceanSurface.

Record t (F : Type) : Type := {
  mSamples : list (Sample F);
  mCurrentHeightField : list F;
  mNextHeightField : list F;
  mCurrentVelocityField : list F;
  mNextVelocityField : list F;
  mSWEExternalWaveStateMachine : option (SWEWaveStateMachine.t F);
  mWindIncisivenessRunningAverage : list F
}.
Arguments mSamples {F} _.
Arguments mCurrentHeightField {F} _.
Arguments mNextHeightField {F} _.
Arguments mCurrentVelocityField {F} _.
Arguments mNextVelocityField {F} _.
Arguments mSWEExternalWaveStateMachine {F} _.
Arguments mWindIncisivenessRunningAverage {F} _.

Section Surface.
Context {F : Type} `{FloatOps F} `{LibM F}.
Variable c : OceanConstants F.
Variable ext : OceanExternals F.
Local Open Scope float_scope.

Definition set_mSamples (v : list (Sample F)) (o : t F) : t F :=
{| mSamples := v;
   mCurrentHeightField := mCurrentHeightField o;
   mNextHeightField := mNextHeightField o;
   mCurrentVelocityField := mCurrentVelocityField o;
   mNextVelocityField := mNextVelocityField o;
   mSWEExternalWaveStateMachine := mSWEExternalWaveStateMachine o;
   mWindIncisivenessRunningAverage := mWindIncisivenessRunningAverage o |}.

Definition set_mCurrentHeightField (v : list F) (o : t F) : t F :=
{| mSamples := mSamples o;
   mCurrentHeightField := v;
   mNextHeightField := mNextHeightField o;
   mCurrentVelocityField := mCurrentVelocityField o;
   mNextVelocityField := mNextVelocityField o;
   mSWEExternalWaveStateMachine := mSWEExternalWaveStateMachine o;
   mWindIncisivenessRunningAverage := mWindIncisivenessRunningAverage o |}.

Definition set_mNextHeightField (v : list F) (o : t F) : t F :=
{| mSamples := mSamples o;
   mCurrentHeightField := mCurrentHeightField o;
   mNextHeightField := v;
   mCurrentVelocityField := mCurrentVelocityField o;
   mNextVelocityField := mNextVelocityField o;
   mSWEExternalWaveStateMachine := mSWEExternalWaveStateMachine o;
   mWindIncisivenessRunningAverage := mWindIncisivenessRunningAverage o |}.

Definition set_mNextVelocityField (v : list F) (o : t F) : t F :=
{| mSamples := mSamples o;
   mCurrentHeightField := mCurrentHeightField o;
   mNextHeightField := mNextHeightField o;
   mCurrentVelocityField := mCurrentVelocityField o;
   mNextVelocityField := v;
   mSWEExternalWaveStateMachine := mSWEExternalWaveStateMachine o;
   mWindIncisivenessRunningAverage := mWindIncisivenessRunningAverage o |}.

Definition set_mSWEExternalWaveStateMachine
    (v : option (SWEWaveStateMachine.t F)) (o : t F) : t F :=
{| mSamples := mSamples o;
   mCurrentHeightField := mCurrentHeightField o;
   mNextHeightField := mNextHeightField o;
   mCurrentVelocityField := mCurrentVelocityField o;
   mNextVelocityField := mNextVelocityField o;
   mSWEExternalWaveStateMachine := v;
   mWindIncisivenessRunningAverage := mWindIncisivenessRunningAverage o |}.

Definition set_mWindIncisivenessRunningAverage (v : list F) (o : t F) : t F :=
{| mSamples := mSamples o;
   mCurrentHeightField := mCurrentHeightField o;
   mNextHeightField := mNextHeightField o;
   mCurrentVelocityField := mCurrentVelocityField o;
   mNextVelocityField := mNextVelocityField o;
   mSWEExternalWaveStateMachine := mSWEExternalWaveStateMachine o;
   mWindIncisivenessRunningAverage := v |}.

(** [std::swap] of the current and next pointers of both fields. *)
Definition swap_fields (o : t F) : t F :=
{| mSamples := mSamples o;
   mCurrentHeightField := mNextHeightField o;
   mNextHeightField := mCurrentHeightField o;
   mCurrentVelocityField := mNextVelocityField o;
   mNextVelocityField := mCurrentVelocityField o;
   mSWEExternalWaveStateMachine := mSWEExternalWaveStateMachine o;
   mWindIncisivenessRunningAverage := mWindIncisivenessRunningAverage o |}.

(** A [new T[n]]: [n] cells, each of which the constructor overwrites
    before it is read. *)
Definition new_array {A : Type} `{Inhabited A} (n : Z) : list A :=
  replicate (Z.to_nat n) inhabitant.

(** The constructor. *)
Definition Make : t F :=
  let o :=
    {| mSamples := new_array (SamplesCount c + 1);
       mCurrentHeightField := new_array (SWETotalSamples c + 1);
       mNextHeightField := new_array (SWETotalSamples c + 1);
       mCurrentVelocityField := new_array (SWETotalSamples c + 1);
       mNextVelocityField := new_array (SWETotalSamples c + 1);
       mSWEExternalWaveStateMachine := None;
       mWindIncisivenessRunningAverage := RunningAverage_initial ext |} in
  (* Initialize all values - including extra unused sample *)
  fold_left
    (fun o i =>
       {| mSamples := mSamples o;
          mCurrentHeightField := wr (mCurrentHeightField o) i SWEHeightFieldOffset;
          mNextHeightField := wr (mNextHeightField o) i SWEHeightFieldOffset;
          mCurrentVelocityField := wr (mCurrentVelocityField o) i fzero;
          mNextVelocityField := wr (mNextVelocityField o) i fzero;
          mSWEExternalWaveStateMachine := mSWEExternalWaveStateMachine o;
          mWindIncisivenessRunningAverage := mWindIncisivenessRunningAverage o |})
    (seqZ 0 (SWETotalSamples c + 1)) o.

(** The index computation that both advection loops perform on the cell
    [i] and the velocity [v] found there: the clamped index of the cell one
    time step ago, split into its integral and fractional parts. *)
Definition PreviousCell (i : Z) (v : F) : Z * F :=
  (* Calculate the (fractional) index that this sample had one time step ago *)
  let prevCellIndex :=
    f_of_Z i - v * SimulationStepTimeDuration c / Dx c in
  (* Transform index to ease interpolations, constraining the cell
     to our grid at the same time *)
  let prevCellIndex2 :=
    stdmin (stdmax fzero prevCellIndex) (f_of_Z (SWETotalSamples c - 1)) in
  (* Calculate integral and fractional parts of the index *)
  let prevCellIndexI := FastTruncateInt32 prevCellIndex2 in
  let prevCellIndexF := prevCellIndex2 - f_of_Z prevCellIndexI in
  (prevCellIndexI, prevCellIndexF).

(** The cells that are not boundary condition samples. *)
Definition inner_cells : list Z :=
  seqZ SWEBoundaryConditionsSamples
       (SWETotalSamples c - SWEBoundaryConditionsSamples - SWEBoundaryConditionsSamples).

Definition AdvectHeightField (o : t F) : t F :=
  fold_left
    (fun o i =>
       (* The height field values are at the center of the cell, while
          velocities are at the edges *)
       let v :=
         (rd (mCurrentVelocityField o) i + rd (mCurrentVelocityField o) (i + 1))
         / f_of_Z 2 in
       let '(prevCellIndexI, prevCellIndexF) := PreviousCell i v in
       set_mNextHeightField
         (wr (mNextHeightField o) i
             ((fone - prevCellIndexF) * rd (mCurrentHeightField o) prevCellIndexI
              + prevCellIndexF * rd (mCurrentHeightField o) (prevCellIndexI + 1)))
         o)
    inner_cells o.

Definition AdvectVelocityField (o : t F) : t F :=
  fold_left
    (fun o i =>
       (* Velocity values are at the edges of the cell *)
       let v := rd (mCurrentVelocityField o) i in
       let '(prevCellIndexI, prevCellIndexF) := PreviousCell i v in
       set_mNextVelocityField
         (wr (mNextVelocityField o) i
             ((fone - prevCellIndexF) * rd (mCurrentVelocityField o) prevCellIndexI
              + prevCellIndexF * rd (mCurrentVelocityField o) (prevCellIndexI + 1)))
         o)
    inner_cells o.

Definition UpdateHeightField (o : t F) : t F :=
  fold_left
    (fun o i =>
       set_mNextHeightField
         (wr (mNextHeightField o) i
             (rd (mNextHeightField o) i
              - rd (mNextHeightField o) i
                * (rd (mNextVelocityField o) (i + 1) - rd (mNextVelocityField o) i)
                / Dx c
                * SimulationStepTimeDuration c))
         o)
    inner_cells o.

Definition UpdateVelocityField (o : t F) : t F :=
  fold_left
    (fun o i =>
       set_mNextVelocityField
         (wr (mNextVelocityField o) i
             (rd (mNextVelocityField o) i
              + GravityMagnitude c
                * (rd (mNextHeightField o) (i - 1) - rd (mNextHeightField o) i)
                / Dx c
                * SimulationStepTimeDuration c))
         o)
    inner_cells o.

(** Step 2 of [Update]: the external wave, when there is one, writes its
    height into the current height field. *)
Definition AdvanceWaves (currentSimulationTime : F) (o : t F) : t F :=
  match mSWEExternalWaveStateMachine o with
  | Some m =>
      let '(heightValue, m) :=
        SWEWaveStateMachine.Update c currentSimulationTime m in
      match heightValue with
      | None =>
          (* Done *)
          set_mSWEExternalWaveStateMachine None o
      | Some h =>
          set_mCurrentHeightField
            (wr (mCurrentHeightField o) (SWEWaveStateMachine.GetSampleIndex m) h)
            (set_mSWEExternalWaveStateMachine (Some m) o)
      end
  | None => o
  end.

(** Step 3, last part: reflective boundary conditions.  The velocity at
    the boundary is only asserted to be zero. *)
Definition SetBoundaryConditions (o : t F) : t F :=
  fold_left
    (fun o i =>
       (* Height mirrors height of actual samples *)
       let o :=
         set_mNextHeightField
           (wr (mNextHeightField o) i
               (rd (mNextHeightField o) (i + SWEBoundaryConditionsSamples)))
           o in
       set_mNextHeightField
         (wr (mNextHeightField o) (SWETotalSamples c - 1 - i)
             (rd (mNextHeightField o)
                 (SWETotalSamples c - 1 - SWEBoundaryConditionsSamples - i)))
         o)
    (seqZ 0 SWEBoundaryConditionsSamples) o.

Definition set_SampleValue (v : F) (s : Sample F) : Sample F :=
{| SampleValue := v;
   SampleValuePlusOneMinusSampleValue := SampleValuePlusOneMinusSampleValue s |}.

Definition set_SampleValuePlusOneMinusSampleValue (v : F) (s : Sample F)
    : Sample F :=
{| SampleValue := SampleValue s;
   SampleValuePlusOneMinusSampleValue := v |}.

(** Step 5: the samples that are rendered. *)
Definition GenerateSamples (currentSimulationTime : F) (wind : Wind F)
    (gameParameters : GameParameters F) (o : t F) : t F :=
  let WindGustRippleSpatialFrequency := lit 1 2 in
  let windSpeedAbsoluteMagnitude := vec2f_length ext (GetCurrentWindSpeed wind) in
  let windSpeedGustRelativeAmplitude :=
    GetMaxSpeedMagnitude wind - GetBaseSpeedMagnitude wind in
  let rawWindNormalizedIncisiveness :=
    if feqb windSpeedGustRelativeAmplitude fzero
    then fzero
    else stdmax fzero (windSpeedAbsoluteMagnitude - fabs (GetBaseSpeedMagnitude wind))
         / fabs windSpeedGustRelativeAmplitude in
  let windRipplesTimeFrequency :=
    if fgeb (WindSpeedBase gameParameters) fzero
    then f_of_Z 128
    else f_of_Z (-128) in
  let '(smoothedWindNormalizedIncisiveness, average) :=
    RunningAverage_Update ext (mWindIncisivenessRunningAverage o)
                          rawWindNormalizedIncisiveness in
  let o := set_mWindIncisivenessRunningAverage average o in
  let windRipplesWaveHeight := lit 7 10 * smoothedWindNormalizedIncisiveness in
  (* sample index = 0 *)
  let rippleValue := sinf (fneg currentSimulationTime * windRipplesTimeFrequency) in
  let previousSampleValue :=
    (rd (mCurrentHeightField o) (SWEOuterLayerSamples + 0) - SWEHeightFieldOffset)
    * SWEHeightFieldAmplification
    + rippleValue * windRipplesWaveHeight in
  let samples :=
    wr (mSamples o) 0 (set_SampleValue previousSampleValue (rd (mSamples o) 0)) in
  (* sample index = 1...SamplesCount - 1 *)
  let '(samples, _, _) :=
    fold_left
      (fun '(samples, previousSampleValue, x) i =>
         let rippleValue :=
           sinf (x * WindGustRippleSpatialFrequency
                 - currentSimulationTime * windRipplesTimeFrequency) in
         let sampleValue :=
           (rd (mCurrentHeightField o) (SWEOuterLayerSamples + i) - SWEHeightFieldOffset)
           * SWEHeightFieldAmplification
           + rippleValue * windRipplesWaveHeight in
         let samples := wr samples i (set_SampleValue sampleValue (rd samples i)) in
         let samples :=
           wr samples (i - 1)
              (set_SampleValuePlusOneMinusSampleValue
                 (sampleValue - previousSampleValue) (rd samples (i - 1))) in
         (samples, sampleValue, x + Dx c))
      (seqZ 1 (SamplesCount c - 1))
      (samples, previousSampleValue, Dx c) in
  (* Populate last delta *)
  let samples :=
    wr samples (SamplesCount c - 1)
       (set_SampleValuePlusOneMinusSampleValue fzero
          (rd samples (SamplesCount c - 1))) in
  (* Populate extra sample - same value as last sample *)
  let samples :=
    wr samples (SamplesCount c)
       (set_SampleValue (SampleValue (rd samples (SamplesCount c - 1)))
          (rd samples (SamplesCount c))) in
  let samples :=
    wr samples (SamplesCount c)
       (set_SampleValuePlusOneMinusSampleValue fzero
          (rd samples (SamplesCount c))) in
  set_mSamples samples o.

Definition Update (currentSimulationTime : F) (wind : Wind F)
    (gameParameters : GameParameters F) (o : t F) : t F :=
  (* 2. Advance SWE Waves *)
  let o := AdvanceWaves currentSimulationTime o in
  (* 3. SWE Update: Current -> Next *)
  let o := AdvectHeightField o in
  let o := AdvectVelocityField o in
  let o := UpdateHeightField o in
  let o := UpdateVelocityField o in
  let o := SetBoundaryConditions o in
  (* 4. Swap Buffers *)
  let o := swap_fields o in
  (* 5. Generate samples *)
  GenerateSamples currentSimulationTime wind gameParameters o.

(** [AdjustTo] dereferences the state machine on release: there is no
    result when there is none.  The sample index of a new wave is used as
    it comes out of the truncation. *)
Definition AdjustTo (worldCoordinates : option (vec2f F))
    (currentSimulationTime : F) (o : t F) : option (t F) :=
  match worldCoordinates with
  | Some wc =>
      (* Calculate target height *)
      let targetHeight :=
        (vy wc / SWEHeightFieldAmplification) + SWEHeightFieldOffset in
      match mSWEExternalWaveStateMachine o with
      | None =>
          (* Start advancing a new wave *)
          let sampleIndexF := (vx wc + HalfMaxWorldWidth c) / Dx c in
          let sampleIndexI := FastTruncateInt32 (sampleIndexF + lit 1 2) in
          Some (set_mSWEExternalWaveStateMachine
                  (Some (SWEWaveStateMachine.Make c
                           sampleIndexI
                           (rd (mCurrentHeightField o)
                               (SWEOuterLayerSamples + sampleIndexI))
                           targetHeight
                           OnCue
                           currentSimulationTime))
                  o)
      | Some m =>
          (* Restart currently-advancing wave *)
          Some (set_mSWEExternalWaveStateMachine
                  (Some (SWEWaveStateMachine.Restart c targetHeight
                           currentSimulationTime m))
                  o)
      end
  | None =>
      (* Start release of currently-advancing wave *)
      match mSWEExternalWaveStateMachine o with
      | Some m =>
          Some (set_mSWEExternalWaveStateMachine
                  (Some (SWEWaveStateMachine.Release c currentSimulationTime m))
                  o)
      | None => None
      end
  end.

(** The surfaces that the constructor, [Update] and [AdjustTo] produce. *)
Inductive reachable_surface : t F -> Prop :=
| surface_made : reachable_surface Make
| surface_updated o currentSimulationTime wind gameParameters :
    reachable_surface o ->
    reachable_surface (Update currentSimulationTime wind gameParameters o)
| surface_adjusted o worldCoordinates currentSimulationTime o' :
    reachable_surface o ->
    AdjustTo worldCoordinates currentSimulationTime o = Some o' ->
    reachable_surface o'.

End Surface.
End OceanSurface.

(** ** Sample oceans *)

Section OceanSamples.
Context {F : Type} `{FloatOps F}.

(** Six samples; [Dx] is 0.5, a simulation step lasts 0.02. *)
Definition sample_ocean_constants_in (pi : F) : OceanConstants F :=
{| SamplesCount := 6;
   Dx := lit 1 2;
   SimulationStepTimeDuration := lit 2 100;
   GravityMagnitude := lit 981 100;
   HalfMaxWorldWidth := lit 3 2;
   Pi := pi |}.

Definition sample_ocean_externals_in : OceanExternals F :=
{| vec2f_length := fun v => fabs (vx v);
   RunningAverage_initial := [];
   RunningAverage_Update := fun s x => (x, [x]) |}.

Definition sample_wind_in : Wind F :=
{| GetCurrentWindSpeed := mk_vec2f (lit 20 1) (lit 0 1);
   GetMaxSpeedMagnitude := lit 30 1;
   GetBaseSpeedMagnitude := lit 20 1 |}.

End OceanSamples.

(** The samples on the real numbers. *)
Definition sample_ocean_constants : OceanConstants R := sample_ocean_constants_in PI.
Definition sample_ocean_externals : OceanExternals R := sample_ocean_externals_in.
Definition sample_wind : Wind R := sample_wind_in.
Definition sample_ocean_parameters : GameParameters R := sample_parameters_in.

(** A wave on sample 3, from height 100 toward height 101, started at
    time 0 and released on cue. *)
Definition sample_wave : SWEWaveStateMachine.t R :=
  SWEWaveStateMachine.Make sample_ocean_constants 3 100%R 101%R OnCue 0%R.

Definition sample_surface : OceanSurface.t R :=
  OceanSurface.Make sample_ocean_constants sample_ocean_externals.

(** The sample surface after the user has pulled the water at world
    position (0, 50) at time 0. *)
Definition sample_surface_with_wave : OceanSurface.t R :=
  default sample_surface
    (OceanSurface.AdjustTo sample_ocean_constants
       (Some (mk_vec2f 0%R 50%R)) 0%R sample_surface).

(** The samples on binary32; [Pi<float>] is 13176795 / 2^22. *)
Definition sample_ocean_constants_b32 : OceanConstants Binary32.float32 :=
  sample_ocean_constants_in (lit 13176795 4194304).
Definition sample_ocean_externals_b32 : OceanExternals Binary32.float32 :=
  sample_ocean_externals_in.
Definition sample_wind_b32 : Wind Binary32.float32 := sample_wind_in.

(** The sample surface with the water of cell 4 raised to 101, and the
    same after [n] updates. *)
Definition sample_surface_b32 : OceanSurface.t Binary32.float32 :=
  let o := OceanSurface.Make sample_ocean_constants_b32 sample_ocean_externals_b32 in
  OceanSurface.set_mCurrentHeightField
    (wr (OceanSurface.mCurrentHeightField o) 4 (b32 101 1)) o.

Definition sample_surface_b32_after (n : nat) : OceanSurface.t Binary32.float32 :=
  Nat.iter n
    (OceanSurface.Update (H0 := sample_libm) sample_ocean_constants_b32
       sample_ocean_externals_b32 (b32 0 1) sample_wind_b32 sample_parameters)
    sample_surface_b32.

(** The assertions of the source on a surface and on a previous cell, as
    tests that run. *)
Definition boundary_conditions_hold {F : Type} `{FloatOps F}
    (c : OceanConstants F) (o : OceanSurface.t F) : bool :=
  feqb (rd (OceanSurface.mCurrentHeightField o) 0)
       (rd (OceanSurface.mCurrentHeightField o) 1)
  && feqb (rd (OceanSurface.mCurrentHeightField o) (SWETotalSamples c - 1))
          (rd (OceanSurface.mCurrentHeightField o) (SWETotalSamples c - 2))
  && feqb (rd (OceanSurface.mCurrentVelocityField o) 0) fzero
  && feqb (rd (OceanSurface.mCurrentVelocityField o) (SWETotalSamples c - 1)) fzero.

Definition previous_cell_in_range {F : Type} `{FloatOps F}
    (c : OceanConstants F) (r : Z * F) : bool :=
  (0 <=? fst r) && (fst r <=? SWETotalSamples c - 1)
  && fgeb (snd r) fzero && fltb (snd r) fone.



(** * GameController (src/Game/GameController.cpp)

    The wall clock, the parameter smoothers, the world, the event
    dispatcher and the render context are classes defined outside
    GameController.cpp.  The model keeps the members of the controller
    that decide which of them are called, and records the calls the
    controller makes, in order. *)

Inductive ControllerCall : Type :=
| GameWallClock_Now
| GameWallClock_SetPaused (isPaused : bool)
| ParameterSmoother_Update (smoother : nat)
| World_Update
| GameEventDispatcher_Flush
| UpdateStateMachines
| PublishStats
| SwapRenderBuffersFunction
| InternalRender.

(** The indices of the smoothers, in the order the constructor registers
    them. *)
Definition SpringStiffnessAdjustmentParameterSmoother : nat := 0.
Definition SpringStrengthAdjustmentParameterSmoother : nat := 1.
Definition SeaDepthParameterSmoother : nat := 2.
Definition OceanFloorBumpinessParameterSmoother : nat := 3.
Definition OceanFloorDetailAmplificationParameterSmoother : nat := 4.
Definition FlameSizeAdjustmentParameterSmoother : nat := 5.

Module GameController.

Record t : Type := {
  mIsPaused : bool;
  mIsMoveToolEngaged : bool;
  mParameterSmoothers : list nat;
  (* mRenderStatsOriginTimestampReal != steady_clock::time_point::min() *)
  mRenderStatsStarted : bool;
  mTotalFrameCount : Z;
  mLastFrameCount : Z;
  (* the calls made so far, oldest first *)
  mCalls : list ControllerCall
}.

Definition call (k : ControllerCall) (g : t) : t :=
{| mIsPaused := mIsPaused g;
   mIsMoveToolEngaged := mIsMoveToolEngaged g;
   mParameterSmoothers := mParameterSmoothers g;
   mRenderStatsStarted := mRenderStatsStarted g;
   mTotalFrameCount := mTotalFrameCount g;
   mLastFrameCount := mLastFrameCount g;
   mCalls := mCalls g ++ [k] |}.

(** The frame counters are 64-bit unsigned. *)
Definition wrap64 (z : Z) : Z := z mod 18446744073709551616.

(** The constructor. *)
Definition Make : t :=
{| mIsPaused := false;
   mIsMoveToolEngaged := false;
   mParameterSmoothers :=
     [ SpringStiffnessAdjustmentParameterSmoother;
       SpringStrengthAdjustmentParameterSmoother;
       SeaDepthParameterSmoother;
       OceanFloorBumpinessParameterSmoother;
       OceanFloorDetailAmplificationParameterSmoother;
       FlameSizeAdjustmentParameterSmoother ];
   mRenderStatsStarted := false;
   mTotalFrameCount := 0;
   mLastFrameCount := 0;
   mCalls := [] |}.

Definition InternalUpdate (g : t) : t :=
  let g := call GameWallClock_Now g in
  (* Update parameter smoothers *)
  let g :=
    fold_left (fun g ps => call (ParameterSmoother_Update ps) g)
              (mParameterSmoothers g) g in
  (* Update world *)
  let g := call World_Update g in
  (* Flush events *)
  let g := call GameEventDispatcher_Flush g in
  (* Update state machines *)
  call UpdateStateMachines g.

Definition RunGameIteration (g : t) : t :=
  (* Update simulation: make sure we're not paused *)
  let g :=
    if negb (mIsPaused g) && negb (mIsMoveToolEngaged g)
    then InternalUpdate g
    else g in
  (* Initialize render stats, if needed *)
  let g :=
    if negb (mRenderStatsStarted g)
    then
      call PublishStats
        {| mIsPaused := mIsPaused g;
           mIsMoveToolEngaged := mIsMoveToolEngaged g;
           mParameterSmoothers := mParameterSmoothers g;
           mRenderStatsStarted := true;
           mTotalFrameCount := 0;
           mLastFrameCount := 0;
           mCalls := mCalls g |}
    else g in
  (* Flip the (previous) back buffer onto the screen *)
  let g := call SwapRenderBuffersFunction g in
  (* Render *)
  let g := call InternalRender g in
  (* Update stats *)
  {| mIsPaused := mIsPaused g;
     mIsMoveToolEngaged := mIsMoveToolEngaged g;
     mParameterSmoothers := mParameterSmoothers g;
     mRenderStatsStarted := mRenderStatsStarted g;
     mTotalFrameCount := wrap64 (mTotalFrameCount g + 1);
     mLastFrameCount := wrap64 (mLastFrameCount g + 1);
     mCalls := mCalls g |}.

Definition Update (g : t) : t := InternalUpdate g.

Definition Render (g : t) : t := call InternalRender g.

Definition SetPaused (isPaused : bool) (g : t) : t :=
  (* Freeze time *)
  let g := call (GameWallClock_SetPaused isPaused) g in
  (* Change state *)
  {| mIsPaused := isPaused;
     mIsMoveToolEngaged := mIsMoveToolEngaged g;
     mParameterSmoothers := mParameterSmoothers g;
     mRenderStatsStarted := mRenderStatsStarted g;
     mTotalFrameCount := mTotalFrameCount g;
     mLastFrameCount := mLastFrameCount g;
     mCalls := mCalls g |}.

Definition SetMoveToolEngaged (isEngaged : bool) (g : t) : t :=
{| mIsPaused := mIsPaused g;
   mIsMoveToolEngaged := isEngaged;
   mParameterSmoothers := mParameterSmoothers g;
   mRenderStatsStarted := mRenderStatsStarted g;
   mTotalFrameCount := mTotalFrameCount g;
   mLastFrameCount := mLastFrameCount g;
   mCalls := mCalls g |}.

(** The calls that a step from [g] to [g'] has added. *)
Definition calls_made (g g' : t) : list ControllerCall :=
  drop (length (mCalls g)) (mCalls g').

End GameController.

(** A controller right after construction, and the same once paused. *)
Definition sample_controller : GameController.t := GameController.Make.
Definition sample_controller_paused : GameController.t :=
  GameController.SetPaused true GameController.Make.

(** * Further samples *)

(** The sample surface with the sample wave after its release at time 1,
    that is, falling. *)
Definition sample_wave_falling : SWEWaveStateMachine.t R :=
  SWEWaveStateMachine.Release sample_ocean_constants 1%R sample_wave.

Definition sample_surface_falling : OceanSurface.t R :=
  OceanSurface.set_mSWEExternalWaveStateMachine (Some sample_wave_falling)
    sample_surface.

(** The sample parameters with room for four burning particles. *)
Definition sample_parameters_roomy : GameParameters Binary32.float32 :=
{| WaterDensityAdjustment := WaterDensityAdjustment sample_parameters;
   CombustionSpeedAdjustment := CombustionSpeedAdjustment sample_parameters;
   CombustionHeatAdjustment := CombustionHeatAdjustment sample_parameters;
   IgnitionTemperatureAdjustment := IgnitionTemperatureAdjustment sample_parameters;
   MaxBurningParticles := 4;
   WaterMass := WaterMass sample_parameters;
   InitialTemperature := InitialTemperature sample_parameters;
   IgnitionTemperatureHighWatermark := IgnitionTemperatureHighWatermark sample_parameters;
   IgnitionTemperatureLowWatermark := IgnitionTemperatureLowWatermark sample_parameters;
   SmotheringWaterLowWatermark := SmotheringWaterLowWatermark sample_parameters;
   SmotheringWaterHighWatermark := SmotheringWaterHighWatermark sample_parameters;
   SmotheringDecayHighWatermark := SmotheringDecayHighWatermark sample_parameters;
   SmotheringDecayLowWatermark := SmotheringDecayLowWatermark sample_parameters;
   GravityNormalized := GravityNormalized sample_parameters;
   WindSpeedBase := WindSpeedBase sample_parameters |}.

(** The hot sample ship after a low-frequency pass with room for four
    burning particles, and after a second pass with room for one. *)
Definition sample_after_roomy_ignition : option (Points Binary32.float32) :=
  UpdateCombustionLowFrequency (H0 := sample_libm) nth_element_by_sort
    sample_externals 0 1 (b32 2 100) sample_parameters_roomy 0
    (fun _ => b32 1 2) sample_points_hot.

Definition sample_points_two_ignited : Points Binary32.float32 :=
  default sample_points_hot sample_after_roomy_ignition.

Definition sample_after_lowered_cap : option (Points Binary32.float32) :=
  UpdateCombustionLowFrequency (H0 := sample_libm) nth_element_by_sort
    sample_externals 0 1 (b32 2 100) sample_parameters 0
    (fun _ => b32 1 2) sample_points_two_ignited.

Definition sample_points_lowered_cap : Points Binary32.float32 :=
  default sample_points_two_ignited sample_after_lowered_cap.

(** The hot sample ship with three burning points: point 0 at the end
    of its extinction, points 2 and 3 just ignited. *)
Definition sample_points_three_burning : Points Binary32.float32 :=
  set_mBurningPoints [0; 2; 3]
    (set_mCombustionStateBuffer
       [ {| State := Extinguishing_Consumed; FlameDevelopment := b32 1 100;
            MaxFlameDevelopment := b32 1 2; Personality := b32 1 2 |};
         CombustionState_default;
         {| State := Developing_1; FlameDevelopment := b32 1 10;
            MaxFlameDevelopment := b32 1 2; Personality := b32 1 2 |};
         {| State := Developing_1; FlameDevelopment := b32 1 10;
            MaxFlameDevelopment := b32 1 2; Personality := b32 1 2 |};
         CombustionState_default ]
       sample_points_hot).

(** The hot sample ship with point 0 on plane 1 and the others on plane
    0, and the low-frequency pass on it. *)
Definition sample_points_layered : Points Binary32.float32 :=
  set_mPlaneIdBuffer [1; 0; 0; 0; 0] sample_points_hot.

Definition sample_layered_after_ignition : option (Points Binary32.float32) :=
  UpdateCombustionLowFrequency (H0 := sample_libm) nth_element_by_sort
    sample_externals 0 1 (b32 2 100) sample_parameters_roomy 0
    (fun _ => b32 1 2) sample_points_layered.

Definition sample_points_layered_ignited : Points Binary32.float32 :=
  default sample_points_layered sample_layered_after_ignition.

(** ** ReorderBurningPointsForDepth (src/Game/Points.cpp)

    [std_sort] stands for [std::sort]. *)
Definition ReorderBurningPointsForDepth {F : Type} `{FloatOps F}
    (std_sort : (ElementIndex -> ElementIndex -> bool) ->
                list ElementIndex -> list ElementIndex)
    (pts : Points F) : Points F :=
  set_mBurningPoints
    (std_sort
       (fun p1 p2 => rd (mPlaneIdBuffer pts) p1 <? rd (mPlaneIdBuffer pts) p2)
       (mBurningPoints pts))
    pts.

(** Sorting by insertion is one way to meet the contract of
    [std::sort]. *)
Definition sort_by_insertion {A : Type} (comp : A -> A -> bool) (l : list A)
    : list A :=
  foldr (insert_sorted comp) [] l.

(** ** Sequences of controller operations (src/Game/GameController.cpp) *)

Inductive ControllerOperation : Type :=
| OpRunGameIteration
| OpUpdate
| OpRender
| OpSetPaused (isPaused : bool)
| OpSetMoveToolEngaged (isEngaged : bool).

Definition perform (op : ControllerOperation) (g : GameController.t)
    : GameController.t :=
  match op with
  | OpRunGameIteration => GameController.RunGameIteration g
  | OpUpdate => GameController.Update g
  | OpRender => GameController.Render g
  | OpSetPaused isPaused => GameController.SetPaused isPaused g
  | OpSetMoveToolEngaged isEngaged => GameController.SetMoveToolEngaged isEngaged g
  end.

Definition perform_all (ops : list ControllerOperation) (g : GameController.t)
    : GameController.t :=
  fold_left (fun g op => perform op g) ops g.

(** In a trace of calls, every world update is directly followed by the
    flush of the events and the update of the state machines. *)
Fixpoint flushed_after_update (calls : list ControllerCall) : bool :=
  match calls with
  | [] => true
  | World_Update :: rest =>
      match rest with
      | GameEventDispatcher_Flush :: UpdateStateMachines :: _ =>
          flushed_after_update rest
      | _ => false
      end
  | _ :: rest => flushed_after_update rest
  end.

(** In a trace of calls, every world update comes directly after the wall
    clock has been read and each of [smoothers] updated, in order. *)
Definition smoothed_before_update (smoothers : list nat)
    (calls : list ControllerCall) : Prop :=
  forall before after,
    calls = before ++ World_Update :: after ->
    exists before',
      before = before' ++ GameWallClock_Now :: map ParameterSmoother_Update smoothers.

(** ** The life of a flame (src/Game/Points.cpp) *)

(** The edges of the development state machine that the high-frequency
    pass runs when it does not smother the point. *)
Definition develops_to (s s' : StateType) : bool :=
  match s, s' with
  | NotBurning, NotBurning => true
  | Developing_1, (Developing_1 | Developing_2) => true
  | Developing_2, (Developing_2 | Burning) => true
  | Burning, Burning => true
  | Extinguishing_Consumed, (Extinguishing_Consumed | NotBurning) => true
  | Extinguishing_Smothered, (Extinguishing_Smothered | NotBurning) => true
  | _, _ => false
  end.

(** The edges of the low-frequency pass. *)
Definition ignites_or_consumes (s s' : StateType) : bool :=
  match s, s' with
  | NotBurning, (NotBurning | Developing_1) => true
  | Burning, (Burning | Extinguishing_Consumed) => true
  | Developing_1, Developing_1 => true
  | Developing_2, Developing_2 => true
  | Extinguishing_Consumed, Extinguishing_Consumed => true
  | Extinguishing_Smothered, Extinguishing_Smothered => true
  | _, _ => false
  end.

(** The test for smothering of the high-frequency pass. *)
Definition smothering {F : Type} `{FloatOps F} (ext : Externals F)
    (gameParameters : GameParameters F) (pts : Points F)
    (pointIndex : ElementIndex) : bool :=
  IsUnderwater ext (rd (mPositionBuffer pts) pointIndex)
  || fgtb (rd (mWaterBuffer pts) pointIndex)
          (SmotheringWaterHighWatermark gameParameters).

(** * Properties *)

(** ** Order laws of the two instances *)

Lemma Rltb_true (x y : R) : Real.Rltb x y = true <-> (x < y)%R.
Proof. unfold Real.Rltb. destruct (Rlt_dec x y); split; intros; try lra; congruence. Qed.

Lemma Rltb_false (x y : R) : Real.Rltb x y = false <-> (y <= x)%R.
Proof. unfold Real.Rltb. destruct (Rlt_dec x y); split; intros; try lra; congruence. Qed.

Lemma Rleb_true (x y : R) : Real.Rleb x y = true <-> (x <= y)%R.
Proof. unfold Real.Rleb. destruct (Rle_dec x y); split; intros; try lra; congruence. Qed.

Lemma Rleb_false (x y : R) : Real.Rleb x y = false <-> (y < x)%R.
Proof. unfold Real.Rleb. destruct (Rle_dec x y); split; intros; try lra; congruence. Qed.

#[global] Instance Real_order : FloatOrder R.
Proof.
  split; cbn [fleb fltb feqb Real.ops]; intros.
  - rewrite Rleb_true in *. lra.
  - rewrite Rleb_true in *. lra.
  - rewrite Rleb_true in *. lra.
  - rewrite Rleb_true, Rleb_false in *. lra.
  - rewrite Rltb_true, Rleb_true, Rleb_false. lra.
  - unfold Real.Reqb. destruct (Req_dec_T x x); congruence.
Qed.

Section Binary32Order.

(** [SFcompare] as a rank: a lexicographic key that orders every value
    that is not a NaN. *)
Definition rank (x : spec_float) : option (Z * Z * Z) :=
  match x with
  | S754_nan => None
  | S754_infinity true => Some (-2, 0, 0)
  | S754_finite true m e => Some (-1, - e, - Zpos m)
  | S754_zero _ => Some (0, 0, 0)
  | S754_finite false m e => Some (1, e, Zpos m)
  | S754_infinity false => Some (2, 0, 0)
  end.

Definition lex_compare (a b : Z * Z * Z) : comparison :=
  let '(a1, a2, a3) := a in
  let '(b1, b2, b3) := b in
  match a1 ?= b1 with
  | Eq => match a2 ?= b2 with
          | Eq => a3 ?= b3
          | c => c
          end
  | c => c
  end.

Lemma SFcompare_rank (x y : spec_float) :
  SFcompare x y =
  match rank x, rank y with
  | Some a, Some b => Some (lex_compare a b)
  | _, _ => None
  end.
Proof.
  destruct x as [[|]|[|]| |[|] mx ex], y as [[|]|[|]| |[|] my ey];
    cbn; try reflexivity.
  - rewrite !Z.compare_opp, (Z.compare_antisym ex ey).
    destruct (ex ?= ey) eqn:E; cbn; try reflexivity.
    rewrite Pos.compare_cont_spec; cbn.
    rewrite (Pos.compare_antisym mx my).
    destruct (mx ?= my)%positive; reflexivity.
Qed.

Lemma lex_compare_le_trans (a b c : Z * Z * Z) :
  lex_compare a b <> Gt -> lex_compare b c <> Gt -> lex_compare a c <> Gt.
Proof.
  destruct a as [[a1 a2] a3], b as [[b1 b2] b3], c as [[c1 c2] c3]; cbn.
  destruct (Z.compare_spec a1 b1), (Z.compare_spec b1 c1),
    (Z.compare_spec a2 b2), (Z.compare_spec b2 c2),
    (Z.compare_spec a3 b3), (Z.compare_spec b3 c3);
    try congruence; intros _ _;
    destruct (Z.compare_spec a1 c1); try lia; try congruence;
    destruct (Z.compare_spec a2 c2); try lia; try congruence;
    destruct (Z.compare_spec a3 c3); try lia; congruence.
Qed.

Lemma lex_compare_antisym (a b : Z * Z * Z) :
  lex_compare b a = CompOpp (lex_compare a b).
Proof.
  destruct a as [[a1 a2] a3], b as [[b1 b2] b3]; cbn.
  rewrite (Z.compare_antisym a1 b1), (Z.compare_antisym a2 b2),
    (Z.compare_antisym a3 b3).
  destruct (a1 ?= b1), (a2 ?= b2), (a3 ?= b3); reflexivity.
Qed.

Lemma lex_compare_refl (a : Z * Z * Z) : lex_compare a a = Eq.
Proof. destruct a as [[a1 a2] a3]; cbn. now rewrite !Z.compare_refl. Qed.

Lemma SFleb_rank (x y : spec_float) :
  SFleb x y = true <->
  exists a b, rank x = Some a /\ rank y = Some b /\ lex_compare a b <> Gt.
Proof.
  unfold SFleb. rewrite SFcompare_rank.
  destruct (rank x) as [a|], (rank y) as [b|]; split;
    try (intros (a' & b' & ? & ? & ?); congruence); try congruence.
  - intros Hc. exists a, b. repeat split; trivial.
    destruct (lex_compare a b); congruence.
  - intros (a' & b' & Ha & Hb & Hc). inversion Ha; inversion Hb; subst.
    destruct (lex_compare a' b'); congruence.
Qed.

End Binary32Order.

#[global] Instance Binary32_order : FloatOrder Binary32.float32.
Proof.
  split; cbn [fleb fltb feqb Binary32.ops]; intros.
  - apply SFleb_rank in H as (a & b & Ha & Hb & Hab).
    apply SFleb_rank in H0 as (b' & c & Hb' & Hc & Hbc).
    apply SFleb_rank. exists a, c. repeat split; trivial.
    assert (b' = b) by congruence. subst.
    eapply lex_compare_le_trans; eassumption.
  - apply SFleb_rank in H as (a & b & Ha & Hb & Hab).
    apply SFleb_rank. exists a, a. repeat split; trivial.
    rewrite lex_compare_refl. discriminate.
  - apply SFleb_rank in H as (a & b & Ha & Hb & Hab).
    apply SFleb_rank. exists b, b. repeat split; trivial.
    rewrite lex_compare_refl. discriminate.
  - apply SFleb_rank in H as (a & a' & Ha & Ha' & _).
    apply SFleb_rank in H0 as (b & b' & Hb & Hb' & _).
    apply SFleb_rank. exists b, a. repeat split; trivial.
    intros E. assert (N : SFleb x y = true); [|congruence].
    apply SFleb_rank. exists a, b. repeat split; trivial.
    rewrite lex_compare_antisym, E. discriminate.
  - unfold SFltb, SFleb. rewrite !SFcompare_rank.
    destruct (rank x) as [a|], (rank y) as [b|];
      try (split; [discriminate | intros [? ?]; discriminate]).
    rewrite (lex_compare_antisym a b).
    destruct (lex_compare a b); cbn; split; try tauto; try discriminate;
      intros [? ?]; discriminate.
  - apply SFleb_rank in H as (a & _ & Ha & _ & _).
    unfold SFeqb. rewrite SFcompare_rank, Ha, lex_compare_refl. reflexivity.
Qed.

(** ** Buffer accesses *)

Lemma wr_length {A : Type} (buf : list A) i v : length (wr buf i v) = length buf.
Proof. apply length_insert. Qed.

Lemma rd_wr_eq {A : Type} `{Inhabited A} (buf : list A) i v :
  0 <= i < Z.of_nat (length buf) -> rd (wr buf i v) i = v.
Proof.
  intros Hi. unfold rd, wr. apply list_lookup_total_correct.
  apply list_lookup_insert_eq. lia.
Qed.

Lemma rd_wr_ne {A : Type} `{Inhabited A} (buf : list A) i j v :
  0 <= i -> 0 <= j -> i <> j -> rd (wr buf i v) j = rd buf j.
Proof.
  intros Hi Hj Hij. unfold rd, wr. apply list_lookup_total_insert_ne. lia.
Qed.

Lemma rd_wr {A : Type} `{Inhabited A} (buf : list A) i j v :
  0 <= i -> 0 <= j ->
  rd (wr buf i v) j =
  if decide (i = j /\ i < Z.of_nat (length buf)) then v else rd buf j.
Proof.
  intros Hi Hj. unfold rd, wr. rewrite list_lookup_total_insert.
  destruct (decide (Z.to_nat i = Z.to_nat j /\ (Z.to_nat i < length buf)%nat)),
    (decide (i = j /\ i < Z.of_nat (length buf))); trivial; exfalso; lia.
Qed.

Lemma rd_outside {A : Type} `{Inhabited A} (buf : list A) i :
  Z.of_nat (length buf) <= i -> rd buf i = inhabitant.
Proof.
  intros Hi. unfold rd. rewrite list_lookup_total_alt.
  rewrite lookup_ge_None_2 by lia. reflexivity.
Qed.

Lemma fold_left_preserves {A B C : Type} (g : A -> B -> A) (proj : A -> C) :
  (forall a b, proj (g a b) = proj a) ->
  forall l a, proj (fold_left g l a) = proj a.
Proof.
  intros Hg l. induction l as [|b l IH]; intros a; cbn; [reflexivity|].
  rewrite IH. apply Hg.
Qed.


(** ** Detach *)

Section DetachProperties.
Context {F : Type} `{FloatOps F}.

(** The state the velocity is imprinted on: what the registered detach
    handler returns, or the state itself when none is registered. *)
Definition after_handler (h : option (DetachHandler F)) (i : ElementIndex)
    (o : DetachOptions) (t : F) (gp : GameParameters F) (p : Points F) : Points F :=
  match h with
  | Some handler => handler i (GenerateDebris o) (FireDestroyEvent o) t gp p
  | None => p
  end.

Lemma Detach_unfold h i v o t gp (p : Points F) :
  Detach h i v o t gp p =
  let p1 := after_handler h i o t gp p in
  if rd (mIsPinnedBuffer p1) i then p1
  else set_mVelocityBuffer (wr (mVelocityBuffer p1) i v) p1.
Proof.
  unfold Detach, after_handler. destruct h; cbn zeta;
    match goal with |- context [negb ?b] => destruct b end; reflexivity.
Qed.

(** C7. [Detach] runs the detach handler first and then, on the state the
    handler returns, writes the supplied velocity into the particle's
    velocity cell exactly when the particle is not pinned: an unpinned
    particle ends with the supplied velocity, a pinned one leaves the whole
    state as the handler returned it, no other velocity cell and no other
    buffer is touched, and when the handler leaves pin flags and
    velocities alone a pinned particle's velocity is the one it had before
    the call.  The function is total: it yields a state for every index,
    state and option. *)
Theorem Detach_imprints_velocity_unless_pinned
    (h : option (DetachHandler F)) (i : ElementIndex) (v : vec2f F)
    (o : DetachOptions) (t : F) (gp : GameParameters F) (p : Points F) :
  let p1 := after_handler h i o t gp p in
  let p' := Detach h i v o t gp p in
  0 <= i < Z.of_nat (length (mVelocityBuffer p1)) ->
  (rd (mIsPinnedBuffer p1) i = false ->
     p' = set_mVelocityBuffer (wr (mVelocityBuffer p1) i v) p1 /\
     rd (mVelocityBuffer p') i = v) /\
  (rd (mIsPinnedBuffer p1) i = true -> p' = p1) /\
  (forall j, 0 <= j -> j <> i ->
     rd (mVelocityBuffer p') j = rd (mVelocityBuffer p1) j) /\
  p' = set_mVelocityBuffer (mVelocityBuffer p') p1 /\
  length (mVelocityBuffer p') = length (mVelocityBuffer p1) /\
  (mIsPinnedBuffer p1 = mIsPinnedBuffer p ->
   mVelocityBuffer p1 = mVelocityBuffer p ->
   rd (mIsPinnedBuffer p) i = true ->
   mVelocityBuffer p' = mVelocityBuffer p).
Proof.
  intros p1 p' Hi. subst p'. rewrite Detach_unfold. fold p1. cbn zeta.
  destruct (rd (mIsPinnedBuffer p1) i) eqn:Hpin.
  - repeat split; try discriminate; try reflexivity; auto.
    destruct p1; reflexivity.
  - repeat split; try discriminate; cbn.
    + apply rd_wr_eq; assumption.
    + intros j Hj Hne. apply rd_wr_ne; lia.
    + apply wr_length.
    + intros Hp _ Hpin'. rewrite Hp in Hpin. congruence.
Qed.

End DetachProperties.

Lemma Detach_imprints_velocity_witness :
  let v := mk_vec2f (b32 3 1) (b32 4 1) in
  let o := {| GenerateDebris := true; FireDestroyEvent := true |} in
  rd (mVelocityBuffer (Detach None 2 v o (b32 0 1) sample_parameters sample_points)) 2 = v /\
  Detach None 1 v o (b32 0 1) sample_parameters sample_points = sample_points.
Proof.
  cbv zeta. split.
  - refine (proj2 (proj1 (Detach_imprints_velocity_unless_pinned
      None 2 _ _ (b32 0 1) sample_parameters sample_points _) _)).
    + cbn. lia.
    + reflexivity.
  - refine (proj1 (proj2 (Detach_imprints_velocity_unless_pinned
      None 1 _ _ (b32 0 1) sample_parameters sample_points _)) _).
    + cbn. lia.
    + reflexivity.
Defined.

(** ** UpdateMasses *)

Section UpdateMassesProperties.
Context {F : Type} `{FloatOps F}.

Local Open Scope float_scope.

(** The mass the source computes for particle [i] from the state [p]. *)
Definition mass_of (gp : GameParameters F) (p : Points F) (i : ElementIndex) : F :=
  rd (mAugmentedMaterialMassBuffer p) i
  + stdmin (rd (mWaterBuffer p) i) (rd (mMaterialWaterVolumeFillBuffer p) i)
    * (WaterMass gp * WaterDensityAdjustment gp).

Definition integration_factor_of (gp : GameParameters F) (p : Points F)
    (i : ElementIndex) : vec2f F :=
  mk_vec2f (rd (mIntegrationFactorTimeCoefficientBuffer p) i / mass_of gp p i)
           (rd (mIntegrationFactorTimeCoefficientBuffer p) i / mass_of gp p i).

Definition masses_loop (gp : GameParameters F) (l : list ElementIndex)
    (p : Points F) : Points F :=
  fold_left (UpdateMasses_point (WaterMass gp * WaterDensityAdjustment gp)) l p.

Lemma masses_loop_frame gp l : forall p,
  masses_loop gp l p =
    set_mIntegrationFactorBuffer (mIntegrationFactorBuffer (masses_loop gp l p))
      (set_mMassBuffer (mMassBuffer (masses_loop gp l p)) p) /\
  length (mMassBuffer (masses_loop gp l p)) = length (mMassBuffer p) /\
  length (mIntegrationFactorBuffer (masses_loop gp l p)) =
    length (mIntegrationFactorBuffer p).
Proof.
  induction l as [|a l IH]; intros p.
  - repeat split. destruct p; reflexivity.
  - change (masses_loop gp (a :: l) p) with
      (masses_loop gp l
         (UpdateMasses_point (WaterMass gp * WaterDensityAdjustment gp) p a)).
    destruct (IH (UpdateMasses_point (WaterMass gp * WaterDensityAdjustment gp) p a))
      as (E & L1 & L2).
    repeat split.
    + rewrite E at 1. reflexivity.
    + rewrite L1. cbn. apply wr_length.
    + rewrite L2. cbn. apply wr_length.
Qed.

Lemma masses_loop_values gp l : forall p,
  NoDup l ->
  (forall i, i ∈ l ->
     0 <= i < Z.of_nat (length (mMassBuffer p)) /\
     0 <= i < Z.of_nat (length (mIntegrationFactorBuffer p))) ->
  forall i, 0 <= i ->
    (i ∈ l ->
       rd (mMassBuffer (masses_loop gp l p)) i = mass_of gp p i /\
       rd (mIntegrationFactorBuffer (masses_loop gp l p)) i =
         integration_factor_of gp p i) /\
    (i ∉ l ->
       rd (mMassBuffer (masses_loop gp l p)) i = rd (mMassBuffer p) i /\
       rd (mIntegrationFactorBuffer (masses_loop gp l p)) i =
         rd (mIntegrationFactorBuffer p) i).
Proof.
  induction l as [|a l IH]; intros p Hnd Hin i Hi.
  - split; [intros Hx; inversion Hx | intros _; split; reflexivity].
  - apply NoDup_cons in Hnd as [Hal Hnd].
    set (p1 := UpdateMasses_point (WaterMass gp * WaterDensityAdjustment gp) p a).
    assert (Ha : 0 <= a < Z.of_nat (length (mMassBuffer p)) /\
                 0 <= a < Z.of_nat (length (mIntegrationFactorBuffer p)))
      by (apply Hin; left).
    assert (Hin1 : forall j, j ∈ l ->
        0 <= j < Z.of_nat (length (mMassBuffer p1)) /\
        0 <= j < Z.of_nat (length (mIntegrationFactorBuffer p1))).
    { intros j Hj. subst p1; cbn. rewrite !wr_length. apply Hin. now right. }
    specialize (IH p1 Hnd Hin1 i Hi).
    change (masses_loop gp (a :: l) p) with (masses_loop gp l p1).
    destruct IH as [IHin IHout]. split.
    + intros Hx. apply elem_of_cons in Hx as [-> | Hx].
      * destruct (IHout Hal) as [E1 E2]. rewrite E1, E2. subst p1; cbn.
        split; apply rd_wr_eq; rewrite ?wr_length; tauto.
      * destruct (IHin Hx) as [E1 E2]. rewrite E1, E2. split; reflexivity.
    + intros Hx. apply not_elem_of_cons in Hx as [Hne Hx].
      destruct (IHout Hx) as [E1 E2]. rewrite E1, E2. subst p1; cbn.
      split; apply rd_wr_ne; lia.
Qed.

(** C6. [UpdateMasses] gives every particle [i] of the container the mass
    augmented-material-mass(i) + min(water(i), water-volume-fill(i)) *
    (WaterMass * WaterDensityAdjustment) and the integration factor
    (coefficient(i) / that mass) in both components; cells past the
    container's element count keep their values, and the resulting state
    differs from the initial one in the mass buffer and the integration
    factor buffer only. *)
Theorem UpdateMasses_recomputes_mass_and_integration_factor
    (gp : GameParameters F) (p : Points F) :
  mAllPointCount p <= Z.of_nat (length (mMassBuffer p)) ->
  mAllPointCount p <= Z.of_nat (length (mIntegrationFactorBuffer p)) ->
  let p' := UpdateMasses gp p in
  (forall i, 0 <= i < mAllPointCount p ->
     rd (mMassBuffer p') i =
       rd (mAugmentedMaterialMassBuffer p) i
       + stdmin (rd (mWaterBuffer p) i) (rd (mMaterialWaterVolumeFillBuffer p) i)
         * (WaterMass gp * WaterDensityAdjustment gp) /\
     rd (mIntegrationFactorBuffer p') i =
       mk_vec2f
         (rd (mIntegrationFactorTimeCoefficientBuffer p) i / rd (mMassBuffer p') i)
         (rd (mIntegrationFactorTimeCoefficientBuffer p) i / rd (mMassBuffer p') i)) /\
  (forall i, mAllPointCount p <= i -> 0 <= i ->
     rd (mMassBuffer p') i = rd (mMassBuffer p) i /\
     rd (mIntegrationFactorBuffer p') i = rd (mIntegrationFactorBuffer p) i) /\
  p' = set_mIntegrationFactorBuffer (mIntegrationFactorBuffer p')
         (set_mMassBuffer (mMassBuffer p') p) /\
  length (mMassBuffer p') = length (mMassBuffer p) /\
  length (mIntegrationFactorBuffer p') = length (mIntegrationFactorBuffer p).
Proof.
  intros Hm Hf p'.
  assert (Hvals := masses_loop_values gp (all_elements p) p
                     (NoDup_seqZ 0 (mAllPointCount p))).
  assert (Hrange : forall i, i ∈ all_elements p ->
      0 <= i < Z.of_nat (length (mMassBuffer p)) /\
      0 <= i < Z.of_nat (length (mIntegrationFactorBuffer p))).
  { intros i Hi. apply elem_of_seqZ in Hi. lia. }
  specialize (Hvals Hrange).
  destruct (masses_loop_frame gp (all_elements p) p) as (E & L1 & L2).
  change (masses_loop gp (all_elements p) p) with p' in *.
  repeat split; trivial.
  - apply (Hvals i); [lia|]. apply elem_of_seqZ. lia.
  - destruct (proj1 (Hvals i ltac:(lia))) as [E1 E2].
    { apply elem_of_seqZ. lia. }
    rewrite E2, E1. reflexivity.
  - apply (Hvals i); trivial. intros Hx. apply elem_of_seqZ in Hx. lia.
  - apply (Hvals i); trivial. intros Hx. apply elem_of_seqZ in Hx. lia.
Qed.

End UpdateMassesProperties.

(** On the sample state: point 1 holds 0.5 of water under a fill of 1, so
    its mass is 750 + 0.5 * 1000, and point 2 holds 3 under a fill of 1,
    so its mass is 750 + 1 * 1000. *)
Lemma UpdateMasses_witness :
  rd (mMassBuffer (UpdateMasses sample_parameters sample_points)) 1 = b32 1250 1 /\
  rd (mMassBuffer (UpdateMasses sample_parameters sample_points)) 2 = b32 1750 1.
Proof.
  pose proof (UpdateMasses_recomputes_mass_and_integration_factor
                sample_parameters sample_points) as W.
  cbv zeta in W.
  destruct W as (W & _); [cbn; lia | cbn; lia |].
  split.
  - rewrite (proj1 (W 1 ltac:(cbn; lia))). vm_compute. reflexivity.
  - rewrite (proj1 (W 2 ltac:(cbn; lia))). vm_compute. reflexivity.
Defined.

(** ** The ephemeral particle allocator *)

Section EphemeralProperties.
Context {F : Type} `{FloatOps F}.
Implicit Types (pts : Points F) (p q t : ElementIndex) (now life : F).

(** A well-formed pool: the search start index lies in the ephemeral
    region (the assertion at the head of the allocator), every index is a
    32-bit index other than the none-index, and the two buffers the
    allocator reads cover the region. *)
Definition pool_ok (pts : Points F) : Prop :=
  0 <= mShipPointCount pts /\
  mShipPointCount pts <= mFreeEphemeralParticleSearchStartIndex pts /\
  mFreeEphemeralParticleSearchStartIndex pts < mAllPointCount pts /\
  mAllPointCount pts <= NoneElementIndex /\
  mAllPointCount pts <= Z.of_nat (length (mEphemeralTypeBuffer pts)) /\
  mAllPointCount pts <= Z.of_nat (length (mEphemeralStartTimeBuffer pts)).

Definition in_region (pts : Points F) (q : ElementIndex) : Prop :=
  mShipPointCount pts <= q < mAllPointCount pts.

Definition is_free (pts : Points F) (q : ElementIndex) : Prop :=
  rd (mEphemeralTypeBuffer pts) q = ET_None.

(** [now - start_time] as the allocator computes it. *)
Definition lifetime (now : F) (pts : Points F) (q : ElementIndex) : F :=
  (now - rd (mEphemeralStartTimeBuffer pts) q)%flt.

(** The order in which the loop visits the region: from the search start
    up to the end, then from the first ephemeral slot up to the start. *)
Definition scan_order (pts : Points F) : list ElementIndex :=
  seqZ (mFreeEphemeralParticleSearchStartIndex pts)
       (mAllPointCount pts - mFreeEphemeralParticleSearchStartIndex pts)
  ++ seqZ (mShipPointCount pts)
       (mFreeEphemeralParticleSearchStartIndex pts - mShipPointCount pts).

(** [linked p rest t]: advancing from [p] walks through [rest] and then
    reaches [t]. *)
Fixpoint linked (pts : Points F) (p : ElementIndex) (rest : list ElementIndex)
    (t : ElementIndex) : Prop :=
  match rest with
  | [] => advance pts p = t
  | q :: rest => advance pts p = q /\ linked pts q rest t
  end.

Definition free_test (pts : Points F) (q : ElementIndex) : bool :=
  EphemeralType_eqb ET_None (rd (mEphemeralTypeBuffer pts) q).

Fixpoint first_free (pts : Points F) (l : list ElementIndex) : option ElementIndex :=
  match l with
  | [] => None
  | q :: l => if free_test pts q then Some q else first_free pts l
  end.

(** One turn of the "is it the oldest" bookkeeping. *)
Definition older (now : F) (pts : Points F) (acc : ElementIndex * F)
    (q : ElementIndex) : ElementIndex * F :=
  if fgeb (lifetime now pts q) (snd acc) then (q, lifetime now pts q) else acc.

Lemma free_test_true pts q : free_test pts q = true <-> is_free pts q.
Proof.
  unfold free_test, is_free. destruct (rd (mEphemeralTypeBuffer pts) q); cbn;
    split; congruence.
Qed.

Lemma linked_app pts r1 : forall p q r2 t,
  linked pts p r1 q -> linked pts q r2 t -> linked pts p (r1 ++ q :: r2) t.
Proof.
  induction r1 as [|a r1 IH]; cbn; intros p q r2 t H1 H2.
  - split; assumption.
  - destruct H1 as [H1 H1']. split; [assumption|]. eapply IH; eassumption.
Qed.

Lemma seqZ_succ (m : Z) (n : nat) :
  seqZ m (Z.of_nat (S n)) = m :: seqZ (m + 1) (Z.of_nat n).
Proof.
  rewrite seqZ_cons by lia. f_equal. f_equal; lia.
Qed.

Lemma advance_inside pts p :
  0 <= p -> p + 1 < mAllPointCount pts -> mAllPointCount pts <= NoneElementIndex ->
  advance pts p = p + 1.
Proof.
  intros H0 H1 H2. unfold advance, wrap32, NoneElementIndex in *.
  rewrite Z.mod_small by lia.
  destruct (Z.geb_spec (p + 1) (mAllPointCount pts)); lia.
Qed.

Lemma advance_last pts p :
  0 <= p -> p + 1 = mAllPointCount pts -> mAllPointCount pts <= NoneElementIndex ->
  advance pts p = mShipPointCount pts.
Proof.
  intros H0 H1 H2. unfold advance, wrap32, NoneElementIndex in *.
  rewrite Z.mod_small by lia.
  destruct (Z.geb_spec (p + 1) (mAllPointCount pts)); lia.
Qed.

Lemma linked_run pts (n : nat) : forall p t,
  0 <= p -> p + Z.of_nat n + 1 <= mAllPointCount pts ->
  mAllPointCount pts <= NoneElementIndex ->
  advance pts (p + Z.of_nat n) = t ->
  linked pts p (seqZ (p + 1) (Z.of_nat n)) t.
Proof.
  induction n as [|n IH]; intros p t H0 H1 H2 Ht.
  - cbn. rewrite Z.add_0_r in Ht. exact Ht.
  - rewrite seqZ_succ. cbn [linked]. split.
    + apply advance_inside; lia.
    + apply IH; try lia. rewrite <- Ht. f_equal. lia.
Qed.

Lemma scan_order_linked pts :
  pool_ok pts ->
  exists rest,
    scan_order pts = mFreeEphemeralParticleSearchStartIndex pts :: rest /\
    linked pts (mFreeEphemeralParticleSearchStartIndex pts) rest
      (mFreeEphemeralParticleSearchStartIndex pts) /\
    Forall (fun q => q <> mFreeEphemeralParticleSearchStartIndex pts) rest.
Proof.
  intros (H0 & H1 & H2 & H3 & _). unfold scan_order.
  set (s := mFreeEphemeralParticleSearchStartIndex pts) in *.
  set (S0 := mShipPointCount pts) in *. set (A := mAllPointCount pts) in *.
  exists (seqZ (s + 1) (A - s - 1) ++ seqZ S0 (s - S0)).
  split; [|split].
  - rewrite (seqZ_cons s (A - s)) by lia. reflexivity.
  - destruct (Z.eq_dec s S0) as [E|NE].
    + replace (s - S0) with 0 by lia. cbn. rewrite app_nil_r.
      replace (A - s - 1) with (Z.of_nat (Z.to_nat (A - s - 1))) by lia.
      apply linked_run; try lia.
      rewrite E. apply advance_last; lia.
    + rewrite (seqZ_cons S0 (s - S0)) by lia.
      apply linked_app.
      * replace (A - s - 1) with (Z.of_nat (Z.to_nat (A - s - 1))) by lia.
        apply linked_run; try lia. apply advance_last; lia.
      * replace (Z.succ S0) with (S0 + 1) by lia.
        replace (Z.pred (s - S0)) with (Z.of_nat (Z.to_nat (s - S0 - 1))) by lia.
        apply linked_run; try lia. rewrite advance_inside; lia.
  - apply Forall_forall. intros q Hq Hq'. subst q.
    apply elem_of_app in Hq as [Hq|Hq]; apply elem_of_seqZ in Hq; lia.
Qed.

Lemma scan_order_region pts q :
  pool_ok pts -> (q ∈ scan_order pts <-> in_region pts q).
Proof.
  intros (H0 & H1 & H2 & H3 & _). unfold scan_order, in_region.
  rewrite elem_of_app, !elem_of_seqZ. lia.
Qed.

Lemma scan_order_length pts :
  pool_ok pts ->
  length (scan_order pts) = Z.to_nat (mAllPointCount pts - mShipPointCount pts).
Proof.
  intros (H0 & H1 & H2 & H3 & _). unfold scan_order.
  rewrite length_app, !length_seqZ. lia.
Qed.

Lemma loop_step budget now pts p o life :
  FindFreeEphemeralParticle_loop (S budget) now pts p o life =
  if free_test pts p then Some (Found p)
  else
    let acc := older now pts (o, life) p in
    if advance pts p =? mFreeEphemeralParticleSearchStartIndex pts
    then Some (WentAround (fst acc))
    else FindFreeEphemeralParticle_loop budget now pts (advance pts p)
           (fst acc) (snd acc).
Proof.
  cbn [FindFreeEphemeralParticle_loop]. unfold free_test, older, lifetime.
  destruct (EphemeralType_eqb _ _); [reflexivity|]. cbn [snd].
  destruct (fgeb _ life); reflexivity.
Qed.

(** The loop, read off the visiting order. *)
Lemma loop_spec now pts rest : forall p o life,
  linked pts p rest (mFreeEphemeralParticleSearchStartIndex pts) ->
  Forall (fun q => q <> mFreeEphemeralParticleSearchStartIndex pts) rest ->
  FindFreeEphemeralParticle_loop (S (length rest)) now pts p o life =
  match first_free pts (p :: rest) with
  | Some q => Some (Found q)
  | None => Some (WentAround (fst (fold_left (older now pts) (p :: rest) (o, life))))
  end.
Proof.
  induction rest as [|q rest IH]; intros p o life Hl Hne;
    rewrite loop_step; cbn [first_free fold_left];
    destruct (free_test pts p); try reflexivity; cbn zeta.
  - cbn in Hl. rewrite Hl, Z.eqb_refl. reflexivity.
  - destruct Hl as [Hq Hl]. apply Forall_cons in Hne as [Hqs Hne].
    rewrite Hq.
    destruct (Z.eqb_spec q (mFreeEphemeralParticleSearchStartIndex pts));
      [contradiction|].
    cbn [length]. rewrite (IH q _ _ Hl Hne).
    destruct (older now pts (o, life) p) as [o' life']. reflexivity.
Qed.

Lemma first_free_some pts l q :
  first_free pts l = Some q -> q ∈ l /\ is_free pts q.
Proof.
  induction l as [|a l IH]; cbn [first_free]; [discriminate|].
  destruct (free_test pts a) eqn:E.
  - intros Hq. inversion Hq; subst. split; [left | now apply free_test_true].
  - intros Hq. destruct (IH Hq). split; [now right | assumption].
Qed.

Lemma first_free_none pts l q :
  first_free pts l = None -> q ∈ l -> ~ is_free pts q.
Proof.
  induction l as [|a l IH]; cbn [first_free]; intros Hn Hq; [inversion Hq|].
  destruct (free_test pts a) eqn:E; [discriminate|].
  apply elem_of_cons in Hq as [-> | Hq]; [|now apply IH].
  rewrite <- free_test_true. congruence.
Qed.

Lemma FindFreeEphemeralParticle_spec now force pts :
  pool_ok pts ->
  FindFreeEphemeralParticle now force pts =
  match first_free pts (scan_order pts) with
  | Some q => Some (q, start_after q pts)
  | None =>
      if negb force then Some (NoneElementIndex, pts)
      else
        let o := fst (fold_left (older now pts) (scan_order pts)
                        (NoneElementIndex, fzero)) in
        Some (o, start_after o pts)
  end.
Proof.
  intros Hok. destruct (scan_order_linked pts Hok) as (rest & E & Hl & Hne).
  unfold FindFreeEphemeralParticle.
  rewrite <- (scan_order_length pts Hok), E. cbn [length].
  rewrite (loop_spec now pts rest _ _ _ Hl Hne).
  destruct (first_free pts _); reflexivity.
Qed.

End EphemeralProperties.

Section EphemeralOrderProperties.
Context {F : Type} `{FloatOps F} `{!FloatOrder F}.
Implicit Types (pts : Points F) (p q t : ElementIndex) (now life : F).

(** What the "oldest" bookkeeping knows after the slots [visited]. *)
Definition oldest_inv now pts (visited : list ElementIndex)
    (acc : ElementIndex * F) : Prop :=
  (visited = [] /\ acc = (NoneElementIndex, fzero)) \/
  (fst acc ∈ visited /\ snd acc = lifetime now pts (fst acc) /\
   forall q, q ∈ visited -> fleb (lifetime now pts q) (snd acc) = true).

Lemma older_inv now pts visited acc q :
  oldest_inv now pts visited acc ->
  fleb fzero (lifetime now pts q) = true ->
  oldest_inv now pts (visited ++ [q]) (older now pts acc q).
Proof.
  intros Hinv Hq. right. unfold older, fgeb.
  assert (Hqq : fleb (lifetime now pts q) (lifetime now pts q) = true)
    by (eapply fleb_ordered_r; eassumption).
  destruct Hinv as [[-> ->] | (Ho & Hl & Hmax)].
  - cbn [snd]. rewrite Hq. cbn. repeat split.
    + apply list_elem_of_singleton. reflexivity.
    + intros q' Hq'. apply list_elem_of_singleton in Hq'. now subst.
  - destruct (fleb (snd acc) (lifetime now pts q)) eqn:E; cbn [fst snd].
    + repeat split.
      * apply elem_of_app. right. apply list_elem_of_singleton. reflexivity.
      * intros q' Hq'. apply elem_of_app in Hq' as [Hq'|Hq'].
        -- eapply fleb_trans; [apply Hmax, Hq' | exact E].
        -- apply list_elem_of_singleton in Hq'. now subst.
    + repeat split; trivial.
      * apply elem_of_app. now left.
      * intros q' Hq'. apply elem_of_app in Hq' as [Hq'|Hq'].
        -- now apply Hmax.
        -- apply list_elem_of_singleton in Hq'. subst q'.
           apply fleb_total; trivial.
           pose proof (Hmax _ Ho) as Hoo. rewrite <- Hl in Hoo. exact Hoo.
Qed.

Lemma oldest_fold now pts l : forall visited acc,
  oldest_inv now pts visited acc ->
  (forall q, q ∈ l -> fleb fzero (lifetime now pts q) = true) ->
  oldest_inv now pts (visited ++ l) (fold_left (older now pts) l acc).
Proof.
  induction l as [|a l IH]; intros visited acc Hinv Hl; cbn [fold_left].
  - now rewrite app_nil_r.
  - replace (visited ++ a :: l) with ((visited ++ [a]) ++ l)
      by (now rewrite <- app_assoc).
    apply IH.
    + apply older_inv; trivial. apply Hl. left.
    + intros q Hq. apply Hl. now right.
Qed.

Lemma StoreAttributes_frame (ext : Externals F) p pos v m fill temp wind ty now life pl pts :
  let pts' := StoreAttributes ext p pos v m fill temp wind ty now life pl pts in
  mEphemeralTypeBuffer pts' = wr (mEphemeralTypeBuffer pts) p ty /\
  mEphemeralStartTimeBuffer pts' = wr (mEphemeralStartTimeBuffer pts) p now /\
  mShipPointCount pts' = mShipPointCount pts /\
  mAllPointCount pts' = mAllPointCount pts /\
  mFreeEphemeralParticleSearchStartIndex pts' =
    mFreeEphemeralParticleSearchStartIndex pts.
Proof. repeat split. Qed.

(** C3. On a well-formed pool (search start inside the ephemeral region,
    as the allocator asserts): when some slot of the region is free the
    allocator returns a free slot of the region; when none is free and
    [force] is false it returns the none-index and leaves the state as it
    was, and the air-bubble creator then returns the state unchanged; when
    none is free and [force] is true, and no stored start time lies after
    [now], it returns a slot of the region whose [now - start_time] is
    greater than or equal to that of every slot of the region, and the
    debris creator overwrites that slot with the new particle. *)
Theorem FindFreeEphemeralParticle_allocation now (force : bool) pts :
  pool_ok pts ->
  ((exists q, in_region pts q /\ is_free pts q) ->
     exists p, FindFreeEphemeralParticle now force pts = Some (p, start_after p pts) /\
               in_region pts p /\ is_free pts p) /\
  ((forall q, in_region pts q -> ~ is_free pts q) ->
     (force = false ->
        FindFreeEphemeralParticle now force pts = Some (NoneElementIndex, pts) /\
        forall ext gp pos m pl,
          CreateEphemeralParticleAirBubble ext gp pos m now pl pts = Some pts) /\
     (force = true ->
        (forall q, in_region pts q -> fleb fzero (lifetime now pts q) = true) ->
        exists p,
          FindFreeEphemeralParticle now force pts = Some (p, start_after p pts) /\
          in_region pts p /\
          (forall q, in_region pts q ->
             fleb (lifetime now pts q) (lifetime now pts p) = true) /\
          forall ext gp pos v m life pl,
            exists pts',
              CreateEphemeralParticleDebris ext gp pos v m now life pl pts = Some pts' /\
              rd (mEphemeralTypeBuffer pts') p = Debris /\
              rd (mEphemeralStartTimeBuffer pts') p = now)).
Proof.
  intros Hok. pose proof (FindFreeEphemeralParticle_spec now force pts Hok) as E.
  split.
  - intros (q & Hq & Hfree).
    destruct (first_free pts (scan_order pts)) as [p|] eqn:Ef.
    + apply first_free_some in Ef as [Hin Hp]. exists p. repeat split; trivial;
        apply (scan_order_region pts p Hok); assumption.
    + exfalso. eapply first_free_none; [exact Ef | | exact Hfree].
      apply scan_order_region; assumption.
  - intros Hfull.
    assert (Ef : first_free pts (scan_order pts) = None).
    { destruct (first_free pts (scan_order pts)) as [p|] eqn:Ef; [|reflexivity].
      apply first_free_some in Ef as [Hin Hp]. exfalso.
      apply (Hfull p); trivial. apply scan_order_region; assumption. }
    rewrite Ef in E. split.
    + intros ->. cbn in E. split; [exact E|].
      intros. unfold CreateEphemeralParticleAirBubble. rewrite E.
      reflexivity.
    + intros -> Hlife. cbn [negb] in E. cbv zeta in E.
      pose proof (oldest_fold now pts (scan_order pts) [] (NoneElementIndex, fzero)) as Hinv.
      destruct Hinv as [[Hnil _] | (Ho & Hl & Hmax)].
      * left. split; reflexivity.
      * intros q Hq. apply Hlife. apply scan_order_region; assumption.
      * exfalso. cbn [app] in Hnil.
        destruct (scan_order_linked pts Hok) as (rest & Er & _). congruence.
      * cbn [app] in *.
        set (o := fst (fold_left (older now pts) (scan_order pts)
                         (NoneElementIndex, fzero))) in *.
        assert (Hreg : in_region pts o) by (apply scan_order_region; assumption).
        exists o. repeat split; trivial; try apply Hreg.
        -- intros q Hq. rewrite <- Hl. apply Hmax.
           apply scan_order_region; assumption.
        -- intros. unfold CreateEphemeralParticleDebris. rewrite E.
           eexists. split; [reflexivity|].
           destruct Hok as (H0 & H1 & H2 & H3 & H4 & H5).
           destruct Hreg as [Hr1 Hr2]. clearbody o.
           split; cbn; apply rd_wr_eq;
             set (S0 := mShipPointCount pts) in *;
             set (A := mAllPointCount pts) in *; lia.
Qed.

End EphemeralOrderProperties.

Lemma sample_points_pool_ok : pool_ok sample_points.
Proof. unfold pool_ok, NoneElementIndex. cbn. lia. Qed.

Lemma sample_points_full_pool_ok : pool_ok sample_points_full.
Proof. unfold pool_ok, NoneElementIndex. cbn. lia. Qed.

(** With slot 4 free the allocator returns it; on the full pool, at time
    5, a forced request steals slot 3, the one born first. *)
Lemma FindFreeEphemeralParticle_allocation_witness :
  (exists p,
     FindFreeEphemeralParticle (b32 5 1) true sample_points =
       Some (p, start_after p sample_points) /\
     in_region sample_points p /\ is_free sample_points p) /\
  fst <$> FindFreeEphemeralParticle (b32 5 1) true sample_points_full = Some 3.
Proof.
  split.
  - apply (FindFreeEphemeralParticle_allocation (b32 5 1) true sample_points
             sample_points_pool_ok).
    exists 4. split; [unfold in_region; cbn; lia | reflexivity].
  - vm_compute. reflexivity.
Defined.

Section AllocationSequences.
Context {F : Type} `{FloatOps F} `{!FloatOrder F}.
Implicit Types (pts : Points F) (p q t : ElementIndex) (now life : F).

(** [s] is the start time stored in an occupied slot of the region. *)
Definition stored pts (s : F) : Prop :=
  exists q, in_region pts q /\ ~ is_free pts q /\
            rd (mEphemeralStartTimeBuffer pts) q = s.

(** The simulation clock does not run backwards: at each request, no
    start time stored before it lies after the request's time. *)
Fixpoint clock_ok (before : F -> Prop) (l : list (Allocation F)) : Prop :=
  match l with
  | [] => True
  | a :: l =>
      (forall s, before s -> fleb fzero (allocation_time a - s)%flt = true) /\
      clock_ok (fun s => before s \/ s = allocation_time a) l
  end.

Lemma clock_ok_weaken (P Q : F -> Prop) l :
  (forall s, Q s -> P s) -> clock_ok P l -> clock_ok Q l.
Proof.
  revert P Q. induction l as [|a l IH]; cbn; intros P Q HPQ; [trivial|].
  intros [H1 H2]. split.
  - intros s Hs. apply H1, HPQ, Hs.
  - eapply IH; [|exact H2]. cbn. intros s [Hs| ->]; [left; auto | now right].
Qed.

Lemma start_after_region pts q :
  pool_ok pts -> in_region pts q ->
  mShipPointCount pts <= mFreeEphemeralParticleSearchStartIndex (start_after q pts)
    < mAllPointCount pts.
Proof.
  intros (H0 & H1 & H2 & H3 & _) [Hq1 Hq2].
  unfold start_after, wrap32, NoneElementIndex in *. cbn.
  rewrite Z.mod_small by lia.
  destruct (Z.geb_spec (q + 1) (mAllPointCount pts)); lia.
Qed.

(** Storing a new particle in a slot of the region keeps the pool
    well-formed, and the only new stored start time is [now]. *)
Lemma place_ok (ext : Externals F) q pos v m fill temp wind ty now life pl pts :
  pool_ok pts -> in_region pts q ->
  let pts' :=
    StoreAttributes ext q pos v m fill temp wind ty now life pl (start_after q pts) in
  pool_ok pts' /\ (forall s, stored pts' s -> stored pts s \/ s = now) /\
  mShipPointCount pts' = mShipPointCount pts /\
  mAllPointCount pts' = mAllPointCount pts.
Proof.
  intros Hok Hq pts'.
  pose proof (start_after_region pts q Hok Hq) as Hs.
  destruct (StoreAttributes_frame ext q pos v m fill temp wind ty now life pl
              (start_after q pts)) as (Et & Es & Ec1 & Ec2 & Ei).
  fold pts' in Et, Es, Ec1, Ec2, Ei.
  change (mEphemeralTypeBuffer (start_after q pts))
    with (mEphemeralTypeBuffer pts) in Et.
  change (mEphemeralStartTimeBuffer (start_after q pts))
    with (mEphemeralStartTimeBuffer pts) in Es.
  change (mShipPointCount (start_after q pts)) with (mShipPointCount pts) in Ec1.
  change (mAllPointCount (start_after q pts)) with (mAllPointCount pts) in Ec2.
  destruct Hok as (H0 & H1 & H2 & H3 & H4 & H5). destruct Hq as [Hq1 Hq2].
  split; [|split; [|split; assumption]].
  - unfold pool_ok. rewrite Ec1, Ec2, Ei, Et, Es, !wr_length. lia.
  - intros s (q' & [Hq'1 Hq'2] & Hocc & Hst).
    unfold is_free in Hocc. rewrite Et in Hocc. rewrite Es in Hst.
    rewrite Ec1 in Hq'1. rewrite Ec2 in Hq'2.
    destruct (Z.eq_dec q' q) as [->|Hne].
    + right. rewrite rd_wr_eq in Hst by lia. congruence.
    + left. exists q'. rewrite rd_wr_ne in Hst by lia.
      rewrite rd_wr_ne in Hocc by lia.
      repeat split; assumption.
Qed.

Lemma allocate_ok (ext : Externals F) gp (a : Allocation F) pts :
  pool_ok pts ->
  (forall s, stored pts s -> fleb fzero (allocation_time a - s)%flt = true) ->
  exists pts',
    allocate ext gp a pts = Some pts' /\ pool_ok pts' /\
    (forall s, stored pts' s -> stored pts s \/ s = allocation_time a) /\
    mShipPointCount pts' = mShipPointCount pts /\
    mAllPointCount pts' = mAllPointCount pts.
Proof.
  intros Hok Hclock.
  assert (Hforce : forall now, (forall s, stored pts s -> fleb fzero (now - s)%flt = true) ->
    first_free pts (scan_order pts) = None ->
    in_region pts (fst (fold_left (older now pts) (scan_order pts)
                          (NoneElementIndex, fzero)))).
  { intros now Hnow Ef.
    destruct (oldest_fold now pts (scan_order pts) [] (NoneElementIndex, fzero))
      as [[Hnil _] | (Ho & _)].
    - left. split; reflexivity.
    - intros q Hq. apply Hnow. exists q. repeat split.
      + apply scan_order_region; assumption.
      + apply scan_order_region; assumption.
      + eapply first_free_none; eassumption.
    - exfalso. cbn [app] in Hnil.
      destruct (scan_order_linked pts Hok) as (rest & Er & _). congruence.
    - apply scan_order_region; assumption. }
  assert (Hfound : forall q, first_free pts (scan_order pts) = Some q ->
                             in_region pts q).
  { intros q Ef. apply first_free_some in Ef as [Hin _].
    apply scan_order_region; assumption. }
  destruct a as [pos m now pl | pos v m now life pl | pos v m now life pl];
    cbn [allocate allocation_time] in *.
  - unfold CreateEphemeralParticleAirBubble.
    rewrite (FindFreeEphemeralParticle_spec now false pts Hok).
    destruct (first_free pts (scan_order pts)) as [q|] eqn:Ef; cbn [negb].
    + pose proof (Hfound q eq_refl) as Hq.
      destruct (Z.eqb_spec q NoneElementIndex) as [E|_].
      { exfalso. destruct Hok as (_ & _ & _ & H3 & _). destruct Hq. lia. }
      eexists. split; [reflexivity|]. apply place_ok; assumption.
    + rewrite Z.eqb_refl. exists pts. split; [reflexivity|].
      split; [assumption|]. split; [intros; now left|]. split; reflexivity.
  - unfold CreateEphemeralParticleDebris.
    rewrite (FindFreeEphemeralParticle_spec now true pts Hok).
    destruct (first_free pts (scan_order pts)) as [q|] eqn:Ef; cbn [negb];
      cbv zeta; (eexists; split; [reflexivity|]); apply place_ok; auto.
  - unfold CreateEphemeralParticleSparkle.
    rewrite (FindFreeEphemeralParticle_spec now true pts Hok).
    destruct (first_free pts (scan_order pts)) as [q|] eqn:Ef; cbn [negb];
      cbv zeta; (eexists; split; [reflexivity|]); apply place_ok; auto.
Qed.

Lemma allocate_all_ok (ext : Externals F) gp (l : list (Allocation F)) :
  forall pts, pool_ok pts -> clock_ok (stored pts) l ->
  exists pts', allocate_all ext gp l pts = Some pts' /\ pool_ok pts'.
Proof.
  induction l as [|a l IH]; intros pts Hok Hclock; cbn [allocate_all].
  - exists pts. split; trivial.
  - destruct Hclock as [Ha Hl].
    destruct (allocate_ok ext gp a pts Hok Ha) as (pts1 & E & Hok1 & Hst & _).
    rewrite E. apply IH; trivial.
    eapply clock_ok_weaken; [|exact Hl]. exact Hst.
Qed.

Lemma clock_ok_prefix (P : F -> Prop) l1 l2 :
  clock_ok P (l1 ++ l2) -> clock_ok P l1.
Proof.
  revert P. induction l1 as [|a l1 IH]; cbn; intros P; [trivial|].
  intros [H1 H2]. split; [assumption|]. now apply IH.
Qed.

(** C10. From a well-formed pool, and with a simulation clock that does
    not run backwards, every sequence of allocations (air bubbles, which
    do not force, debris and sparkles, which do) runs to completion, and
    after every prefix of it, that is, before and after each allocation,
    the search start index satisfies ship-point-count <= index <
    all-point-count. *)
Theorem search_start_index_stays_in_region
    (ext : Externals F) (gp : GameParameters F)
    (l : list (Allocation F)) (pts : Points F) :
  pool_ok pts ->
  clock_ok (stored pts) l ->
  forall l1 l2, l = l1 ++ l2 ->
    exists pts',
      allocate_all ext gp l1 pts = Some pts' /\
      mShipPointCount pts' <= mFreeEphemeralParticleSearchStartIndex pts' /\
      mFreeEphemeralParticleSearchStartIndex pts' < mAllPointCount pts' /\
      mShipPointCount pts' = mShipPointCount pts /\
      mAllPointCount pts' = mAllPointCount pts.
Proof.
  intros Hok Hclock l1 l2 ->. apply clock_ok_prefix in Hclock.
  clear l2. revert pts Hok Hclock.
  induction l1 as [|a l1 IH]; intros pts Hok Hclock; cbn [allocate_all].
  - exists pts. destruct Hok as (H0 & H1 & H2 & _). repeat split; trivial.
  - destruct Hclock as [Ha Hl].
    destruct (allocate_ok ext gp a pts Hok Ha) as (pts1 & E & Hok1 & Hst & D1 & D2).
    rewrite E.
    destruct (IH pts1 Hok1) as (pts' & E' & B1 & B2 & C1 & C2).
    { eapply clock_ok_weaken; [|exact Hl]. exact Hst. }
    exists pts'. repeat split; trivial; congruence.
Qed.

End AllocationSequences.

Lemma sample_clock_ok : clock_ok (stored sample_points) sample_allocations.
Proof.
  assert (Hst : forall s, stored sample_points s -> s = b32 1 1).
  { intros s (q & [Hq1 Hq2] & Hocc & <-). cbn in Hq1, Hq2.
    assert (Hq : q = 3 \/ q = 4) by lia.
    destruct Hq as [-> | ->]; [reflexivity|].
    exfalso. apply Hocc. reflexivity. }
  cbn. repeat split;
    intros s Hs;
    repeat match goal with
           | H : _ \/ _ |- _ => destruct H
           | H : stored _ _ |- _ => apply Hst in H
           end; subst; vm_compute; reflexivity.
Qed.

(** Two air bubbles, one debris and one sparkle requested at times 2, 3, 4
    and 5 on the sample pool (one slot free): the second air bubble is
    dropped, the debris and the sparkle steal a slot each. *)
Lemma search_start_index_witness :
  exists pts',
    allocate_all sample_externals sample_parameters sample_allocations
      sample_points = Some pts' /\
    mShipPointCount pts' <= mFreeEphemeralParticleSearchStartIndex pts' /\
    mFreeEphemeralParticleSearchStartIndex pts' < mAllPointCount pts' /\
    mShipPointCount pts' = mShipPointCount sample_points /\
    mAllPointCount pts' = mAllPointCount sample_points.
Proof.
  exact (search_start_index_stays_in_region sample_externals sample_parameters
           sample_allocations sample_points sample_points_pool_ok
           sample_clock_ok sample_allocations [] (eq_sym (app_nil_r _))).
Defined.

Example allocations_on_sample_pool :
  (fun pts => (mEphemeralTypeBuffer pts,
               mFreeEphemeralParticleSearchStartIndex pts)) <$>
    allocate_all sample_externals sample_parameters sample_allocations
      sample_points
  = Some ([ET_None; ET_None; ET_None; Debris; Sparkle], 3).
Proof. vm_compute. reflexivity. Qed.

(** ** Combustion *)

Section CombustionStates.
Context {F : Type} `{FloatOps F}.
Implicit Types (pts : Points F) (p q i : ElementIndex).

Definition state_of pts i : StateType :=
  State (rd (mCombustionStateBuffer pts) i).

Definition cs_len pts : Z := Z.of_nat (length (mCombustionStateBuffer pts)).

(** The states the cap counts. *)
Definition is_active (s : StateType) : bool :=
  match s with
  | Developing_1 | Developing_2 | Burning => true
  | _ => false
  end.

Definition is_extinguishing (s : StateType) : bool :=
  match s with
  | Extinguishing_Consumed | Extinguishing_Smothered => true
  | _ => false
  end.

(** The number of particles whose combustion state is Developing(1),
    Developing(2) or Burning. *)
Definition count_active pts : nat :=
  length (List.filter (fun i => is_active (state_of pts i))
            (seqZ 0 (cs_len pts))).

Lemma state_of_outside pts i : cs_len pts <= i -> state_of pts i = NotBurning.
Proof.
  intros Hi. unfold state_of. rewrite rd_outside by exact Hi. reflexivity.
Qed.

Lemma state_of_update f p pts i :
  0 <= p -> 0 <= i ->
  state_of (update_combustion f p pts) i =
  if decide (p = i /\ p < cs_len pts)
  then State (f (rd (mCombustionStateBuffer pts) p))
  else state_of pts i.
Proof.
  intros Hp Hi. unfold state_of, update_combustion. cbn.
  rewrite rd_wr by assumption. unfold cs_len.
  destruct (decide _); reflexivity.
Qed.

Lemma cs_len_update f p pts : cs_len (update_combustion f p pts) = cs_len pts.
Proof. unfold cs_len, update_combustion. cbn. now rewrite wr_length. Qed.

(** *** [erase_first] *)

Lemma erase_first_not_in (l : list ElementIndex) p :
  p ∉ l -> erase_first l p = l.
Proof.
  induction l as [|a l IH]; cbn; intros Hp; [reflexivity|].
  apply not_elem_of_cons in Hp as [Hne Hp].
  destruct (Z.eqb_spec a p); [congruence|]. now rewrite IH.
Qed.

Lemma elem_of_erase_first (l : list ElementIndex) p q :
  NoDup l -> (q ∈ erase_first l p <-> q ∈ l /\ q <> p).
Proof.
  induction l as [|a l IH]; cbn; intros Hnd.
  - split; [intros Hq; inversion Hq | intros [Hq _]; inversion Hq].
  - apply NoDup_cons in Hnd as [Ha Hnd].
    destruct (Z.eqb_spec a p) as [->|Hne].
    + rewrite elem_of_cons. split.
      * intros Hq. split; [now right|]. intros ->. contradiction.
      * intros [[->|Hq] Hqp]; [contradiction|assumption].
    + rewrite !elem_of_cons, (IH Hnd). split.
      * intros [->|[Hq Hqp]]; split; auto.
      * intros [[->|Hq] Hqp]; auto.
Qed.

Lemma NoDup_erase_first (l : list ElementIndex) p :
  NoDup l -> NoDup (erase_first l p).
Proof.
  induction l as [|a l IH]; cbn; intros Hnd; [constructor|].
  apply NoDup_cons in Hnd as [Ha Hnd].
  destruct (Z.eqb_spec a p); [assumption|].
  apply NoDup_cons. split; [|now apply IH].
  rewrite (elem_of_erase_first l p a Hnd). tauto.
Qed.

Lemma length_erase_first (l : list ElementIndex) p :
  (length (erase_first l p) <= length l)%nat.
Proof.
  induction l as [|a l IH]; cbn; [lia|].
  destruct (a =? p); cbn; lia.
Qed.

(** *** [insert_by_plane] *)

Lemma insert_by_plane_perm planeIds (l : list ElementIndex) p :
  insert_by_plane planeIds l p ≡ₚ p :: l.
Proof.
  induction l as [|a l IH]; cbn; [reflexivity|].
  destruct (_ <? _); [|reflexivity].
  rewrite IH. apply Permutation_swap.
Qed.

End CombustionStates.

Section HighFrequencyProperties.
Context {F : Type} `{FloatOps F}.
Implicit Types (pts : Points F) (p q i : ElementIndex).

(** The state the development state machine runs on: the point has been
    smothered, or has generated its heat, or is as it was. *)
Definition before_develop (ext : Externals F) (dt : F) (gp : GameParameters F)
    pts p : Points F :=
  let effectiveCombustionHeat :=
    (lit 100 1 * lit 1000 1 * dt * CombustionHeatAdjustment gp)%flt in
  let currentState := State (rd (mCombustionStateBuffer pts) p) in
  if (StateType_eqb currentState Developing_1
      || StateType_eqb currentState Developing_2
      || StateType_eqb currentState Burning
      || StateType_eqb currentState Extinguishing_Consumed)
     && (IsUnderwater ext (rd (mPositionBuffer pts) p)
         || fgtb (rd (mWaterBuffer pts) p) (SmotheringWaterHighWatermark gp))
  then SmotherCombustion p pts
  else if StateType_eqb currentState Burning then
    fold_left (heat_neighbour ext gp effectiveCombustionHeat p)
      (rd (mConnectedSpringsBuffer pts) p)
      (set_mTemperatureBuffer
         (wr (mTemperatureBuffer pts) p
             (rd (mMaterialIgnitionTemperatureBuffer pts) p
              * IgnitionTemperatureAdjustment gp * lit 11 10)%flt) pts)
  else pts.

Lemma HighFrequency_point_unfold ext dt gp pts p :
  HighFrequency_point ext dt gp pts p = develop p (before_develop ext dt gp pts p).
Proof. reflexivity. Qed.

Lemma heat_fold_frame ext gp heat p l : forall pts,
  mCombustionStateBuffer (fold_left (heat_neighbour ext gp heat p) l pts) =
    mCombustionStateBuffer pts /\
  mBurningPoints (fold_left (heat_neighbour ext gp heat p) l pts) =
    mBurningPoints pts /\
  mShipPointCount (fold_left (heat_neighbour ext gp heat p) l pts) =
    mShipPointCount pts.
Proof.
  intros pts. repeat split.
  - apply (fold_left_preserves _ mCombustionStateBuffer). reflexivity.
  - apply (fold_left_preserves _ mBurningPoints). reflexivity.
  - apply (fold_left_preserves _ mShipPointCount). reflexivity.
Qed.

Lemma before_develop_spec ext dt gp pts p :
  0 <= p ->
  let pts1 := before_develop ext dt gp pts p in
  mBurningPoints pts1 = mBurningPoints pts /\
  cs_len pts1 = cs_len pts /\
  mShipPointCount pts1 = mShipPointCount pts /\
  (forall i, 0 <= i -> i <> p -> state_of pts1 i = state_of pts i) /\
  (state_of pts1 p = state_of pts p \/
   (state_of pts p <> NotBurning /\ state_of pts1 p = Extinguishing_Smothered)).
Proof.
  intros Hp pts1. subst pts1. unfold before_develop. cbv zeta.
  fold (state_of pts p).
  destruct (_ && _) eqn:Hsm.
  - change (SmotherCombustion p pts)
      with (update_combustion (set_State Extinguishing_Smothered) p pts).
    repeat split.
    + apply cs_len_update.
    + intros i Hi Hne. rewrite state_of_update by assumption.
      destruct (decide _) as [[E _]|_]; [congruence|reflexivity].
    + rewrite state_of_update by assumption.
      destruct (decide _) as [_|Hout].
      * right. split; [|reflexivity].
        destruct (state_of pts p); cbn in Hsm; congruence.
      * left. reflexivity.
  - destruct (StateType_eqb (state_of pts p) Burning).
    + match goal with |- context [fold_left ?g ?l ?a] =>
        destruct (heat_fold_frame ext gp
                    (lit 100 1 * lit 1000 1 * dt * CombustionHeatAdjustment gp)%flt
                    p l a) as (E1 & E2 & E3)
      end.
      unfold state_of, cs_len. rewrite E1, E2, E3. cbn.
      repeat split; auto.
    + repeat split; auto.
Qed.

Lemma develop_spec pts p :
  0 <= p ->
  let pts' := develop p pts in
  cs_len pts' = cs_len pts /\
  mShipPointCount pts' = mShipPointCount pts /\
  (forall i, 0 <= i -> i <> p -> state_of pts' i = state_of pts i) /\
  ((mBurningPoints pts' = mBurningPoints pts /\
    (state_of pts' p = NotBurning <-> state_of pts p = NotBurning)) \/
   (mBurningPoints pts' = erase_first (mBurningPoints pts) p /\
    state_of pts' p = NotBurning /\
    is_extinguishing (state_of pts p) = true /\
    fleb (FlameDevelopment (rd (mCombustionStateBuffer pts') p)) (lit 2 100) = true)).
Proof.
  intros Hp pts'. subst pts'.
  destruct (Z_lt_le_dec p (cs_len pts)) as [Hin|Hout].
  2:{ assert (E : develop p pts = pts).
      { unfold develop. rewrite rd_outside by exact Hout. reflexivity. }
      rewrite E. split; [reflexivity|]. split; [reflexivity|].
      split; [reflexivity|]. left. split; [reflexivity|tauto]. }
  assert (Hupd : forall c i, 0 <= i ->
            state_of (update_combustion (fun _ => c) p pts) i =
            if decide (p = i) then State c else state_of pts i).
  { intros c i Hi. rewrite state_of_update by assumption.
    destruct (decide (p = i /\ p < cs_len pts)), (decide (p = i)); tauto || reflexivity. }
  assert (Hfd : forall c,
            rd (mCombustionStateBuffer (update_combustion (fun _ => c) p pts)) p = c).
  { intros c. unfold update_combustion. cbn. apply rd_wr_eq.
    unfold cs_len in Hin. lia. }
  unfold develop. fold (state_of pts p).
  destruct (rd (mCombustionStateBuffer pts) p) as [st fd mx pers] eqn:Ec.
  assert (Est : state_of pts p = st) by (unfold state_of; now rewrite Ec).
  rewrite Est. cbn [State FlameDevelopment MaxFlameDevelopment].
  destruct st; cbv zeta.
  - (* NotBurning *)
    split; [reflexivity|]. split; [reflexivity|]. split; [reflexivity|].
    left. split; [reflexivity|]. rewrite ?Est. tauto.
  - (* Developing_1 *)
    split; [apply cs_len_update|]. split; [reflexivity|]. split.
    + intros i Hi Hne. rewrite Hupd by assumption.
      destruct (decide (p = i)); [congruence|reflexivity].
    + left. split; [reflexivity|]. rewrite Hupd by assumption.
      destruct (decide (p = p)); [|congruence].
      destruct (fgtb _ _); cbn; split; discriminate.
  - (* Developing_2 *)
    split; [apply cs_len_update|]. split; [reflexivity|]. split.
    + intros i Hi Hne. rewrite Hupd by assumption.
      destruct (decide (p = i)); [congruence|reflexivity].
    + left. split; [reflexivity|]. rewrite Hupd by assumption.
      destruct (decide (p = p)); [|congruence].
      destruct (fltb _ _); cbn; split; discriminate.
  - (* Burning *)
    split; [reflexivity|]. split; [reflexivity|]. split; [reflexivity|].
    left. split; [reflexivity|]. rewrite ?Est. tauto.
  - (* Extinguishing_Consumed *)
    destruct (fleb _ (lit 2 100)) eqn:Hd.
    + split; [apply cs_len_update|]. split; [reflexivity|]. split.
      * intros i Hi Hne.
        change (state_of (set_mBurningPoints ?l ?x) i) with (state_of x i).
        rewrite Hupd by assumption.
        destruct (decide (p = i)); [congruence|reflexivity].
      * right. split; [reflexivity|].
        change (state_of (set_mBurningPoints ?l ?x) p) with (state_of x p).
        change (mCombustionStateBuffer (set_mBurningPoints ?l ?x))
          with (mCombustionStateBuffer x).
        rewrite Hupd, Hfd by assumption.
        destruct (decide (p = p)); [|congruence].
        repeat split. exact Hd.
    + split; [apply cs_len_update|]. split; [reflexivity|]. split.
      * intros i Hi Hne. rewrite Hupd by assumption.
        destruct (decide (p = i)); [congruence|reflexivity].
      * left. split; [reflexivity|]. rewrite Hupd by assumption.
        destruct (decide (p = p)); [|congruence]. cbn. split; discriminate.
  - (* Extinguishing_Smothered *)
    destruct (fleb _ (lit 2 100)) eqn:Hd.
    + split; [apply cs_len_update|]. split; [reflexivity|]. split.
      * intros i Hi Hne.
        change (state_of (set_mBurningPoints ?l ?x) i) with (state_of x i).
        rewrite Hupd by assumption.
        destruct (decide (p = i)); [congruence|reflexivity].
      * right. split; [reflexivity|].
        change (state_of (set_mBurningPoints ?l ?x) p) with (state_of x p).
        change (mCombustionStateBuffer (set_mBurningPoints ?l ?x))
          with (mCombustionStateBuffer x).
        rewrite Hupd, Hfd by assumption.
        destruct (decide (p = p)); [|congruence].
        repeat split. exact Hd.
    + split; [apply cs_len_update|]. split; [reflexivity|]. split.
      * intros i Hi Hne. rewrite Hupd by assumption.
        destruct (decide (p = i)); [congruence|reflexivity].
      * left. split; [reflexivity|]. rewrite Hupd by assumption.
        destruct (decide (p = p)); [|congruence]. cbn. split; discriminate.
Qed.

End HighFrequencyProperties.

Section CombustionCap.
Context {F : Type} `{FloatOps F}.
Implicit Types (pts : Points F) (p q i : ElementIndex).

(** The burning list holds, once each, exactly the particles that are not
    in state NotBurning. *)
Definition burning_inv pts : Prop :=
  NoDup (mBurningPoints pts) /\
  (forall p, p ∈ mBurningPoints pts ->
     0 <= p < cs_len pts /\ state_of pts p <> NotBurning) /\
  (forall i, 0 <= i < cs_len pts -> state_of pts i <> NotBurning ->
     i ∈ mBurningPoints pts) /\
  0 <= mShipPointCount pts <= cs_len pts.

Lemma count_active_le_burning pts :
  burning_inv pts -> (count_active pts <= length (mBurningPoints pts))%nat.
Proof.
  intros (Hnd & _ & Hall & _). unfold count_active.
  apply submseteq_length, NoDup_submseteq.
  - apply NoDup_ListNoDup, List.NoDup_filter, NoDup_ListNoDup, NoDup_seqZ.
  - intros i Hi. apply list_elem_of_In, filter_In in Hi as [Hi Hact].
    apply list_elem_of_In, elem_of_seqZ in Hi.
    apply Hall; [lia|]. intros E. rewrite E in Hact. discriminate.
Qed.

Lemma HighFrequency_point_inv ext dt gp pts p :
  burning_inv pts -> 0 <= p ->
  let pts' := HighFrequency_point ext dt gp pts p in
  burning_inv pts' /\
  (length (mBurningPoints pts') <= length (mBurningPoints pts))%nat /\
  (forall q, q ∈ mBurningPoints pts -> q ∉ mBurningPoints pts' ->
     q = p /\ state_of pts' p = NotBurning /\
     is_extinguishing (state_of (before_develop ext dt gp pts p) p) = true /\
     fleb (FlameDevelopment (rd (mCombustionStateBuffer pts') p)) (lit 2 100) = true).
Proof.
  intros (Hnd & Hmem & Hall & Hship) Hp pts'. subst pts'.
  rewrite HighFrequency_point_unfold.
  destruct (before_develop_spec ext dt gp pts p Hp) as (B1 & B2 & B3 & B4 & B5).
  set (pts1 := before_develop ext dt gp pts p) in *.
  destruct (develop_spec pts1 p Hp) as (D1 & D2 & D3 & D4).
  set (pts' := develop p pts1) in *.
  assert (Hnb1 : forall i, 0 <= i ->
            (state_of pts1 i = NotBurning <-> state_of pts i = NotBurning)).
  { intros i Hi. destruct (Z.eq_dec i p) as [->|Hne].
    - destruct B5 as [E|[E1 E2]]; [now rewrite E|].
      rewrite E2. split; [discriminate|contradiction].
    - now rewrite B4. }
  destruct D4 as [[L Hnb]|(L & Hst & Hext & Hfd)].
  - (* the list is unchanged *)
    assert (Hnb' : forall i, 0 <= i ->
              (state_of pts' i = NotBurning <-> state_of pts i = NotBurning)).
    { intros i Hi. destruct (Z.eq_dec i p) as [->|Hne].
      - rewrite Hnb. now apply Hnb1.
      - rewrite D3 by assumption. now apply Hnb1. }
    split; [|split].
    + unfold burning_inv. rewrite L, B1, D1, B2, D2, B3.
      split; [assumption|]. split; [|split; [|assumption]].
      * intros q Hq. destruct (Hmem q Hq) as [Hr Hs].
        split; [assumption|]. rewrite Hnb' by lia. assumption.
      * intros i Hi Hs. apply Hall; [assumption|]. rewrite <- Hnb' by lia.
        assumption.
    + rewrite L, B1. lia.
    + intros q Hq Hq'. rewrite L, B1 in Hq'. contradiction.
  - (* the point has left the list *)
    split; [|split].
    + unfold burning_inv. rewrite L, B1, D1, B2, D2, B3.
      split; [now apply NoDup_erase_first|].
      split; [|split; [|assumption]].
      * intros q Hq. apply (elem_of_erase_first _ p q Hnd) in Hq as [Hq Hne].
        destruct (Hmem q Hq) as [Hr Hs]. split; [assumption|].
        rewrite D3 by lia. rewrite Hnb1 by lia. assumption.
      * intros i Hi Hs. apply elem_of_erase_first; [assumption|].
        assert (Hne : i <> p) by (intros ->; contradiction).
        split; [|assumption]. apply Hall; [assumption|].
        rewrite <- Hnb1 by lia. rewrite <- D3 by lia. assumption.
    + rewrite L, B1. apply length_erase_first.
    + intros q Hq Hq'. rewrite L, B1 in Hq'.
      assert (q = p).
      { destruct (Z.eq_dec q p); [assumption|]. exfalso. apply Hq'.
        apply elem_of_erase_first; auto. }
      subst q. repeat split; assumption.
Qed.

Lemma HighFrequency_visits_inv ext dt gp visits : forall pts,
  burning_inv pts -> Forall (fun p => 0 <= p) visits ->
  burning_inv (HighFrequency_visits ext dt gp visits pts) /\
  (length (mBurningPoints (HighFrequency_visits ext dt gp visits pts))
   <= length (mBurningPoints pts))%nat.
Proof.
  induction visits as [|p visits IH]; intros pts Hinv Hv.
  - split; [assumption|reflexivity].
  - apply Forall_cons in Hv as [Hp Hv].
    destruct (HighFrequency_point_inv ext dt gp pts p Hinv Hp) as (I1 & I2 & _).
    destruct (IH _ I1 Hv) as [J1 J2].
    split; [exact J1|].
    change (HighFrequency_visits ext dt gp (p :: visits) pts)
      with (HighFrequency_visits ext dt gp visits
              (HighFrequency_point ext dt gp pts p)).
    lia.
Qed.

(** The loop over the storage of the vector runs the loop body on a
    sequence of points, one for each point the vector had on entry, and
    none of them negative. *)
Lemma HighFrequency_loop_visits ext dt gp rounds : forall position cells pts,
  burning_inv pts -> Forall (fun p => 0 <= p) cells ->
  exists visits,
    length visits = rounds /\
    Forall (fun p => 0 <= p) visits /\
    HighFrequency_loop ext dt gp rounds position cells pts
      = HighFrequency_visits ext dt gp visits pts.
Proof.
  induction rounds as [|rounds IH]; intros position cells pts Hinv Hc.
  - exists []. split; [reflexivity|]. split; [constructor|reflexivity].
  - cbn [HighFrequency_loop].
    assert (Hp : 0 <= cells !!! position).
    { rewrite list_lookup_total_alt.
      destruct (cells !! position) as [q|] eqn:E; cbn; [|discriminate].
      rewrite Forall_forall in Hc. apply Hc.
      eapply list_elem_of_lookup_2; eassumption. }
    destruct (HighFrequency_point_inv ext dt gp pts _ Hinv Hp) as (I1 & _ & _).
    set (pts' := HighFrequency_point ext dt gp pts (cells !!! position)) in *.
    destruct (IH (S position)
                (mBurningPoints pts' ++ drop (length (mBurningPoints pts')) cells)
                pts' I1) as (visits & Hl & Hv & E).
    { apply Forall_app. split.
      - apply Forall_forall. intros q Hq.
        destruct I1 as (_ & Hmem & _). apply Hmem in Hq. lia.
      - apply Forall_drop, Hc. }
    exists (cells !!! position :: visits).
    split; [cbn; now rewrite Hl|]. split; [now constructor|].
    rewrite E. reflexivity.
Qed.

End CombustionCap.

Section LowFrequencyProperties.
Context {F : Type} `{FloatOps F} `{LibM F}.
Implicit Types (pts : Points F) (p q i : ElementIndex)
  (cands : list (IgnitionCandidate (F:=F))).

(** A state is either kept or taken from Burning to
    Extinguishing(consumed). *)
Definition kept_or_consumed (s s' : StateType) : Prop :=
  s' = s \/ (s = Burning /\ s' = Extinguishing_Consumed).

Lemma kept_or_consumed_trans s1 s2 s3 :
  kept_or_consumed s1 s2 -> kept_or_consumed s2 s3 -> kept_or_consumed s1 s3.
Proof.
  unfold kept_or_consumed. intros [->|[-> ->]] [->|[E ->]]; auto; discriminate.
Qed.

Lemma kept_or_consumed_NotBurning s s' :
  kept_or_consumed s s' -> (s' = NotBurning <-> s = NotBurning).
Proof. intros [->|[-> ->]]; split; trivial; discriminate. Qed.

Lemma decay_fold_frame alpha (l : list ConnectedSpring) : forall pts,
  let pts' := fold_left (fun pts s => decay_by alpha pts (OtherEndpointIndex s)) l pts in
  mCombustionStateBuffer pts' = mCombustionStateBuffer pts /\
  mBurningPoints pts' = mBurningPoints pts /\
  mShipPointCount pts' = mShipPointCount pts.
Proof.
  intros pts. repeat split.
  - apply (fold_left_preserves _ mCombustionStateBuffer). reflexivity.
  - apply (fold_left_preserves _ mBurningPoints). reflexivity.
  - apply (fold_left_preserves _ mShipPointCount). reflexivity.
Qed.

Lemma LowFrequency_point_spec ext gp rate pts cands idx :
  0 <= idx ->
  let res := LowFrequency_point ext gp rate (pts, cands) idx in
  mBurningPoints (fst res) = mBurningPoints pts /\
  cs_len (fst res) = cs_len pts /\
  mShipPointCount (fst res) = mShipPointCount pts /\
  (forall i, 0 <= i -> i <> idx -> state_of (fst res) i = state_of pts i) /\
  kept_or_consumed (state_of pts idx) (state_of (fst res) idx) /\
  (snd res = cands \/
   exists k, snd res = cands ++ [(idx, k)] /\ state_of pts idx = NotBurning).
Proof.
  intros Hidx res. subst res. unfold LowFrequency_point.
  fold (state_of pts idx).
  destruct (state_of pts idx) eqn:Est; cbv beta iota zeta;
    try (cbn [fst snd]; repeat split; auto; left; solve [reflexivity | assumption]).
  - (* NotBurning *)
    destruct (_ && _); cbn [fst snd].
    + repeat split; auto; [left; assumption|].
      right. eexists. split; reflexivity.
    + repeat split; auto; left; trivial.
  - (* Burning *)
    destruct (_ || _); cbn [fst snd].
    + change (mBurningPoints (notify ?e ?x)) with (mBurningPoints x).
      change (cs_len (notify ?e ?x)) with (cs_len x).
      change (mShipPointCount (notify ?e ?x)) with (mShipPointCount x).
      change (state_of (notify ?e ?x)) with (state_of x).
      change (set_mCombustionStateBuffer
                (wr (mCombustionStateBuffer pts) idx
                   (set_State Extinguishing_Consumed
                      (rd (mCombustionStateBuffer pts) idx))) pts)
        with (update_combustion (set_State Extinguishing_Consumed) idx pts).
      split; [reflexivity|]. split; [apply cs_len_update|].
      split; [reflexivity|]. split; [|split; [|left; reflexivity]].
      * intros i Hi Hne. rewrite state_of_update by assumption.
        destruct (decide _) as [[E _]|_]; [congruence|reflexivity].
      * rewrite state_of_update by assumption.
        destruct (decide _); [right; split; reflexivity|left].
        assumption.
    + match goal with |- context [fold_left ?g ?l ?a] =>
        destruct (decay_fold_frame
          (powf (lit 1 100)
             (fone / (rate * powf (Mass (rd (mMaterialsBuffer pts) idx) / lit 750 1)
                                 (lit 15 100)))%flt) l a) as (E1 & E2 & E3)
      end.
      unfold state_of, cs_len. rewrite E1, E2, E3. cbn.
      repeat split; auto; left; trivial.
Qed.

Lemma LowFrequency_loop_spec ext gp rate stride (budget : nat) :
  forall idx pts cands res,
  0 <= idx -> 0 < stride -> mShipPointCount pts + stride <= 4294967296 ->
  LowFrequency_loop budget ext gp rate stride idx (pts, cands) = Some res ->
  mBurningPoints (fst res) = mBurningPoints pts /\
  cs_len (fst res) = cs_len pts /\
  mShipPointCount (fst res) = mShipPointCount pts /\
  (forall i, 0 <= i -> kept_or_consumed (state_of pts i) (state_of (fst res) i)) /\
  exists new,
    snd res = cands ++ new /\
    NoDup (fst <$> new) /\
    Forall (fun c => idx <= fst c < mShipPointCount pts /\
                     state_of pts (fst c) = NotBurning) new.
Proof.
  induction budget as [|budget IH]; intros idx pts cands res Hidx Hstride Hwrap;
    cbn [LowFrequency_loop fst];
    destruct (Z.ltb_spec idx (mShipPointCount pts)) as [Hlt|Hge];
    intros Hres; try discriminate.
  1,3: inversion Hres; subst res; cbn [fst snd];
    (repeat split; auto; [intros; left; reflexivity|]);
    exists []; rewrite app_nil_r; repeat split; constructor.
  destruct (LowFrequency_point_spec ext gp rate pts cands idx Hidx)
    as (P1 & P2 & P3 & P4 & P5 & P6).
  destruct (LowFrequency_point ext gp rate (pts, cands) idx) as [pts1 cands1].
  cbn [fst snd] in *.
  unfold wrap32 in Hres. rewrite Z.mod_small in Hres by lia.
  apply IH in Hres; try lia.
  destruct Hres as (L1 & L2 & L3 & L4 & new & L5 & L6 & L7).
  assert (Hst : forall i, 0 <= i -> kept_or_consumed (state_of pts i) (state_of pts1 i)).
  { intros i Hi. destruct (Z.eq_dec i idx) as [->|Hne]; [assumption|].
    left. now apply P4. }
  split; [congruence|]. split; [congruence|]. split; [congruence|].
  split.
  { intros i Hi. eapply kept_or_consumed_trans; [apply Hst | apply L4]; assumption. }
  assert (Hnew : Forall (fun c => idx <= fst c < mShipPointCount pts /\
                                  state_of pts (fst c) = NotBurning) new).
  { eapply Forall_impl; [exact L7|]. cbn. intros c [Hc1 Hc2]. split; [lia|].
    rewrite <- P4 by lia. assumption. }
  assert (Hfresh : idx ∉ fst <$> new).
  { intros Hin. apply list_elem_of_fmap in Hin as (c & Ec & Hc).
    rewrite Forall_forall in L7. apply L7 in Hc. destruct Hc as [Hc _].
    lia. }
  destruct P6 as [->|(k & -> & Hk)].
  - exists new. repeat split; assumption.
  - exists ((idx, k) :: new). split; [|split].
    + rewrite L5, <- app_assoc. reflexivity.
    + cbn. apply NoDup_cons. split; assumption.
    + apply Forall_cons. split; [|assumption]. cbn. split; [lia|assumption].
Qed.

Lemma LowFrequency_loop_terminates ext gp rate stride (budget : nat) :
  forall idx pts cands,
  0 <= idx -> 0 < stride -> mShipPointCount pts + stride <= 4294967296 ->
  mShipPointCount pts - idx <= Z.of_nat budget ->
  exists res,
    LowFrequency_loop budget ext gp rate stride idx (pts, cands) = Some res.
Proof.
  induction budget as [|budget IH]; intros idx pts cands Hidx Hstride Hwrap Hb;
    cbn [LowFrequency_loop fst];
    destruct (Z.ltb_spec idx (mShipPointCount pts)) as [Hlt|Hge];
    try (eexists; reflexivity); [lia|].
  destruct (LowFrequency_point_spec ext gp rate pts cands idx Hidx)
    as (_ & _ & P3 & _).
  destruct (LowFrequency_point ext gp rate (pts, cands) idx) as [pts1 cands1].
  cbn [fst] in P3.
  unfold wrap32. rewrite Z.mod_small by lia.
  apply IH; lia.
Qed.

End LowFrequencyProperties.

Section IgnitionProperties.
Context {F : Type} `{FloatOps F}.
Implicit Types (pts : Points F) (p q i : ElementIndex)
  (cands : list (IgnitionCandidate (F:=F))).

Lemma Ignite_spec ext (c : IgnitionCandidate) pers pts :
  0 <= fst c < cs_len pts ->
  let pts' := Ignite ext c pers pts in
  mBurningPoints pts' ≡ₚ fst c :: mBurningPoints pts /\
  cs_len pts' = cs_len pts /\
  mShipPointCount pts' = mShipPointCount pts /\
  state_of pts' (fst c) = Developing_1 /\
  (forall i, 0 <= i -> i <> fst c -> state_of pts' i = state_of pts i).
Proof.
  intros Hc pts'. subst pts'. unfold Ignite. cbv zeta.
  change (mBurningPoints (notify ?e ?x)) with (mBurningPoints x).
  change (cs_len (notify ?e ?x)) with (cs_len x).
  change (mShipPointCount (notify ?e ?x)) with (mShipPointCount x).
  change (state_of (notify ?e ?x)) with (state_of x).
  cbn [mBurningPoints set_mBurningPoints].
  change (cs_len (set_mBurningPoints ?l ?x)) with (cs_len x).
  change (mShipPointCount (set_mBurningPoints ?l ?x)) with (mShipPointCount x).
  change (state_of (set_mBurningPoints ?l ?x)) with (state_of x).
  split; [apply insert_by_plane_perm|].
  split; [unfold cs_len; cbn; now rewrite wr_length|].
  split; [reflexivity|].
  unfold state_of, cs_len in *. cbn. split.
  - rewrite rd_wr_eq by lia. reflexivity.
  - intros i Hi Hne. rewrite rd_wr_ne by lia. reflexivity.
Qed.

Lemma IgniteAll_spec ext pers cands : forall (k : nat) pts,
  Forall (fun c => 0 <= fst c < cs_len pts) cands ->
  let pts' := IgniteAll ext k cands pers pts in
  mBurningPoints pts' ≡ₚ (fst <$> cands) ++ mBurningPoints pts /\
  cs_len pts' = cs_len pts /\
  mShipPointCount pts' = mShipPointCount pts /\
  (forall i, 0 <= i -> i ∈ fst <$> cands -> state_of pts' i = Developing_1) /\
  (forall i, 0 <= i -> i ∉ fst <$> cands -> state_of pts' i = state_of pts i).
Proof.
  induction cands as [|c cands IH]; intros k pts Hr; cbn [IgniteAll].
  - repeat split; auto. intros i _ Hi. inversion Hi.
  - apply Forall_cons in Hr as [Hc Hr].
    destruct (Ignite_spec ext c (pers k) pts Hc) as (I1 & I2 & I3 & I4 & I5).
    destruct (IH (S k) (Ignite ext c (pers k) pts)) as (J1 & J2 & J3 & J4 & J5).
    { rewrite I2. exact Hr. }
    split; [|split; [congruence|split; [congruence|split]]].
    + rewrite J1, I1. cbn. apply Permutation_sym, Permutation_middle.
    + intros i Hi Hin. cbn in Hin. apply elem_of_cons in Hin.
      destruct (decide (i ∈ fst <$> cands)) as [Hin'|Hnin].
      * now apply J4.
      * destruct Hin as [->|Hin]; [|contradiction].
        rewrite J5 by assumption. exact I4.
    + intros i Hi Hnin. cbn in Hnin. apply not_elem_of_cons in Hnin as [Hne Hnin].
      rewrite J5 by assumption. now apply I5.
Qed.

(** What [std::nth_element] promises for a comparator that is a strict
    weak ordering on the elements. *)
Definition strict_weak_order_on {A : Type} (comp : A -> A -> bool)
    (l : list A) : Prop :=
  (forall a, a ∈ l -> comp a a = false) /\
  (forall a b c, a ∈ l -> b ∈ l -> c ∈ l ->
     comp a b = true -> comp b c = true -> comp a c = true) /\
  (forall a b c, a ∈ l -> b ∈ l -> c ∈ l ->
     comp a b = false -> comp b a = false ->
     comp b c = false -> comp c b = false ->
     comp a c = false /\ comp c a = false).

Definition nth_element_contract {A : Type}
    (nth_element : (A -> A -> bool) -> nat -> list A -> list A) : Prop :=
  forall comp (n : nat) l,
    (n <= length l)%nat ->
    nth_element comp n l ≡ₚ l /\
    (strict_weak_order_on comp l ->
     forall (i j : nat) a b,
       (i < n)%nat -> (n <= j)%nat ->
       nth_element comp n l !! i = Some a ->
       nth_element comp n l !! j = Some b ->
       comp b a = false).

Lemma maxPoints_bounds (gp : GameParameters F) (rnd burning ncands : nat) :
  let K := maxPoints gp rnd burning ncands in
  (K <= 4 + rnd)%nat /\
  (K <= MaxBurningParticles gp - burning)%nat /\
  (K <= ncands)%nat /\
  K = Nat.min (Nat.min (4 + rnd) (MaxBurningParticles gp - burning)) ncands.
Proof.
  unfold maxPoints.
  destruct (Nat.ltb_spec burning (MaxBurningParticles gp)); cbn zeta; lia.
Qed.

End IgnitionProperties.

Section LowFrequencyPass.
Context {F : Type} `{FloatOps F} `{LibM F}.
Implicit Types (pts : Points F) (p q i : ElementIndex)
  (cands : list (IgnitionCandidate (F:=F))).

(** The candidates the first loop of the pass collects, the count [K] it
    ignites, and the split of the rearranged candidates into the ignited
    ones and the rest. *)
Definition combustion_decay_rate (gp : GameParameters F) (dt : F) : F :=
  (lit 90 1 / (CombustionSpeedAdjustment gp * dt))%flt.

Lemma LowFrequency_pass_spec nth_element ext offset stride dt gp rnd pers pts :
  nth_element_contract nth_element ->
  burning_inv pts ->
  0 <= offset -> 0 < stride -> mShipPointCount pts + stride <= 4294967296 ->
  exists pts1 cands,
    LowFrequency_loop (Z.to_nat (mShipPointCount pts)) ext gp
      (combustion_decay_rate gp dt) stride offset (pts, []) = Some (pts1, cands) /\
    let K := maxPoints gp rnd (length (mBurningPoints pts)) (length cands) in
    let chosen := take K (nth_element by_ignition_delta K cands) in
    let rest := drop K (nth_element by_ignition_delta K cands) in
    let pts' := IgniteAll ext 0 chosen pers pts1 in
    UpdateCombustionLowFrequency nth_element ext offset stride dt gp rnd pers pts
      = Some pts' /\
    chosen ++ rest ≡ₚ cands /\
    length chosen = K /\
    NoDup (fst <$> cands) /\
    Forall (fun c => offset <= fst c < mShipPointCount pts /\
                     state_of pts (fst c) = NotBurning) cands /\
    burning_inv pts' /\
    mBurningPoints pts' ≡ₚ (fst <$> chosen) ++ mBurningPoints pts /\
    (forall i, 0 <= i -> i ∈ fst <$> chosen -> state_of pts' i = Developing_1) /\
    (forall i, 0 <= i -> i ∉ fst <$> chosen ->
       kept_or_consumed (state_of pts i) (state_of pts' i)).
Proof.
  intros Hnth (Hnd & Hmem & Hall & Hship) Hoff Hstride Hwrap.
  destruct (LowFrequency_loop_terminates ext gp (combustion_decay_rate gp dt)
              stride (Z.to_nat (mShipPointCount pts)) offset pts [])
    as ([pts1 cands] & Eloop); try lia.
  exists pts1, cands. split; [exact Eloop|].
  intros K chosen rest pts'.
  destruct (LowFrequency_loop_spec ext gp _ stride _ offset pts [] _
              Hoff Hstride Hwrap Eloop)
    as (L1 & L2 & L3 & L4 & new & L5 & L6 & L7).
  cbn [fst snd app] in L1, L2, L3, L4, L5, L6, L7. subst new.
  assert (HK : (K <= length cands)%nat).
  { subst K. apply maxPoints_bounds. }
  destruct (Hnth by_ignition_delta K cands HK) as [Hperm _].
  assert (Hsplit : chosen ++ rest ≡ₚ cands).
  { subst chosen rest. now rewrite take_drop. }
  assert (Hchosen_in : forall c, c ∈ chosen -> c ∈ cands).
  { intros c Hc. rewrite <- Hsplit. apply elem_of_app. now left. }
  assert (Hchosen_nd : NoDup (fst <$> chosen)).
  { assert (Hn : NoDup (fst <$> (chosen ++ rest))) by now rewrite Hsplit.
    rewrite fmap_app in Hn. now apply NoDup_app in Hn. }
  assert (Hrange : Forall (fun c => 0 <= fst c < cs_len pts1) chosen).
  { apply Forall_forall. intros c Hc. apply Hchosen_in in Hc.
    rewrite Forall_forall in L7. destruct (L7 c Hc) as [Hr _]. lia. }
  destruct (IgniteAll_spec ext pers chosen 0%nat pts1 Hrange)
    as (J1 & J2 & J3 & J4 & J5).
  fold pts' in J1, J2, J3, J4, J5.
  assert (Hkept : forall i, 0 <= i -> i ∉ fst <$> chosen ->
            kept_or_consumed (state_of pts i) (state_of pts' i)).
  { intros i Hi Hnin. rewrite J5 by assumption. now apply L4. }
  assert (Hfresh : forall i, i ∈ fst <$> chosen ->
            0 <= i < cs_len pts /\ state_of pts i = NotBurning).
  { intros i Hi. apply list_elem_of_fmap in Hi as (c & -> & Hc).
    apply Hchosen_in in Hc. rewrite Forall_forall in L7.
    destruct (L7 c Hc) as [Hr Hs]. split; [lia|assumption]. }
  split.
  { unfold UpdateCombustionLowFrequency. cbv zeta.
    fold (combustion_decay_rate gp dt). rewrite Eloop. rewrite L1.
    reflexivity. }
  split; [exact Hsplit|]. split.
  { subst chosen. rewrite length_take. rewrite (Permutation_length Hperm). lia. }
  split; [exact L6|]. split; [exact L7|]. split; [|split; [|split]].
  - unfold burning_inv. rewrite J2, J3, L2, L3.
    split; [|split; [|split; [|assumption]]].
    + rewrite J1, L1. apply NoDup_app. split; [assumption|]. split; [|assumption].
      intros i Hi Hin. destruct (Hfresh i Hi) as [_ Hs].
      destruct (Hmem i Hin) as [_ Hs']. contradiction.
    + intros q Hq. rewrite J1, L1 in Hq. apply elem_of_app in Hq as [Hq|Hq].
      * destruct (Hfresh q Hq) as [Hr _]. split; [assumption|].
        rewrite J4 by (lia || assumption). discriminate.
      * destruct (Hmem q Hq) as [Hr Hs]. split; [assumption|].
        destruct (decide (q ∈ fst <$> chosen)) as [Hin|Hnin].
        -- rewrite J4 by (lia || assumption). discriminate.
        -- rewrite (kept_or_consumed_NotBurning _ _ (Hkept q ltac:(lia) Hnin)).
           assumption.
    + intros i Hi Hs. rewrite J1, L1. apply elem_of_app.
      destruct (decide (i ∈ fst <$> chosen)) as [Hin|Hnin]; [now left|right].
      apply Hall; [assumption|].
      rewrite <- (kept_or_consumed_NotBurning _ _ (Hkept i ltac:(lia) Hnin)).
      assumption.
  - rewrite J1, L1. reflexivity.
  - exact J4.
  - exact Hkept.
Qed.

End LowFrequencyPass.

(** ** The reference [nth_element] meets the contract *)

Section ReferenceNthElement.
Context {A : Type}.
Implicit Types (comp : A -> A -> bool) (l : list A).

Lemma insert_sorted_perm comp x l : insert_sorted comp x l ≡ₚ x :: l.
Proof.
  induction l as [|a l IH]; cbn; [reflexivity|].
  destruct (comp x a); [reflexivity|].
  rewrite IH. apply Permutation_swap.
Qed.

Lemma nth_element_by_sort_perm comp n l : nth_element_by_sort comp n l ≡ₚ l.
Proof.
  unfold nth_element_by_sort. induction l as [|a l IH]; cbn; [reflexivity|].
  rewrite insert_sorted_perm. now rewrite IH.
Qed.

(** No later element is ordered before an earlier one. *)
Fixpoint descending comp l : Prop :=
  match l with
  | [] => True
  | a :: l => (forall b, b ∈ l -> comp b a = false) /\ descending comp l
  end.

Lemma insert_sorted_descending comp (L : list A) x l :
  strict_weak_order_on comp L ->
  x ∈ L -> (forall a, a ∈ l -> a ∈ L) ->
  descending comp l -> descending comp (insert_sorted comp x l).
Proof.
  intros (Hirr & Htr & _) Hx. induction l as [|a l IH]; intros Hl Hd.
  - cbn. split; [|exact I]. intros b Hb. inversion Hb.
  - destruct Hd as [Ha Hd]. cbn [insert_sorted].
    assert (HaL : a ∈ L) by (apply Hl; left).
    destruct (comp x a) eqn:Exa.
    + split; [|split; assumption].
      intros b Hb. destruct (comp b x) eqn:Ebx; [|reflexivity].
      assert (HbL : b ∈ L) by (apply Hl; exact Hb).
      apply elem_of_cons in Hb as [->|Hb].
      * rewrite <- (Hirr a HaL). symmetry. now apply (Htr a x a).
      * rewrite <- (Ha b Hb). symmetry. now apply (Htr b x a).
    + split.
      * intros b Hb. rewrite insert_sorted_perm in Hb.
        apply elem_of_cons in Hb as [->|Hb]; [assumption|now apply Ha].
      * apply IH; [|assumption]. intros b Hb. apply Hl. now right.
Qed.

Lemma nth_element_by_sort_descending comp (L : list A) n l :
  strict_weak_order_on comp L -> (forall a, a ∈ l -> a ∈ L) ->
  descending comp (nth_element_by_sort comp n l).
Proof.
  intros Hswo. unfold nth_element_by_sort.
  induction l as [|a l IH]; intros Hl; cbn [foldr]; [exact I|].
  apply (insert_sorted_descending comp L); trivial.
  - apply Hl. left.
  - intros b Hb. apply Hl. right.
    change (foldr (insert_sorted comp) [] l) with (nth_element_by_sort comp n l) in Hb.
    now rewrite nth_element_by_sort_perm in Hb.
  - apply IH. intros b Hb. apply Hl. now right.
Qed.

Lemma descending_lookup comp l : forall (i j : nat) a b,
  descending comp l -> (i < j)%nat ->
  l !! i = Some a -> l !! j = Some b -> comp b a = false.
Proof.
  induction l as [|x l IH]; intros i j a b Hd Hij Hi Hj; [discriminate|].
  destruct Hd as [Hx Hd]. destruct j as [|j]; [lia|]. cbn in Hj.
  destruct i as [|i]; cbn in Hi.
  - inversion Hi; subst. apply Hx. eapply list_elem_of_lookup_2; eassumption.
  - apply (IH i j); trivial. lia.
Qed.

Lemma nth_element_by_sort_contract :
  nth_element_contract (@nth_element_by_sort A).
Proof.
  intros comp n l Hn. split; [apply nth_element_by_sort_perm|].
  intros Hswo i j a b Hi Hj Ha Hb.
  apply (descending_lookup comp (nth_element_by_sort comp n l) i j); trivial; [|lia].
  apply (nth_element_by_sort_descending comp l); auto.
Qed.

End ReferenceNthElement.

Section IgnitionKeys.
Context {F : Type} `{FloatOps F} `{LibM F}.
Implicit Types (pts : Points F) (p q i : ElementIndex)
  (cands : list (IgnitionCandidate (F:=F))).

(** (temperature - effective ignition temperature) / effective ignition
    temperature, as the pass computes it. *)
Definition ignition_key (gp : GameParameters F) pts i : F :=
  ((rd (mTemperatureBuffer pts) i
    - rd (mMaterialIgnitionTemperatureBuffer pts) i * IgnitionTemperatureAdjustment gp)
   / (rd (mMaterialIgnitionTemperatureBuffer pts) i * IgnitionTemperatureAdjustment gp))%flt.

Lemma LowFrequency_point_keys ext gp rate pts cands idx :
  let res := LowFrequency_point ext gp rate (pts, cands) idx in
  mTemperatureBuffer (fst res) = mTemperatureBuffer pts /\
  mMaterialIgnitionTemperatureBuffer (fst res) =
    mMaterialIgnitionTemperatureBuffer pts /\
  (snd res = cands \/ snd res = cands ++ [(idx, ignition_key gp pts idx)]).
Proof.
  intros res. subst res. unfold LowFrequency_point.
  destruct (State (rd (mCombustionStateBuffer pts) idx)); cbv beta iota zeta;
    try solve [cbn [fst snd]; repeat split; auto].
  - destruct (_ && _); cbn [fst snd]; repeat split; auto.
  - destruct (_ || _); cbn [fst snd].
    + repeat split; auto.
    + split; [|split; [|left; reflexivity]].
      * rewrite (fold_left_preserves _ mTemperatureBuffer); reflexivity.
      * rewrite (fold_left_preserves _ mMaterialIgnitionTemperatureBuffer);
          reflexivity.
Qed.

Lemma LowFrequency_loop_keys ext gp rate stride (budget : nat) :
  forall idx pts cands res,
  LowFrequency_loop budget ext gp rate stride idx (pts, cands) = Some res ->
  mTemperatureBuffer (fst res) = mTemperatureBuffer pts /\
  mMaterialIgnitionTemperatureBuffer (fst res) =
    mMaterialIgnitionTemperatureBuffer pts /\
  exists new,
    snd res = cands ++ new /\
    Forall (fun c => snd c = ignition_key gp pts (fst c)) new.
Proof.
  induction budget as [|budget IH]; intros idx pts cands res;
    cbn [LowFrequency_loop fst];
    destruct (idx <? mShipPointCount pts);
    intros Hres; try discriminate.
  1,3: inversion Hres; subst res; cbn [fst snd]; repeat split;
    exists []; rewrite app_nil_r; split; [reflexivity|constructor].
  destruct (LowFrequency_point_keys ext gp rate pts cands idx) as (K1 & K2 & K3).
  destruct (LowFrequency_point ext gp rate (pts, cands) idx) as [pts1 cands1].
  cbn [fst snd] in *.
  apply IH in Hres. destruct Hres as (M1 & M2 & new & M3 & M4).
  split; [congruence|]. split; [congruence|].
  assert (Hnew : Forall (fun c => snd c = ignition_key gp pts (fst c)) new).
  { eapply Forall_impl; [exact M4|]. cbn. intros c ->.
    unfold ignition_key. now rewrite K1, K2. }
  destruct K3 as [->| ->].
  - exists new. split; assumption.
  - exists ((idx, ignition_key gp pts idx) :: new). split.
    + rewrite M3, <- app_assoc. reflexivity.
    + apply Forall_cons. split; [reflexivity|assumption].
Qed.

End IgnitionKeys.

Section IgnitionOrder.
Context {F : Type} `{FloatOps F} `{!FloatOrder F}.

Lemma fltb_irrefl (x : F) : fltb x x = false.
Proof.
  destruct (fltb x x) eqn:E; [|reflexivity].
  apply fltb_spec in E as [E1 E2]. congruence.
Qed.

Lemma fltb_false_fleb (x y : F) :
  ordered x -> ordered y -> fltb x y = false -> fleb y x = true.
Proof.
  unfold ordered. intros Hx Hy Hlt.
  destruct (fleb x y) eqn:Exy.
  - destruct (fleb y x) eqn:Eyx; [reflexivity|].
    assert (fltb x y = true) by (apply fltb_spec; split; assumption).
    congruence.
  - now apply fleb_total.
Qed.

Lemma fltb_trans (x y z : F) :
  fltb x y = true -> fltb y z = true -> fltb x z = true.
Proof.
  intros Hxy Hyz. apply fltb_spec in Hxy as [A1 A2].
  apply fltb_spec in Hyz as [B1 B2]. apply fltb_spec. split.
  - eapply fleb_trans; eassumption.
  - destruct (fleb z x) eqn:E; [|reflexivity].
    assert (fleb z y = true) by (eapply fleb_trans; eassumption). congruence.
Qed.

Lemma by_ignition_delta_strict_weak (cands : list (IgnitionCandidate (F:=F))) :
  Forall (fun c => ordered (snd c)) cands ->
  strict_weak_order_on by_ignition_delta cands.
Proof.
  intros Hord. rewrite Forall_forall in Hord.
  unfold by_ignition_delta, fgtb. split; [|split].
  - intros a _. apply fltb_irrefl.
  - intros a b c _ _ _ Hab Hbc. eapply fltb_trans; eassumption.
  - intros a b c Ha Hb Hc Hab Hba Hbc Hcb.
    pose proof (Hord a Ha) as Oa. pose proof (Hord b Hb) as Ob.
    pose proof (Hord c Hc) as Oc.
    assert (L1 : fleb (snd a) (snd b) = true) by now apply fltb_false_fleb.
    assert (L2 : fleb (snd b) (snd a) = true) by now apply fltb_false_fleb.
    assert (L3 : fleb (snd b) (snd c) = true) by now apply fltb_false_fleb.
    assert (L4 : fleb (snd c) (snd b) = true) by now apply fltb_false_fleb.
    assert (L5 : fleb (snd a) (snd c) = true) by (eapply fleb_trans; eassumption).
    assert (L6 : fleb (snd c) (snd a) = true) by (eapply fleb_trans; eassumption).
    split.
    + destruct (fltb (snd c) (snd a)) eqn:E; [|reflexivity].
      apply fltb_spec in E as [_ E]. congruence.
    + destruct (fltb (snd a) (snd c)) eqn:E; [|reflexivity].
      apply fltb_spec in E as [_ E]. congruence.
Qed.

End IgnitionOrder.

Abbreviation nth_element_type F :=
  ((IgnitionCandidate (F:=F) -> IgnitionCandidate (F:=F) -> bool) ->
   nat -> list (IgnitionCandidate (F:=F)) -> list (IgnitionCandidate (F:=F))).

Section CombustionTheorems.
Context {F : Type} `{FloatOps F} `{LibM F}.
Implicit Types (pts : Points F) (p q i : ElementIndex)
  (cands : list (IgnitionCandidate (F:=F))).

(** The states a world can be in, as far as combustion goes: it starts
    with every particle NotBurning and an empty burning list; the two
    combustion passes run with any arguments, the low-frequency one with
    any cap up to [maxB], which is thus the largest
    [MaxBurningParticles] a pass has run with; the high-frequency loop
    body may run on any sequence of points;
    [ReorderBurningPointsForDepth] may run, with any [std::sort] that
    rearranges; [OnOrphaned] may run; and any other operation leaves
    combustion states and the burning list as they are. *)
Inductive reachable (nth_element : nth_element_type F) (maxB : nat)
    : Points F -> Prop :=
| reach_start pts :
    (forall i, state_of pts i = NotBurning) ->
    mBurningPoints pts = [] ->
    0 <= mShipPointCount pts <= cs_len pts ->
    reachable nth_element maxB pts
| reach_low pts pts' ext offset stride dt gp rnd pers :
    reachable nth_element maxB pts ->
    (MaxBurningParticles gp <= maxB)%nat ->
    0 <= offset -> 0 < stride ->
    mShipPointCount pts + stride <= 4294967296 ->
    UpdateCombustionLowFrequency nth_element ext offset stride dt gp rnd pers pts
      = Some pts' ->
    reachable nth_element maxB pts'
| reach_high pts ext dt gp :
    reachable nth_element maxB pts ->
    reachable nth_element maxB (UpdateCombustionHighFrequency ext dt gp pts)
| reach_high_visits pts ext dt gp visits :
    reachable nth_element maxB pts ->
    Forall (fun p => 0 <= p) visits ->
    reachable nth_element maxB (HighFrequency_visits ext dt gp visits pts)
| reach_reorder pts std_sort :
    reachable nth_element maxB pts ->
    (forall comp l, std_sort comp l ≡ₚ l) ->
    reachable nth_element maxB (ReorderBurningPointsForDepth std_sort pts)
| reach_orphaned pts rnd p :
    reachable nth_element maxB pts ->
    reachable nth_element maxB (OnOrphaned rnd p pts)
| reach_other pts pts' :
    reachable nth_element maxB pts ->
    mBurningPoints pts' = mBurningPoints pts ->
    (forall i, state_of pts' i = state_of pts i) ->
    cs_len pts' = cs_len pts ->
    mShipPointCount pts' = mShipPointCount pts ->
    reachable nth_element maxB pts'.

Lemma burning_inv_frame pts pts' :
  mBurningPoints pts' = mBurningPoints pts ->
  (forall i, state_of pts' i = state_of pts i) ->
  cs_len pts' = cs_len pts ->
  mShipPointCount pts' = mShipPointCount pts ->
  burning_inv pts -> burning_inv pts'.
Proof.
  intros E1 E2 E3 E4 (Hnd & Hmem & Hall & Hship).
  unfold burning_inv. rewrite E1, E3, E4.
  split; [assumption|]. split; [|split; [|assumption]].
  - intros q Hq. rewrite E2. now apply Hmem.
  - intros i Hi Hs. rewrite E2 in Hs. now apply Hall.
Qed.

Lemma OnOrphaned_frame rnd p pts :
  mBurningPoints (OnOrphaned rnd p pts) = mBurningPoints pts /\
  (forall i, state_of (OnOrphaned rnd p pts) i = state_of pts i) /\
  cs_len (OnOrphaned rnd p pts) = cs_len pts /\
  mShipPointCount (OnOrphaned rnd p pts) = mShipPointCount pts.
Proof.
  unfold OnOrphaned. destruct (StateType_eqb _ _); [|repeat split].
  split; [reflexivity|]. split; [|split; [apply cs_len_update|reflexivity]].
  intros i. unfold state_of, update_combustion. cbn. unfold rd, wr.
  destruct (decide (Z.to_nat p = Z.to_nat i)) as [E|NE].
  - rewrite E. destruct (decide (Z.to_nat i < length (mCombustionStateBuffer pts))%nat).
    + rewrite list_lookup_total_insert_eq by assumption. reflexivity.
    + rewrite list_insert_ge by lia. reflexivity.
  - rewrite list_lookup_total_insert_ne by assumption. reflexivity.
Qed.

Lemma reachable_inv nth_element maxB pts :
  nth_element_contract nth_element ->
  reachable nth_element maxB pts ->
  burning_inv pts /\ (length (mBurningPoints pts) <= maxB)%nat.
Proof.
  intros Hnth Hr. induction Hr as
    [pts Hs Hl Hship
    |pts pts' ext offset stride dt gp rnd pers Hr [IH1 IH2] Hmax Hoff Hstr Hwrap E
    |pts ext dt gp Hr [IH1 IH2]
    |pts ext dt gp visits Hr [IH1 IH2] Hv
    |pts std_sort Hr [IH1 IH2] Hsort
    |pts rnd p Hr [IH1 IH2]
    |pts pts' Hr [IH1 IH2] E1 E2 E3 E4].
  - split; [|rewrite Hl; cbn; lia]. unfold burning_inv. rewrite Hl.
    split; [constructor|]. split; [|split; [|assumption]].
    + intros q Hq. inversion Hq.
    + intros i _ Hi. exfalso. apply Hi, Hs.
  - destruct (LowFrequency_pass_spec nth_element ext offset stride dt gp rnd pers
                pts Hnth IH1 Hoff Hstr Hwrap)
      as (pts1 & cands & _ & E' & _ & Hlen & _ & _ & Hinv & Hperm & _).
    rewrite E in E'. inversion E'; subst pts'. split; [exact Hinv|].
    apply Permutation_length in Hperm.
    rewrite length_app, length_fmap in Hperm.
    pose proof (maxPoints_bounds gp rnd (length (mBurningPoints pts))
                  (length cands)) as (_ & B & _). cbv zeta in B.
    unfold IgnitionCandidate in *. lia.
  - assert (Hv : Forall (fun p => 0 <= p) (mBurningPoints pts)).
    { apply Forall_forall. intros q Hq.
      destruct IH1 as (_ & Hmem & _). apply Hmem in Hq. lia. }
    unfold UpdateCombustionHighFrequency.
    destruct (HighFrequency_loop_visits ext dt gp (length (mBurningPoints pts))
                0%nat (mBurningPoints pts) pts IH1 Hv) as (visits & _ & Hv' & ->).
    destruct (HighFrequency_visits_inv ext dt gp visits pts IH1 Hv') as [J1 J2].
    split; [exact J1|lia].
  - destruct (HighFrequency_visits_inv ext dt gp visits pts IH1 Hv) as [J1 J2].
    split; [exact J1|lia].
  - set (comp := fun p1 p2 =>
                   rd (mPlaneIdBuffer pts) p1 <? rd (mPlaneIdBuffer pts) p2).
    assert (Hperm : mBurningPoints (ReorderBurningPointsForDepth std_sort pts)
                    ≡ₚ mBurningPoints pts) by apply (Hsort comp).
    split; [|now rewrite Hperm].
    destruct IH1 as (Hnd & Hmem & Hall & Hship). unfold burning_inv.
    split; [now rewrite Hperm|]. split; [|split; [|exact Hship]].
    + intros q Hq. rewrite Hperm in Hq. exact (Hmem q Hq).
    + intros i Hi Hst. rewrite Hperm. exact (Hall i Hi Hst).
  - destruct (OnOrphaned_frame rnd p pts) as (E1 & E2 & E3 & E4).
    split; [eapply burning_inv_frame; eassumption|]. rewrite E1. exact IH2.
  - split; [eapply burning_inv_frame; eassumption|]. rewrite E1. exact IH2.
Qed.

(** C1. In every reachable state the number of particles in state
    Developing(1), Developing(2) or Burning is at most the largest cap
    [MaxBurningParticles] a low-frequency pass has run with, hence at
    most the present cap when the cap has never been lowered.  From such
    a state the low-frequency pass, with any cap, ignites at most that
    cap minus the current size of the burning list, and nothing when the
    list is already that long; it adds exactly the ignited points to the
    list and makes no other point active.  A point leaves the burning
    list during the high-frequency loop body only when it is the visited
    point, the state machine ran on it in an Extinguishing state, and its
    flame development has fallen to 0.02 or below.  The count may exceed
    the present cap after the cap has been lowered. *)
Theorem combustion_cap (nth_element : nth_element_type F) (maxB : nat) pts :
  nth_element_contract nth_element ->
  reachable nth_element maxB pts ->
  (count_active pts <= maxB)%nat /\
  (forall ext offset stride dt gp rnd pers,
     0 <= offset -> 0 < stride ->
     mShipPointCount pts + stride <= 4294967296 ->
     exists pts' ignited,
       UpdateCombustionLowFrequency nth_element ext offset stride dt gp rnd pers pts
         = Some pts' /\
       mBurningPoints pts' ≡ₚ ignited ++ mBurningPoints pts /\
       (length ignited
        <= MaxBurningParticles gp - length (mBurningPoints pts))%nat /\
       (forall i, i ∈ ignited ->
          state_of pts i = NotBurning /\ state_of pts' i = Developing_1) /\
       (forall i, 0 <= i -> i ∉ ignited ->
          is_active (state_of pts' i) = true -> is_active (state_of pts i) = true)) /\
  (forall ext dt gp p q,
     0 <= p ->
     q ∈ mBurningPoints pts ->
     q ∉ mBurningPoints (HighFrequency_point ext dt gp pts p) ->
     q = p /\
     state_of (HighFrequency_point ext dt gp pts p) p = NotBurning /\
     is_extinguishing (state_of (before_develop ext dt gp pts p) p) = true /\
     fleb (FlameDevelopment
             (rd (mCombustionStateBuffer (HighFrequency_point ext dt gp pts p)) p))
          (lit 2 100) = true).
Proof.
  intros Hnth Hr. destruct (reachable_inv nth_element maxB pts Hnth Hr) as [Hinv Hlen].
  split; [|split].
  - pose proof (count_active_le_burning pts Hinv). lia.
  - intros ext offset stride dt gp rnd pers Hoff Hstr Hwrap.
    destruct (LowFrequency_pass_spec nth_element ext offset stride dt gp rnd pers
                pts Hnth Hinv Hoff Hstr Hwrap)
      as (pts1 & cands & _ & E & Hsplit & Hl & _ & Hc & _ & Hperm & Hdev & Hkept).
    eexists. exists (fst <$> take (maxPoints gp rnd (length (mBurningPoints pts))
                                     (length cands))
                               (nth_element by_ignition_delta
                                  (maxPoints gp rnd (length (mBurningPoints pts))
                                     (length cands)) cands)).
    split; [exact E|]. split; [exact Hperm|]. split; [|split].
    + rewrite length_fmap.
      pose proof (maxPoints_bounds gp rnd (length (mBurningPoints pts))
                    (length cands)) as (_ & B & _). cbv zeta in B.
      unfold IgnitionCandidate in *. lia.
    + intros i Hi.
      assert (Hi' := Hi). apply list_elem_of_fmap in Hi' as (c & -> & Hc').
      assert (Hcc : c ∈ cands).
      { rewrite <- Hsplit. apply elem_of_app. now left. }
      rewrite Forall_forall in Hc. destruct (Hc c Hcc) as [Hr' Hs].
      split; [assumption|]. apply Hdev; [lia|assumption].
    + intros i Hi Hnin Hact.
      destruct (Hkept i Hi Hnin) as [E'|[E1 E2]].
      * now rewrite <- E'.
      * rewrite E2 in Hact. discriminate.
  - intros ext dt gp p q Hp Hq Hq'.
    destruct (HighFrequency_point_inv ext dt gp pts p Hinv Hp) as (_ & _ & Hleave).
    exact (Hleave q Hq Hq').
Qed.

End CombustionTheorems.

Section IgnitionSelection.
Context {F : Type} `{FloatOps F} `{LibM F} `{!FloatOrder F}.
Implicit Types (pts : Points F) (p q i : ElementIndex)
  (cands : list (IgnitionCandidate (F:=F))).

(** C2. The low-frequency pass returns; with [cands] the candidates its
    first loop collects (points that were NotBurning, each with the key
    (temperature - effective ignition temperature) / effective ignition
    temperature), the points that go from NotBurning to Developing(1) are
    exactly the first components of a part [chosen] of [cands], without
    repetition, of length min(4 + Choose(6), MaxBurningParticles - size of
    the burning list, number of candidates); and when no key is a NaN,
    every chosen candidate's key is greater than or equal to the key of
    every candidate left out. *)
Theorem ignition_selects_top_candidates
    (nth_element : nth_element_type F) ext offset stride dt gp rnd pers pts :
  nth_element_contract nth_element ->
  burning_inv pts ->
  0 <= offset -> 0 < stride -> mShipPointCount pts + stride <= 4294967296 ->
  exists pts1 cands pts' chosen rest,
    LowFrequency_loop (Z.to_nat (mShipPointCount pts)) ext gp
      (combustion_decay_rate gp dt) stride offset (pts, []) = Some (pts1, cands) /\
    UpdateCombustionLowFrequency nth_element ext offset stride dt gp rnd pers pts
      = Some pts' /\
    Forall (fun c => state_of pts (fst c) = NotBurning /\
                     snd c = ignition_key gp pts (fst c)) cands /\
    chosen ++ rest ≡ₚ cands /\
    length chosen =
      Nat.min (Nat.min (4 + rnd)
                 (MaxBurningParticles gp - length (mBurningPoints pts)))
              (length cands) /\
    NoDup (fst <$> chosen) /\
    (forall i, 0 <= i ->
       (state_of pts i = NotBurning /\ state_of pts' i = Developing_1)
       <-> i ∈ fst <$> chosen) /\
    (Forall (fun c => ordered (snd c)) cands ->
     forall a b, a ∈ chosen -> b ∈ rest -> fleb (snd b) (snd a) = true).
Proof.
  intros Hnth Hinv Hoff Hstr Hwrap.
  destruct (LowFrequency_pass_spec nth_element ext offset stride dt gp rnd pers
              pts Hnth Hinv Hoff Hstr Hwrap)
    as (pts1 & cands & Eloop & E & Hsplit & Hl & Hnd & Hc & _ & _ & Hdev & Hkept).
  set (K := maxPoints gp rnd (length (mBurningPoints pts)) (length cands)) in *.
  set (sorted := nth_element by_ignition_delta K cands) in *.
  exists pts1, cands. eexists. exists (take K sorted), (drop K sorted).
  split; [exact Eloop|]. split; [exact E|].
  destruct (LowFrequency_loop_keys ext gp _ stride _ offset pts [] _ Eloop)
    as (_ & _ & new & Enew & Hkeys).
  cbn [snd app] in Enew. subst new.
  assert (HK : (K <= length cands)%nat) by (subst K; apply maxPoints_bounds).
  assert (Hchosen_nd : NoDup (fst <$> take K sorted)).
  { assert (Hn : NoDup (fst <$> (take K sorted ++ drop K sorted)))
      by now rewrite Hsplit.
    rewrite fmap_app in Hn. now apply NoDup_app in Hn. }
  split; [|split; [exact Hsplit|split; [|split; [exact Hchosen_nd|split]]]].
  - apply Forall_forall. intros c Hcc. rewrite Forall_forall in Hc, Hkeys.
    split; [apply Hc, Hcc | apply Hkeys, Hcc].
  - rewrite Hl. subst K. apply maxPoints_bounds.
  - intros i Hi. split.
    + intros [Hs Hd].
      destruct (decide (i ∈ fst <$> take K sorted)) as [Hin|Hnin]; [assumption|].
      exfalso. destruct (Hkept i Hi Hnin) as [E'|[E1 _]]; congruence.
    + intros Hin. split; [|now apply Hdev].
      apply list_elem_of_fmap in Hin as (c & -> & Hcc).
      assert (Hcc' : c ∈ cands).
      { rewrite <- Hsplit. apply elem_of_app. now left. }
      rewrite Forall_forall in Hc. apply Hc, Hcc'.
  - intros Hord a b Ha Hb.
    destruct (Hnth by_ignition_delta K cands HK) as [Hperm Hpart].
    fold sorted in Hperm, Hpart.
    apply list_elem_of_lookup in Ha as (ia & Ha).
    apply list_elem_of_lookup in Hb as (ib & Hb).
    apply lookup_take_Some in Ha as [Ha Hia].
    rewrite lookup_drop in Hb.
    assert (Hcomp : by_ignition_delta b a = false).
    { apply (Hpart (by_ignition_delta_strict_weak cands Hord) ia (K + ib)%nat);
        trivial. lia. }
    unfold by_ignition_delta, fgtb in Hcomp.
    rewrite Forall_forall in Hord.
    apply fltb_false_fleb; trivial; apply Hord; rewrite <- Hperm;
      eapply list_elem_of_lookup_2; eassumption.
Qed.

End IgnitionSelection.

Lemma start_burning_inv {F : Type} `{FloatOps F} (pts : Points F) :
  (forall i, state_of pts i = NotBurning) ->
  mBurningPoints pts = [] ->
  0 <= mShipPointCount pts <= cs_len pts ->
  burning_inv pts.
Proof.
  intros Hs Hl Hship. unfold burning_inv. rewrite Hl.
  split; [constructor|]. split; [|split; [|assumption]].
  - intros q Hq. inversion Hq.
  - intros i _ Hi. exfalso. apply Hi, Hs.
Qed.

Lemma sample_points_hot_start :
  (forall i, state_of sample_points_hot i = NotBurning) /\
  mBurningPoints sample_points_hot = [] /\
  0 <= mShipPointCount sample_points_hot <= cs_len sample_points_hot.
Proof.
  split; [|split; [reflexivity|unfold cs_len; cbn; lia]].
  intros i. unfold state_of, rd. cbn.
  destruct (Z.to_nat i) as [|[|[|[|[|n]]]]]; reflexivity.
Qed.

Lemma sample_after_ignition_eq : sample_after_ignition = Some sample_points_ignited.
Proof. vm_compute. reflexivity. Qed.

(** On the hot sample ship the candidates are points 0 and 2; with a cap
    of one burning particle one of them is ignited. *)
Lemma ignition_selects_top_candidates_witness :
  exists pts1 cands pts' chosen rest,
    LowFrequency_loop (H0 := sample_libm)
      (Z.to_nat (mShipPointCount sample_points_hot)) sample_externals
      sample_parameters
      (combustion_decay_rate sample_parameters (b32 2 100)) 1 0
      (sample_points_hot, []) = Some (pts1, cands) /\
    sample_after_ignition = Some pts' /\
    Forall (fun c => state_of sample_points_hot (fst c) = NotBurning /\
                     snd c = ignition_key sample_parameters sample_points_hot (fst c))
           cands /\
    chosen ++ rest ≡ₚ cands /\
    length chosen =
      Nat.min (Nat.min (4 + 0)
                 (MaxBurningParticles sample_parameters
                  - length (mBurningPoints sample_points_hot)))
              (length cands) /\
    NoDup (fst <$> chosen) /\
    (forall i, 0 <= i ->
       (state_of sample_points_hot i = NotBurning /\ state_of pts' i = Developing_1)
       <-> i ∈ fst <$> chosen) /\
    (Forall (fun c => ordered (snd c)) cands ->
     forall a b, a ∈ chosen -> b ∈ rest -> fleb (snd b) (snd a) = true).
Proof.
  destruct sample_points_hot_start as (Hs & Hl & Hship).
  apply (ignition_selects_top_candidates (H0 := sample_libm)
           nth_element_by_sort sample_externals 0 1 (b32 2 100)
           sample_parameters 0%nat (fun _ => b32 1 2) sample_points_hot
           nth_element_by_sort_contract
           (start_burning_inv sample_points_hot Hs Hl Hship));
    cbn; lia.
Defined.

Example ignition_on_sample_ship :
  (fun pts => (State <$> mCombustionStateBuffer pts, mBurningPoints pts)) <$>
    sample_after_ignition
  = Some ([NotBurning; NotBurning; Developing_1; NotBurning; NotBurning], [2]).
Proof. vm_compute. reflexivity. Qed.

Lemma sample_after_roomy_ignition_eq :
  sample_after_roomy_ignition = Some sample_points_two_ignited.
Proof. vm_compute. reflexivity. Qed.

Lemma sample_after_lowered_cap_eq :
  sample_after_lowered_cap = Some sample_points_lowered_cap.
Proof. vm_compute. reflexivity. Qed.

(** The hot sample ship goes through a low-frequency pass with a cap of
    four, a pass with a cap of one, a reordering and a high-frequency
    pass: the state is reachable with four as the largest cap, and holds
    at most four active particles. *)
Lemma combustion_cap_witness :
  (count_active
     (UpdateCombustionHighFrequency sample_externals (b32 2 100)
        sample_parameters
        (ReorderBurningPointsForDepth sort_by_insertion
           sample_points_lowered_cap)) <= 4)%nat.
Proof.
  destruct sample_points_hot_start as (Hs & Hl & Hship).
  refine (proj1 (combustion_cap (H0 := sample_libm) nth_element_by_sort 4 _
                   nth_element_by_sort_contract _)).
  apply reach_high. apply reach_reorder.
  - apply (reach_low nth_element_by_sort 4 sample_points_two_ignited
             sample_points_lowered_cap
             sample_externals 0 1 (b32 2 100) sample_parameters 0%nat
             (fun _ => b32 1 2)).
    + apply (reach_low nth_element_by_sort 4 sample_points_hot
               sample_points_two_ignited
               sample_externals 0 1 (b32 2 100) sample_parameters_roomy 0%nat
               (fun _ => b32 1 2)).
      * apply reach_start; assumption.
      * cbn. lia.
      * lia.
      * lia.
      * cbn. lia.
      * exact sample_after_roomy_ignition_eq.
    + cbn. lia.
    + lia.
    + lia.
    + vm_compute. discriminate.
    + exact sample_after_lowered_cap_eq.
  - intros comp l. apply (nth_element_by_sort_perm comp 0%nat).
Defined.

(** The erase during the loop: with the burning points 0, 2 and 3, of
    which point 0 goes out, the loop runs its body on point 0, then on
    point 3 and on point 3 again; point 2, which took the place of point
    0, is skipped and keeps its flame development. *)
Example high_frequency_loop_after_an_erase :
  let pts := sample_points_three_burning in
  let pts' :=
    UpdateCombustionHighFrequency sample_externals (b32 2 100)
      sample_parameters pts in
  pts' = HighFrequency_visits sample_externals (b32 2 100) sample_parameters
           [0; 3; 3] pts /\
  mBurningPoints pts' = [2; 3] /\
  State <$> mCombustionStateBuffer pts'
    = [NotBurning; NotBurning; Developing_1; Developing_1; NotBurning] /\
  FlameDevelopment (rd (mCombustionStateBuffer pts') 2)
    = FlameDevelopment (rd (mCombustionStateBuffer pts) 2) /\
  FlameDevelopment (rd (mCombustionStateBuffer pts') 3)
    <> FlameDevelopment (rd (mCombustionStateBuffer pts) 3).
Proof. vm_compute. repeat split. discriminate. Qed.

(** The cap is read at each call: the hot sample ship ignites its two hot
    points under a cap of four; the next pass runs with a cap of one, and
    leaves both of them active. *)
Lemma lowered_cap_leaves_two_active :
  MaxBurningParticles sample_parameters_roomy = 4%nat /\
  sample_after_roomy_ignition = Some sample_points_two_ignited /\
  MaxBurningParticles sample_parameters = 1%nat /\
  sample_after_lowered_cap = Some sample_points_lowered_cap /\
  State <$> mCombustionStateBuffer sample_points_lowered_cap
    = [Developing_1; NotBurning; Developing_1; NotBurning; NotBurning] /\
  count_active sample_points_lowered_cap = 2%nat.
Proof. vm_compute. repeat split. Qed.

(** * The ocean surface *)

Lemma fold_left_invariant {A B : Type} (P : A -> Prop) (g : A -> B -> A)
    (l : list B) :
  (forall a b, b ∈ l -> P a -> P (g a b)) ->
  forall a, P a -> P (fold_left g l a).
Proof.
  induction l as [|b l IH]; intros Hg a Ha; cbn; [exact Ha|].
  apply IH.
  - intros a' b' Hb'. apply Hg. apply elem_of_cons. now right.
  - apply Hg; [apply elem_of_cons; now left | exact Ha].
Qed.

Section SurfaceInvariant.
Context {F : Type} `{FloatOps F} `{LibM F}.
Variable c : OceanConstants F.
Variable ext : OceanExternals F.
Hypothesis samples : 0 < SamplesCount c.

Implicit Types (o : OceanSurface.t F).

Let T : Z := SWETotalSamples c.

(** All four buffers have [SWETotalSamples + 1] cells, and both velocity
    buffers are zero at the two boundary cells. *)
Definition fields_ok o : Prop :=
  Z.of_nat (length (OceanSurface.mCurrentHeightField o)) = T + 1 /\
  Z.of_nat (length (OceanSurface.mNextHeightField o)) = T + 1 /\
  Z.of_nat (length (OceanSurface.mCurrentVelocityField o)) = T + 1 /\
  Z.of_nat (length (OceanSurface.mNextVelocityField o)) = T + 1 /\
  rd (OceanSurface.mCurrentVelocityField o) 0 = fzero /\
  rd (OceanSurface.mCurrentVelocityField o) (T - 1) = fzero /\
  rd (OceanSurface.mNextVelocityField o) 0 = fzero /\
  rd (OceanSurface.mNextVelocityField o) (T - 1) = fzero.

Lemma total_samples : T = SamplesCount c + 4.
Proof.
  unfold T, SWETotalSamples, SWEOuterLayerSamples, SWEWaveGenerationSamples,
    SWEBoundaryConditionsSamples. lia.
Qed.

Lemma inner_cells_spec i :
  i ∈ OceanSurface.inner_cells c <-> 1 <= i < T - 1.
Proof.
  unfold OceanSurface.inner_cells. rewrite elem_of_seqZ.
  fold T. unfold SWEBoundaryConditionsSamples. lia.
Qed.

Lemma new_array_length {A : Type} `{Inhabited A} n :
  0 <= n -> Z.of_nat (length (OceanSurface.new_array (A := A) n)) = n.
Proof. intros Hn. unfold OceanSurface.new_array. rewrite length_replicate. lia. Qed.

Lemma Make_fields_ok : fields_ok (OceanSurface.Make c ext).
Proof.
  pose proof total_samples as HT.
  unfold OceanSurface.Make.
  set (o0 := OceanSurface.Build_t _ _ _ _ _ _ _ _).
  set (step := fun o i => OceanSurface.Build_t _ _ _ _ _ _ _ _).
  assert (Hlen : forall l o,
    Z.of_nat (length (OceanSurface.mCurrentHeightField o)) = T + 1 /\
    Z.of_nat (length (OceanSurface.mNextHeightField o)) = T + 1 /\
    Z.of_nat (length (OceanSurface.mCurrentVelocityField o)) = T + 1 /\
    Z.of_nat (length (OceanSurface.mNextVelocityField o)) = T + 1 ->
    let o' := fold_left step l o in
    (Z.of_nat (length (OceanSurface.mCurrentHeightField o')) = T + 1 /\
     Z.of_nat (length (OceanSurface.mNextHeightField o')) = T + 1 /\
     Z.of_nat (length (OceanSurface.mCurrentVelocityField o')) = T + 1 /\
     Z.of_nat (length (OceanSurface.mNextVelocityField o')) = T + 1) /\
    forall j, 0 <= j < T + 1 ->
      (j ∈ l \/ rd (OceanSurface.mCurrentVelocityField o) j = fzero ->
       rd (OceanSurface.mCurrentVelocityField o') j = fzero) /\
      (j ∈ l \/ rd (OceanSurface.mNextVelocityField o) j = fzero ->
       rd (OceanSurface.mNextVelocityField o') j = fzero)).
  { induction l as [|i l IH]; intros o Ho; cbn.
    - split; [exact Ho|]. intros j Hj. split; intros [Hin|Hz]; trivial;
        now apply elem_of_nil in Hin.
    - destruct Ho as (L1 & L2 & L3 & L4).
      assert (Ho' : Z.of_nat (length (OceanSurface.mCurrentHeightField (step o i))) = T + 1 /\
        Z.of_nat (length (OceanSurface.mNextHeightField (step o i))) = T + 1 /\
        Z.of_nat (length (OceanSurface.mCurrentVelocityField (step o i))) = T + 1 /\
        Z.of_nat (length (OceanSurface.mNextVelocityField (step o i))) = T + 1).
      { unfold step; cbn. rewrite !wr_length. auto. }
      destruct (IH _ Ho') as [Hl Hz]. split; [exact Hl|].
      intros j Hj. destruct (Hz j Hj) as [Hc Hn].
      assert (Hstep : forall (buf : list F), Z.of_nat (length buf) = T + 1 ->
                j = i \/ rd buf j = fzero -> rd (wr buf i fzero) j = fzero).
      { intros buf Hb [->|Hr].
        - apply rd_wr_eq. lia.
        - destruct (decide (i = j)) as [->|Hne]; [apply rd_wr_eq; lia|].
          destruct (decide (0 <= i)) as [Hi|Hi].
          + rewrite rd_wr_ne by lia. exact Hr.
          + unfold rd, wr in *. replace (Z.to_nat i) with 0%nat by lia.
            destruct (decide (j = 0)) as [->|Hj0].
            * cbn. rewrite list_lookup_total_insert_eq by lia. reflexivity.
            * rewrite list_lookup_total_insert_ne by lia. exact Hr. }
      split; intros Hin.
      + apply Hc. destruct Hin as [Hin|Hr].
        * apply elem_of_cons in Hin as [->|Hin]; [|now left].
          right. unfold step; cbn. apply Hstep; auto.
        * right. unfold step; cbn. apply Hstep; auto.
      + apply Hn. destruct Hin as [Hin|Hr].
        * apply elem_of_cons in Hin as [->|Hin]; [|now left].
          right. unfold step; cbn. apply Hstep; auto.
        * right. unfold step; cbn. apply Hstep; auto. }
  assert (Hstart : Z.of_nat (length (OceanSurface.mCurrentHeightField o0)) = T + 1 /\
    Z.of_nat (length (OceanSurface.mNextHeightField o0)) = T + 1 /\
    Z.of_nat (length (OceanSurface.mCurrentVelocityField o0)) = T + 1 /\
    Z.of_nat (length (OceanSurface.mNextVelocityField o0)) = T + 1).
  { unfold o0; cbn. fold T. rewrite !new_array_length by lia. auto. }
  destruct (Hlen (seqZ 0 (T + 1)) o0 Hstart) as [(L1 & L2 & L3 & L4) Hz].
  unfold fields_ok. fold T.
  assert (Hin : forall j, 0 <= j < T + 1 -> j ∈ seqZ 0 (T + 1)).
  { intros j Hj. apply elem_of_seqZ. lia. }
  repeat match goal with |- _ /\ _ => split end; trivial.
  - apply (Hz 0); [lia|]. left. apply Hin. lia.
  - apply (Hz (T - 1)); [lia|]. left. apply Hin. lia.
  - apply (Hz 0); [lia|]. left. apply Hin. lia.
  - apply (Hz (T - 1)); [lia|]. left. apply Hin. lia.
Qed.


Lemma AdvanceWaves_fields t o :
  let o' := OceanSurface.AdvanceWaves c t o in
  length (OceanSurface.mCurrentHeightField o')
    = length (OceanSurface.mCurrentHeightField o) /\
  OceanSurface.mNextHeightField o' = OceanSurface.mNextHeightField o /\
  OceanSurface.mCurrentVelocityField o' = OceanSurface.mCurrentVelocityField o /\
  OceanSurface.mNextVelocityField o' = OceanSurface.mNextVelocityField o.
Proof.
  unfold OceanSurface.AdvanceWaves.
  destruct (OceanSurface.mSWEExternalWaveStateMachine o) as [m|]; [|cbn; auto].
  destruct (SWEWaveStateMachine.Update c t m) as [[h|] m']; cbn; auto.
  rewrite wr_length. auto.
Qed.

Lemma AdvanceWaves_ok t o : fields_ok o -> fields_ok (OceanSurface.AdvanceWaves c t o).
Proof.
  intros (L1 & L2 & L3 & L4 & Z1 & Z2 & Z3 & Z4).
  destruct (AdvanceWaves_fields t o) as (E1 & E2 & E3 & E4).
  unfold fields_ok. rewrite E1, E2, E3, E4. auto 10.
Qed.

(** Writing a cell of the next height field, and writing an inner cell
    of the next velocity field. *)
Lemma set_next_height_ok o i v :
  fields_ok o ->
  fields_ok (OceanSurface.set_mNextHeightField
               (wr (OceanSurface.mNextHeightField o) i v) o).
Proof.
  intros (L1 & L2 & L3 & L4 & Z1 & Z2 & Z3 & Z4).
  unfold fields_ok; cbn. rewrite wr_length. auto 10.
Qed.

Lemma set_next_velocity_ok o i v :
  fields_ok o -> i ∈ OceanSurface.inner_cells c ->
  fields_ok (OceanSurface.set_mNextVelocityField
               (wr (OceanSurface.mNextVelocityField o) i v) o).
Proof.
  pose proof total_samples as HT.
  intros (L1 & L2 & L3 & L4 & Z1 & Z2 & Z3 & Z4) Hi.
  apply inner_cells_spec in Hi.
  unfold fields_ok; cbn. rewrite wr_length, !rd_wr_ne by lia. auto 10.
Qed.

Lemma AdvectHeightField_ok o :
  fields_ok o -> fields_ok (OceanSurface.AdvectHeightField c o).
Proof.
  apply fold_left_invariant. clear o. intros o i _ Ho. cbv zeta.
  destruct (OceanSurface.PreviousCell c i _) as [I Fr].
  now apply set_next_height_ok.
Qed.

Lemma AdvectVelocityField_ok o :
  fields_ok o -> fields_ok (OceanSurface.AdvectVelocityField c o).
Proof.
  apply fold_left_invariant. clear o. intros o i Hi Ho. cbv zeta.
  destruct (OceanSurface.PreviousCell c i _) as [I Fr].
  now apply set_next_velocity_ok.
Qed.

Lemma UpdateHeightField_ok o :
  fields_ok o -> fields_ok (OceanSurface.UpdateHeightField c o).
Proof.
  apply fold_left_invariant. clear o. intros o i _ Ho.
  now apply set_next_height_ok.
Qed.

Lemma UpdateVelocityField_ok o :
  fields_ok o -> fields_ok (OceanSurface.UpdateVelocityField c o).
Proof.
  apply fold_left_invariant. clear o. intros o i Hi Ho.
  now apply set_next_velocity_ok.
Qed.

(** The two boundary cells of the next height field after the mirroring. *)
Definition mirrored (h : list F) : Prop :=
  rd h 0 = rd h 1 /\ rd h (T - 1) = rd h (T - 2).

Lemma SetBoundaryConditions_spec o :
  fields_ok o ->
  let o' := OceanSurface.SetBoundaryConditions c o in
  fields_ok o' /\ mirrored (OceanSurface.mNextHeightField o').
Proof.
  pose proof total_samples as HT.
  intros Ho. unfold OceanSurface.SetBoundaryConditions.
  change (seqZ 0 SWEBoundaryConditionsSamples) with [0]. cbn [fold_left].
  cbv zeta. split.
  - now apply set_next_height_ok, set_next_height_ok.
  - destruct Ho as (L1 & L2 & L3 & L4 & _).
    unfold mirrored; cbn. fold T. unfold SWEBoundaryConditionsSamples.
    replace (T - 1 - 0) with (T - 1) by lia.
    replace (T - 1 - 1 - 0) with (T - 2) by lia.
    replace (0 + 1) with 1 by lia.
    set (h := OceanSurface.mNextHeightField o) in *.
    split.
    + rewrite !(rd_wr_ne _ (T - 1)) by lia.
      rewrite rd_wr_eq by lia. now rewrite rd_wr_ne by lia.
    + rewrite rd_wr_eq by (rewrite wr_length; lia).
      now rewrite (rd_wr_ne _ (T - 1)) by lia.
Qed.

Lemma swap_fields_ok o : fields_ok o -> fields_ok (OceanSurface.swap_fields o).
Proof.
  intros (L1 & L2 & L3 & L4 & Z1 & Z2 & Z3 & Z4). unfold fields_ok; cbn. auto 10.
Qed.

Lemma GenerateSamples_fields t wind gp o :
  let o' := OceanSurface.GenerateSamples c ext t wind gp o in
  OceanSurface.mCurrentHeightField o' = OceanSurface.mCurrentHeightField o /\
  OceanSurface.mNextHeightField o' = OceanSurface.mNextHeightField o /\
  OceanSurface.mCurrentVelocityField o' = OceanSurface.mCurrentVelocityField o /\
  OceanSurface.mNextVelocityField o' = OceanSurface.mNextVelocityField o /\
  OceanSurface.mSWEExternalWaveStateMachine o'
    = OceanSurface.mSWEExternalWaveStateMachine o.
Proof.
  unfold OceanSurface.GenerateSamples. cbv zeta.
  destruct (RunningAverage_Update ext _ _) as [smoothed average].
  destruct (fold_left _ _ _) as [[samples' prev] x]. cbn. auto.
Qed.

(** What one [Update] establishes. *)
Lemma Update_spec t wind gp o :
  fields_ok o ->
  let o' := OceanSurface.Update c ext t wind gp o in
  fields_ok o' /\ mirrored (OceanSurface.mCurrentHeightField o').
Proof.
  intros Ho. unfold OceanSurface.Update. cbv zeta.
  set (o5 := OceanSurface.SetBoundaryConditions c _).
  assert (H5 : fields_ok o5 /\ mirrored (OceanSurface.mNextHeightField o5)).
  { apply SetBoundaryConditions_spec, UpdateVelocityField_ok,
      UpdateHeightField_ok, AdvectVelocityField_ok, AdvectHeightField_ok,
      AdvanceWaves_ok, Ho. }
  destruct H5 as [H5 Hm]. apply swap_fields_ok in H5.
  destruct (GenerateSamples_fields t wind gp (OceanSurface.swap_fields o5))
    as (E1 & E2 & E3 & E4 & _).
  unfold fields_ok. rewrite E1, E2, E3, E4. split; [exact H5|exact Hm].
Qed.

Lemma AdjustTo_fields wc t o o' :
  OceanSurface.AdjustTo c wc t o = Some o' ->
  OceanSurface.mCurrentHeightField o' = OceanSurface.mCurrentHeightField o /\
  OceanSurface.mNextHeightField o' = OceanSurface.mNextHeightField o /\
  OceanSurface.mCurrentVelocityField o' = OceanSurface.mCurrentVelocityField o /\
  OceanSurface.mNextVelocityField o' = OceanSurface.mNextVelocityField o.
Proof.
  unfold OceanSurface.AdjustTo.
  destruct wc as [wc|], (OceanSurface.mSWEExternalWaveStateMachine o) as [m|];
    intros E; inversion E; subst; cbn; auto.
Qed.

Lemma reachable_surface_ok o :
  OceanSurface.reachable_surface c ext o -> fields_ok o.
Proof.
  induction 1 as [|o t wind gp _ IH|o wc t o' _ IH E].
  - apply Make_fields_ok.
  - now apply Update_spec.
  - destruct (AdjustTo_fields _ _ _ _ E) as (E1 & E2 & E3 & E4).
    unfold fields_ok. rewrite E1, E2, E3, E4. exact IH.
Qed.

(** C5.  After every ocean surface update, each boundary cell of the
    current height field holds the value of the interior cell next to it
    (cell 0 that of cell 1, cell [SWETotalSamples - 1] that of cell
    [SWETotalSamples - 2]), and the current velocity field is zero at the
    two boundary cells.  This holds for every surface that the
    constructor, [Update] and [AdjustTo] produce, whatever the external
    wave has written into the height field during the update.  The
    comparison [==] of the two cells of a pair is true as soon as the
    value they hold is not a NaN. *)
Theorem ocean_mirror_invariant `{!FloatOrder F}
    o currentSimulationTime wind gameParameters :
  OceanSurface.reachable_surface c ext o ->
  let o' := OceanSurface.Update c ext currentSimulationTime wind gameParameters o in
  let H' := OceanSurface.mCurrentHeightField o' in
  let V' := OceanSurface.mCurrentVelocityField o' in
  rd H' 0 = rd H' 1 /\
  rd H' (SWETotalSamples c - 1) = rd H' (SWETotalSamples c - 2) /\
  rd V' 0 = fzero /\
  rd V' (SWETotalSamples c - 1) = fzero /\
  Z.of_nat (length H') = SWETotalSamples c + 1 /\
  Z.of_nat (length V') = SWETotalSamples c + 1 /\
  (ordered (rd H' 1) -> feqb (rd H' 0) (rd H' 1) = true) /\
  (ordered (rd H' (SWETotalSamples c - 2)) ->
   feqb (rd H' (SWETotalSamples c - 1)) (rd H' (SWETotalSamples c - 2)) = true) /\
  (ordered (fzero : F) ->
   feqb (rd V' 0) fzero = true /\
   feqb (rd V' (SWETotalSamples c - 1)) fzero = true).
Proof.
  intros Hr. apply reachable_surface_ok in Hr.
  destruct (Update_spec currentSimulationTime wind gameParameters o Hr)
    as [(L1 & L2 & L3 & L4 & Z1 & Z2 & Z3 & Z4) M1].
  cbv zeta. destruct M1 as [M1 M2]. fold T.
  split; [exact M1|]. split; [exact M2|]. split; [exact Z1|].
  split; [exact Z2|]. split; [exact L1|]. split; [exact L3|].
  split; [|split].
  - intros Ho. rewrite M1. apply feqb_refl, Ho.
  - intros Ho. rewrite M2. apply feqb_refl, Ho.
  - intros Ho. rewrite Z1, Z2. split; apply feqb_refl, Ho.
Qed.

End SurfaceInvariant.

(** ** Advection indices, in exact arithmetic *)

Section AdvectionExact.
Variable c : OceanConstants R.
Variable ext : OceanExternals R.
Hypothesis samples : 0 < SamplesCount c.

Local Open Scope R_scope.

Lemma stdmax_bounds (a b : R) : a <= stdmax a b /\ b <= stdmax a b.
Proof.
  unfold stdmax; cbn. unfold Real.Rltb. destruct (Rlt_dec a b); lra.
Qed.

Lemma stdmin_bounds (a b : R) :
  stdmin a b <= a /\ stdmin a b <= b /\ (stdmin a b = a \/ stdmin a b = b).
Proof.
  unfold stdmin; cbn. unfold Real.Rltb. destruct (Rlt_dec b a); lra.
Qed.

(** The clamped index lies on the grid. *)
Lemma clamp_on_grid (x hi : R) :
  0 <= hi ->
  0 <= stdmin (stdmax fzero x) hi <= hi.
Proof.
  intros Hhi.
  destruct (stdmin_bounds (stdmax fzero x) hi) as (H1 & H2 & [E|E]);
    destruct (stdmax_bounds fzero x) as [H3 H4];
    change (@fzero R _) with (IZR 0) in *; rewrite E; lra.
Qed.

Lemma truncate_spec (x : R) :
  0 <= x ->
  (0 <= Real.truncate x)%Z /\
  IZR (Real.truncate x) <= x < IZR (Real.truncate x) + 1.
Proof.
  intros Hx. unfold Real.truncate. destruct (Rle_dec 0 x) as [_|N]; [|lra].
  destruct (base_Int_part x) as [H1 H2]. split; [|lra].
  apply Z.lt_succ_r, lt_IZR. rewrite succ_IZR. lra.
Qed.

Lemma PreviousCell_bounds_exact (i : Z) (v : R) :
  let '(prevCellIndexI, prevCellIndexF) := OceanSurface.PreviousCell c i v in
  (0 <= prevCellIndexI <= SWETotalSamples c - 1)%Z /\
  0 <= prevCellIndexF < 1.
Proof.
  pose proof (total_samples c) as HT.
  unfold OceanSurface.PreviousCell. cbv zeta.
  set (x := stdmin _ _).
  assert (Hx : 0 <= x <= IZR (SWETotalSamples c - 1)).
  { apply clamp_on_grid. apply IZR_le. lia. }
  destruct (truncate_spec x (proj1 Hx)) as [H0 [H1 H2]].
  change (FastTruncateInt32 x) with (Real.truncate x).
  change (f_of_Z (Real.truncate x)) with (IZR (Real.truncate x)).
  change (@fsub R _ ?a ?b) with (a - b).
  split; [split; [exact H0|]|lra].
  apply le_IZR. lra.
Qed.

End AdvectionExact.

(** ** Rounding on binary32

    What the advection indices need of the arithmetic of [SpecFloat]:
    the number of digits of a mantissa, the shifts of [shr_fexp], and the
    canonical form of what [binary_round_aux] returns. *)

Section Binary32Rounding.

Local Abbreviation fexp32 := (fexp 24 128).


























End Binary32Rounding.

(** ** Advection indices, on binary32 *)















Section AdvectionBounds.
Context `{LibM Binary32.float32}.
Variable c : OceanConstants Binary32.float32.
Variable ext : OceanExternals Binary32.float32.
Hypothesis samples : 0 < SamplesCount c.
Hypothesis representable : SWETotalSamples c <= 2 ^ 24.



End AdvectionBounds.

(** ** The external wave state machine, in exact arithmetic *)

Section WaveStateMachine.
Variable c : OceanConstants R.

Local Open Scope R_scope.

Implicit Types (m : SWEWaveStateMachine.t R).

Lemma stdmin_Rmin (a b : R) : stdmin a b = Rmin a b.
Proof.
  unfold stdmin, Rmin; cbn. unfold Real.Rltb.
  destruct (Rlt_dec b a), (Rle_dec a b); lra.
Qed.


(** The height on the quarter sine from the start height of the phase
    to its target height. *)
Definition sine_height (piv : R) m (p : R) : R :=
  SWEWaveStateMachine.mCurrentPhaseStartHeight m
  + (SWEWaveStateMachine.mCurrentPhaseTargetHeight m
     - SWEWaveStateMachine.mCurrentPhaseStartHeight m)
    * sin (piv / 2 * Rmin p 1).






Lemma sine_height_end m p :
  1 <= p -> sine_height PI m p = SWEWaveStateMachine.mCurrentPhaseTargetHeight m.
Proof.
  intros Hp. unfold sine_height. rewrite Rmin_right by lra.
  replace (PI / 2 * 1) with (PI / 2) by lra. rewrite sin_PI2. lra.
Qed.

End WaveStateMachine.


(** ** The sample runs *)






Lemma sample_surface_with_wave_reachable :
  OceanSurface.reachable_surface sample_ocean_constants sample_ocean_externals
    sample_surface_with_wave.
Proof.
  apply (OceanSurface.surface_adjusted _ _ sample_surface
           (Some (mk_vec2f 0%R 50%R)) 0%R).
  - apply OceanSurface.surface_made.
  - reflexivity.
Defined.

Lemma ocean_mirror_invariant_witness :
  0 < SamplesCount sample_ocean_constants /\
  let o' :=
    OceanSurface.Update sample_ocean_constants sample_ocean_externals
      (1 / 50)%R sample_wind sample_ocean_parameters sample_surface_with_wave in
  let H' := OceanSurface.mCurrentHeightField o' in
  let V' := OceanSurface.mCurrentVelocityField o' in
  rd H' 0 = rd H' 1 /\
  rd H' (SWETotalSamples sample_ocean_constants - 1)
    = rd H' (SWETotalSamples sample_ocean_constants - 2) /\
  rd V' 0 = fzero /\
  rd V' (SWETotalSamples sample_ocean_constants - 1) = fzero /\
  Z.of_nat (length H') = SWETotalSamples sample_ocean_constants + 1 /\
  Z.of_nat (length V') = SWETotalSamples sample_ocean_constants + 1 /\
  (ordered (rd H' 1) -> feqb (rd H' 0) (rd H' 1) = true) /\
  (ordered (rd H' (SWETotalSamples sample_ocean_constants - 2)) ->
   feqb (rd H' (SWETotalSamples sample_ocean_constants - 1))
        (rd H' (SWETotalSamples sample_ocean_constants - 2)) = true) /\
  (ordered (fzero : R) ->
   feqb (rd V' 0) fzero = true /\
   feqb (rd V' (SWETotalSamples sample_ocean_constants - 1)) fzero = true).
Proof.
  split; [reflexivity|].
  apply (ocean_mirror_invariant sample_ocean_constants sample_ocean_externals
           eq_refl).
  exact sample_surface_with_wave_reachable.
Defined.



(** On binary32: the previous cell of cell 3 for small, huge, infinite
    and NaN velocities, and the boundary conditions after one to four
    updates of a surface that is not flat. *)
Example previous_cell_on_binary32 :
  forallb
    (fun v => previous_cell_in_range sample_ocean_constants_b32
                (OceanSurface.PreviousCell sample_ocean_constants_b32 3 v))
    [ b32 0 1; b32 1 1; b32 (-1) 1; b32 1 3; b32 (-7) 3;
      b32 1000000 1; b32 (-1000000) 1;
      S754_infinity false; S754_infinity true; S754_nan ]
  = true.
Proof. vm_compute. reflexivity. Qed.

Example previous_cell_values_on_binary32 :
  fst (OceanSurface.PreviousCell sample_ocean_constants_b32 3 (b32 1 1)) = 2 /\
  fst (OceanSurface.PreviousCell sample_ocean_constants_b32 3 (b32 (-1) 1)) = 3 /\
  fst (OceanSurface.PreviousCell sample_ocean_constants_b32 3 (b32 1000000 1)) = 0 /\
  fst (OceanSurface.PreviousCell sample_ocean_constants_b32 3 (b32 (-1000000) 1)) = 9 /\
  fst (OceanSurface.PreviousCell sample_ocean_constants_b32 3 S754_nan) = 0.
Proof. vm_compute. repeat split. Qed.

Example boundary_conditions_on_binary32 :
  forallb
    (fun n => boundary_conditions_hold sample_ocean_constants_b32
                (sample_surface_b32_after n))
    [1; 2; 3; 4]%nat
  = true.
Proof. vm_compute. reflexivity. Qed.

(** * The game iteration under pause *)

Section GameIteration.
Implicit Types (g : GameController.t).

Lemma smoothers_loop g (l : list nat) :
  let g' :=
    fold_left (fun g ps => GameController.call (ParameterSmoother_Update ps) g)
              l g in
  GameController.mCalls g'
    = GameController.mCalls g ++ map ParameterSmoother_Update l /\
  GameController.mIsPaused g' = GameController.mIsPaused g /\
  GameController.mIsMoveToolEngaged g' = GameController.mIsMoveToolEngaged g /\
  GameController.mParameterSmoothers g' = GameController.mParameterSmoothers g /\
  GameController.mRenderStatsStarted g' = GameController.mRenderStatsStarted g /\
  GameController.mTotalFrameCount g' = GameController.mTotalFrameCount g /\
  GameController.mLastFrameCount g' = GameController.mLastFrameCount g.
Proof.
  revert g. induction l as [|ps l IH]; intros g; cbn.
  - rewrite app_nil_r. auto 10.
  - destruct (IH (GameController.call (ParameterSmoother_Update ps) g))
      as (E & E1 & E2 & E3 & E4 & E5 & E6).
    cbn in *. rewrite E, <- app_assoc. cbn. auto 10.
Qed.

(** The calls of the simulation update and of the render half of an
    iteration. *)
Definition update_calls g : list ControllerCall :=
  GameWallClock_Now
  :: map ParameterSmoother_Update (GameController.mParameterSmoothers g)
  ++ [World_Update; GameEventDispatcher_Flush; UpdateStateMachines].

Definition render_calls g : list ControllerCall :=
  (if GameController.mRenderStatsStarted g then [] else [PublishStats])
  ++ [SwapRenderBuffersFunction; InternalRender].

Lemma InternalUpdate_spec g :
  let g' := GameController.InternalUpdate g in
  GameController.mCalls g' = GameController.mCalls g ++ update_calls g /\
  GameController.mIsPaused g' = GameController.mIsPaused g /\
  GameController.mIsMoveToolEngaged g' = GameController.mIsMoveToolEngaged g /\
  GameController.mParameterSmoothers g' = GameController.mParameterSmoothers g /\
  GameController.mRenderStatsStarted g' = GameController.mRenderStatsStarted g /\
  GameController.mTotalFrameCount g' = GameController.mTotalFrameCount g /\
  GameController.mLastFrameCount g' = GameController.mLastFrameCount g.
Proof.
  unfold GameController.InternalUpdate. cbv zeta.
  destruct (smoothers_loop (GameController.call GameWallClock_Now g)
              (GameController.mParameterSmoothers
                 (GameController.call GameWallClock_Now g)))
    as (E & E1 & E2 & E3 & E4 & E5 & E6).
  cbn in *. rewrite E. unfold update_calls.
  rewrite <- !app_assoc. cbn. auto 10.
Qed.

Lemma calls_made_app g g' (k : list ControllerCall) :
  GameController.mCalls g' = GameController.mCalls g ++ k ->
  GameController.calls_made g g' = k.
Proof.
  intros E. unfold GameController.calls_made. rewrite E.
  now rewrite drop_app_length.
Qed.

(** What an iteration calls, by the pause and move-tool flags. *)
Lemma RunGameIteration_calls g :
  GameController.mCalls (GameController.RunGameIteration g)
  = GameController.mCalls g
    ++ (if negb (GameController.mIsPaused g)
           && negb (GameController.mIsMoveToolEngaged g)
        then update_calls g else [])
    ++ render_calls g.
Proof.
  unfold GameController.RunGameIteration, render_calls. cbv zeta.
  destruct (InternalUpdate_spec g) as (E & E1 & E2 & E3 & E4 & E5 & E6).
  cbv zeta in *.
  destruct (negb (GameController.mIsPaused g)
            && negb (GameController.mIsMoveToolEngaged g)).
  - set (gu := GameController.InternalUpdate g) in *. clearbody gu.
    destruct gu as [a b s r n k l]; cbn in *. subst.
    unfold update_calls.
    destruct (GameController.mRenderStatsStarted g); cbn;
      rewrite <- !app_assoc; cbn; rewrite <- ?app_assoc; reflexivity.
  - destruct (GameController.mRenderStatsStarted g); cbn;
      rewrite <- ?app_assoc; reflexivity.
Qed.

End GameIteration.

(** C4, as the code has it.  While the game is paused, a game iteration
    makes no call of the simulation update at all: no parameter smoother
    is updated, the world is not updated (so its simulation time stands
    still), the queued events are not flushed and the state machines are
    not updated.  The iteration only renders (publishing the stats on the
    first frame, swapping the buffers, rendering) and counts the frame:
    both frame counters go up by one, from zero when the render stats are
    first started, as 64-bit unsigned numbers.  It leaves the pause flag
    and the smoothers as they are. *)
Theorem paused_iteration_only_renders (g : GameController.t) :
  GameController.mIsPaused g = true ->
  let g' := GameController.RunGameIteration g in
  let made := GameController.calls_made g g' in
  made = render_calls g /\
  (forall ps, ParameterSmoother_Update ps ∉ made) /\
  (World_Update ∉ made) /\
  (GameEventDispatcher_Flush ∉ made) /\
  (UpdateStateMachines ∉ made) /\
  GameController.mIsPaused g' = true /\
  GameController.mParameterSmoothers g' = GameController.mParameterSmoothers g /\
  GameController.mRenderStatsStarted g' = true /\
  GameController.mTotalFrameCount g'
    = GameController.wrap64
        ((if GameController.mRenderStatsStarted g
          then GameController.mTotalFrameCount g else 0) + 1) /\
  GameController.mLastFrameCount g'
    = GameController.wrap64
        ((if GameController.mRenderStatsStarted g
          then GameController.mLastFrameCount g else 0) + 1).
Proof.
  intros Hp g' made.
  assert (E : made = render_calls g).
  { apply calls_made_app. unfold g'. rewrite RunGameIteration_calls, Hp.
    reflexivity. }
  split; [exact E|]. rewrite E. unfold render_calls.
  assert (Hnot : forall k,
    k <> PublishStats -> k <> SwapRenderBuffersFunction -> k <> InternalRender ->
    k ∉ (if GameController.mRenderStatsStarted g then [] else [PublishStats])
        ++ [SwapRenderBuffersFunction; InternalRender]).
  { intros k H1 H2 H3 Hin. apply elem_of_app in Hin as [Hin|Hin].
    - destruct (GameController.mRenderStatsStarted g).
      + now apply elem_of_nil in Hin.
      + apply list_elem_of_singleton in Hin. contradiction.
    - apply elem_of_cons in Hin as [Hin|Hin]; [contradiction|].
      apply list_elem_of_singleton in Hin. contradiction. }
  repeat match goal with |- _ /\ _ => split end;
    try (intros; apply Hnot; discriminate).
  - unfold g', GameController.RunGameIteration. rewrite Hp. cbn.
    destruct (GameController.mRenderStatsStarted g); cbn; exact Hp.
  - unfold g', GameController.RunGameIteration. rewrite Hp. cbn.
    destruct (GameController.mRenderStatsStarted g); reflexivity.
  - unfold g', GameController.RunGameIteration. rewrite Hp.
    cbn -[GameController.wrap64].
    destruct (GameController.mRenderStatsStarted g) eqn:Es;
      cbn -[GameController.wrap64]; rewrite ?Es; reflexivity.
  - unfold g', GameController.RunGameIteration. rewrite Hp.
    cbn -[GameController.wrap64].
    destruct (GameController.mRenderStatsStarted g) eqn:Es;
      cbn -[GameController.wrap64]; reflexivity.
  - unfold g', GameController.RunGameIteration. rewrite Hp.
    cbn -[GameController.wrap64].
    destruct (GameController.mRenderStatsStarted g) eqn:Es;
      cbn -[GameController.wrap64]; reflexivity.
Qed.

Lemma paused_iteration_only_renders_witness :
  GameController.mIsPaused sample_controller_paused = true /\
  let g' := GameController.RunGameIteration sample_controller_paused in
  let made := GameController.calls_made sample_controller_paused g' in
  made = render_calls sample_controller_paused /\
  (forall ps, ParameterSmoother_Update ps ∉ made) /\
  (World_Update ∉ made) /\
  (GameEventDispatcher_Flush ∉ made) /\
  (UpdateStateMachines ∉ made) /\
  GameController.mIsPaused g' = true /\
  GameController.mParameterSmoothers g'
    = GameController.mParameterSmoothers sample_controller_paused /\
  GameController.mRenderStatsStarted g' = true /\
  GameController.mTotalFrameCount g'
    = GameController.wrap64
        ((if GameController.mRenderStatsStarted sample_controller_paused
          then GameController.mTotalFrameCount sample_controller_paused else 0) + 1) /\
  GameController.mLastFrameCount g'
    = GameController.wrap64
        ((if GameController.mRenderStatsStarted sample_controller_paused
          then GameController.mLastFrameCount sample_controller_paused else 0) + 1).
Proof.
  split; [reflexivity|].
  apply (paused_iteration_only_renders sample_controller_paused). reflexivity.
Defined.

(** The first iteration of a controller that has just been paused: it
    has six parameter smoothers, and the iteration updates none of them
    and does not flush the events, where the iteration of the running
    controller does both. *)
Lemma paused_iteration_skips_smoothers_and_flush :
  GameController.mIsPaused sample_controller_paused = true /\
  GameController.mParameterSmoothers sample_controller_paused
    = [0; 1; 2; 3; 4; 5]%nat /\
  GameController.calls_made sample_controller_paused
    (GameController.RunGameIteration sample_controller_paused)
    = [PublishStats; SwapRenderBuffersFunction; InternalRender] /\
  GameController.calls_made sample_controller
    (GameController.RunGameIteration sample_controller)
    = [GameWallClock_Now;
       ParameterSmoother_Update 0; ParameterSmoother_Update 1;
       ParameterSmoother_Update 2; ParameterSmoother_Update 3;
       ParameterSmoother_Update 4; ParameterSmoother_Update 5;
       World_Update; GameEventDispatcher_Flush; UpdateStateMachines;
       PublishStats; SwapRenderBuffersFunction; InternalRender].
Proof. repeat split. Qed.

(** * Further properties of the ocean surface *)

Lemma rd_replicate {A : Type} `{Inhabited A} (n : nat) (x : A) (i : Z) :
  0 <= i < Z.of_nat n -> rd (replicate n x) i = x.
Proof.
  intros Hi. unfold rd. apply list_lookup_total_correct.
  apply lookup_replicate_2. lia.
Qed.

Lemma wr_replicate {A : Type} (n : nat) (x : A) (i : Z) :
  wr (replicate n x) i x = replicate n x.
Proof. unfold wr. apply insert_replicate. Qed.

(** A loop that writes [g j] into cell [j], for the [j] of a list. *)
Lemma fold_wr_length {A : Type} (g : Z -> A) (l : list Z) : forall buf,
  length (fold_left (fun b j => wr b j (g j)) l buf) = length buf.
Proof.
  induction l as [|j l IH]; intros buf; cbn; [reflexivity|].
  now rewrite IH, wr_length.
Qed.

Lemma fold_wr_rd {A : Type} `{Inhabited A} (g : Z -> A) (l : list Z) :
  Forall (fun j => 0 <= j) l ->
  forall buf i, 0 <= i ->
    rd (fold_left (fun b j => wr b j (g j)) l buf) i =
    if decide (i ∈ l /\ i < Z.of_nat (length buf)) then g i else rd buf i.
Proof.
  induction l as [|j l IH]; intros Hl buf i Hi; cbn [fold_left].
  - destruct (decide _) as [[Hin _]|_]; [|reflexivity].
    now apply elem_of_nil in Hin.
  - apply Forall_cons in Hl as [Hj Hl].
    rewrite (IH Hl) by assumption. rewrite wr_length, (rd_wr buf j i) by assumption.
    destruct (decide (i ∈ l /\ _)) as [[Hin Hlt]|Hn].
    + destruct (decide (i ∈ j :: l /\ _)) as [_|N]; [reflexivity|].
      exfalso. apply N. split; [apply elem_of_cons; now right|assumption].
    + destruct (decide (j = i /\ _)) as [[-> Hlt]|Hn'].
      * destruct (decide (i ∈ i :: l /\ _)) as [_|N]; [reflexivity|].
        exfalso. apply N. split; [apply elem_of_cons; now left|assumption].
      * destruct (decide (i ∈ j :: l /\ _)) as [[Hin Hlt]|_]; [|reflexivity].
        exfalso. apply elem_of_cons in Hin as [->|Hin]; [apply Hn'|apply Hn]; auto.
Qed.

Lemma fold_wr_fill {A : Type} `{Inhabited A} (x : A) (n : nat) (buf : list A) :
  length buf = n ->
  fold_left (fun b j => wr b j x) (seqZ 0 (Z.of_nat n)) buf = replicate n x.
Proof.
  intros Hlen. apply list_eq_same_length with n.
  - apply length_replicate.
  - etransitivity; [apply (fold_wr_length (fun _ => x))|exact Hlen].
  - intros k a b Hk Ha Hb.
    apply lookup_replicate in Hb as [-> _].
    apply list_lookup_total_correct in Ha.
    assert (Hall : Forall (fun j => 0 <= j) (seqZ 0 (Z.of_nat n))).
    { apply Forall_forall. intros j Hj. apply elem_of_seqZ in Hj. lia. }
    pose proof (fold_wr_rd (fun _ => x) _ Hall buf (Z.of_nat k) ltac:(lia)) as E.
    cbv beta in E. unfold rd in E. rewrite Nat2Z.id, Ha in E.
    destruct (decide _) as [_|N]; [exact E|].
    exfalso. apply N. split; [apply elem_of_seqZ|]; lia.
Qed.

(** The four buffers of the constructed surface, cell by cell. *)
Lemma Make_buffers {F : Type} `{FloatOps F} (c' : OceanConstants F)
    (ext' : OceanExternals F) :
  0 <= SWETotalSamples c' + 1 ->
  let n := Z.to_nat (SWETotalSamples c' + 1) in
  let o := OceanSurface.Make c' ext' in
  OceanSurface.mCurrentHeightField o = replicate n SWEHeightFieldOffset /\
  OceanSurface.mNextHeightField o = replicate n SWEHeightFieldOffset /\
  OceanSurface.mCurrentVelocityField o = replicate n fzero /\
  OceanSurface.mNextVelocityField o = replicate n fzero /\
  OceanSurface.mSWEExternalWaveStateMachine o = None.
Proof.
  intros Hn n o. subst o. unfold OceanSurface.Make.
  set (o0 := OceanSurface.Build_t _ _ _ _ _ _ _ _).
  set (step := fun o i => OceanSurface.Build_t _ _ _ _ _ _ _ _).
  assert (Hproj : forall l o,
    OceanSurface.mCurrentHeightField (fold_left step l o)
      = fold_left (fun b j => wr b j SWEHeightFieldOffset) l
          (OceanSurface.mCurrentHeightField o) /\
    OceanSurface.mNextHeightField (fold_left step l o)
      = fold_left (fun b j => wr b j SWEHeightFieldOffset) l
          (OceanSurface.mNextHeightField o) /\
    OceanSurface.mCurrentVelocityField (fold_left step l o)
      = fold_left (fun b j => wr b j fzero) l
          (OceanSurface.mCurrentVelocityField o) /\
    OceanSurface.mNextVelocityField (fold_left step l o)
      = fold_left (fun b j => wr b j fzero) l
          (OceanSurface.mNextVelocityField o) /\
    OceanSurface.mSWEExternalWaveStateMachine (fold_left step l o)
      = OceanSurface.mSWEExternalWaveStateMachine o).
  { induction l as [|i l IH]; intros o; cbn [fold_left]; [auto 10|].
    destruct (IH (step o i)) as (E1 & E2 & E3 & E4 & E5).
    rewrite E1, E2, E3, E4, E5. unfold step; cbn. auto 10. }
  destruct (Hproj (seqZ 0 (SWETotalSamples c' + 1)) o0) as (E1 & E2 & E3 & E4 & E5).
  rewrite E1, E2, E3, E4, E5. unfold o0; cbn.
  assert (Hn' : SWETotalSamples c' + 1 = Z.of_nat n) by (subst n; lia).
  clearbody n. rewrite Hn'.
  rewrite !fold_wr_fill
    by (unfold OceanSurface.new_array; rewrite length_replicate; lia).
  auto 10.
Qed.

(** ** Still water *)

Section StillWater.
Variable c : OceanConstants R.
Variable ext : OceanExternals R.
Hypothesis samples : 0 < SamplesCount c.

Local Open Scope R_scope.

(** A surface at rest at level [h]: every cell of both height buffers
    holds [h], every cell of both velocity buffers holds zero, and no
    external wave is being advanced. *)
Definition still (h : R) (o : OceanSurface.t R) : Prop :=
  OceanSurface.mCurrentHeightField o
    = replicate (Z.to_nat (SWETotalSamples c + 1)) h /\
  OceanSurface.mNextHeightField o
    = replicate (Z.to_nat (SWETotalSamples c + 1)) h /\
  OceanSurface.mCurrentVelocityField o
    = replicate (Z.to_nat (SWETotalSamples c + 1)) 0 /\
  OceanSurface.mNextVelocityField o
    = replicate (Z.to_nat (SWETotalSamples c + 1)) 0 /\
  OceanSurface.mSWEExternalWaveStateMachine o = None.

Lemma still_height_step h o i v :
  still h o ->
  let '(prevCellIndexI, prevCellIndexF) := OceanSurface.PreviousCell c i v in
  (fone - prevCellIndexF) * rd (OceanSurface.mCurrentHeightField o) prevCellIndexI
  + prevCellIndexF * rd (OceanSurface.mCurrentHeightField o) (prevCellIndexI + 1)
  = h.
Proof.
  intros (E1 & _). pose proof (total_samples c) as HT.
  pose proof (PreviousCell_bounds_exact c samples i v) as Hb.
  destruct (OceanSurface.PreviousCell c i v) as [I Fr]. destruct Hb as [HI _].
  rewrite E1, !rd_replicate by lia.
  change (@fone R _) with (IZR 1). ring.
Qed.

Lemma still_velocity_step h o i v :
  still h o ->
  let '(prevCellIndexI, prevCellIndexF) := OceanSurface.PreviousCell c i v in
  (fone - prevCellIndexF) * rd (OceanSurface.mCurrentVelocityField o) prevCellIndexI
  + prevCellIndexF * rd (OceanSurface.mCurrentVelocityField o) (prevCellIndexI + 1)
  = 0.
Proof.
  intros (_ & _ & E3 & _). pose proof (total_samples c) as HT.
  pose proof (PreviousCell_bounds_exact c samples i v) as Hb.
  destruct (OceanSurface.PreviousCell c i v) as [I Fr]. destruct Hb as [HI _].
  rewrite E3, !rd_replicate by lia. ring.
Qed.

Lemma still_eta h o :
  still h o ->
  forall o',
    OceanSurface.mSamples o' = OceanSurface.mSamples o ->
    OceanSurface.mCurrentHeightField o' = OceanSurface.mCurrentHeightField o ->
    OceanSurface.mNextHeightField o' = OceanSurface.mNextHeightField o ->
    OceanSurface.mCurrentVelocityField o' = OceanSurface.mCurrentVelocityField o ->
    OceanSurface.mNextVelocityField o' = OceanSurface.mNextVelocityField o ->
    OceanSurface.mSWEExternalWaveStateMachine o'
      = OceanSurface.mSWEExternalWaveStateMachine o ->
    OceanSurface.mWindIncisivenessRunningAverage o'
      = OceanSurface.mWindIncisivenessRunningAverage o ->
    o' = o.
Proof.
  intros _ o'. destruct o, o'; cbn. intros; subst; reflexivity.
Qed.

Lemma AdvectHeightField_still h o :
  still h o -> OceanSurface.AdvectHeightField c o = o.
Proof.
  intros Hs. unfold OceanSurface.AdvectHeightField.
  apply (fold_left_invariant (fun o' => o' = o)); [|reflexivity].
  intros o' i _ ->. cbv zeta.
  pose proof (still_height_step h o i
                ((rd (OceanSurface.mCurrentVelocityField o) i
                  + rd (OceanSurface.mCurrentVelocityField o) (i + 1))
                 / f_of_Z 2)%flt Hs) as E.
  destruct (OceanSurface.PreviousCell c i _) as [I Fr].
  change (fadd (fmul (fsub fone Fr) ?a) (fmul Fr ?b))
    with ((fone - Fr) * a + Fr * b).
  rewrite E. destruct Hs as (E1 & E2 & E3 & E4 & E5).
  apply (still_eta h o (conj E1 (conj E2 (conj E3 (conj E4 E5))))); try reflexivity.
  cbn. rewrite E2. apply wr_replicate.
Qed.

Lemma AdvectVelocityField_still h o :
  still h o -> OceanSurface.AdvectVelocityField c o = o.
Proof.
  intros Hs. unfold OceanSurface.AdvectVelocityField.
  apply (fold_left_invariant (fun o' => o' = o)); [|reflexivity].
  intros o' i _ ->. cbv zeta.
  pose proof (still_velocity_step h o i
                (rd (OceanSurface.mCurrentVelocityField o) i) Hs) as E.
  destruct (OceanSurface.PreviousCell c i _) as [I Fr].
  change (fadd (fmul (fsub fone Fr) ?a) (fmul Fr ?b))
    with ((fone - Fr) * a + Fr * b).
  rewrite E. destruct Hs as (E1 & E2 & E3 & E4 & E5).
  apply (still_eta h o (conj E1 (conj E2 (conj E3 (conj E4 E5))))); try reflexivity.
  cbn. rewrite E4. apply wr_replicate.
Qed.

Lemma UpdateHeightField_still h o :
  still h o -> OceanSurface.UpdateHeightField c o = o.
Proof.
  intros Hs. pose proof (total_samples c) as HT.
  unfold OceanSurface.UpdateHeightField.
  apply (fold_left_invariant (fun o' => o' = o)); [|reflexivity].
  intros o' i Hi ->. apply (inner_cells_spec c) in Hi.
  pose proof Hs as (E1 & E2 & E3 & E4 & E5).
  apply (still_eta h o Hs); try reflexivity.
  cbn. rewrite E2, E4, !rd_replicate by lia.
  match goal with |- wr _ _ ?v = _ => replace v with h end.
  - apply wr_replicate.
  - change (h = h - h * (0 - 0) / Dx c * SimulationStepTimeDuration c).
    unfold Rdiv. ring.
Qed.

Lemma UpdateVelocityField_still h o :
  still h o -> OceanSurface.UpdateVelocityField c o = o.
Proof.
  intros Hs. pose proof (total_samples c) as HT.
  unfold OceanSurface.UpdateVelocityField.
  apply (fold_left_invariant (fun o' => o' = o)); [|reflexivity].
  intros o' i Hi ->. apply (inner_cells_spec c) in Hi.
  pose proof Hs as (E1 & E2 & E3 & E4 & E5).
  apply (still_eta h o Hs); try reflexivity.
  cbn. rewrite E2, E4, !rd_replicate by lia.
  match goal with |- wr _ _ ?v = _ => replace v with 0 end.
  - apply wr_replicate.
  - change (0 = 0 + GravityMagnitude c * (h - h) / Dx c * SimulationStepTimeDuration c).
    unfold Rdiv. ring.
Qed.

Lemma SetBoundaryConditions_still h o :
  still h o -> OceanSurface.SetBoundaryConditions c o = o.
Proof.
  intros Hs. pose proof (total_samples c) as HT.
  unfold OceanSurface.SetBoundaryConditions.
  change (seqZ 0 SWEBoundaryConditionsSamples) with [0%Z]. cbn [fold_left].
  cbv zeta. pose proof Hs as (E1 & E2 & E3 & E4 & E5).
  apply (still_eta h o Hs); try reflexivity.
  cbn. unfold SWEBoundaryConditionsSamples. rewrite E2.
  rewrite (rd_replicate _ h (0 + 1)) by lia. rewrite wr_replicate.
  rewrite rd_replicate by lia. apply wr_replicate.
Qed.

Lemma Update_still h o t wind gp :
  still h o -> still h (OceanSurface.Update c ext t wind gp o).
Proof.
  intros Hs. unfold OceanSurface.Update. cbv zeta.
  assert (E0 : OceanSurface.AdvanceWaves c t o = o).
  { unfold OceanSurface.AdvanceWaves.
    destruct Hs as (_ & _ & _ & _ & ->). reflexivity. }
  rewrite E0, (AdvectHeightField_still h o Hs),
    (AdvectVelocityField_still h o Hs), (UpdateHeightField_still h o Hs),
    (UpdateVelocityField_still h o Hs), (SetBoundaryConditions_still h o Hs).
  destruct (GenerateSamples_fields c ext t wind gp (OceanSurface.swap_fields o))
    as (G1 & G2 & G3 & G4 & G5).
  destruct Hs as (E1 & E2 & E3 & E4 & E5).
  unfold still. rewrite G1, G2, G3, G4, G5. cbn. auto.
Qed.

Lemma Make_still : still SWEHeightFieldOffset (OceanSurface.Make c ext).
Proof.
  pose proof (total_samples c) as HT.
  assert (Hn : (0 <= SWETotalSamples c + 1)%Z) by lia.
  exact (Make_buffers c ext Hn).
Qed.

End StillWater.

(** X1.  Still water stays still: on a surface whose height buffers hold
    the same level in every cell, whose velocity buffers are zero and which
    has no external wave, any number of updates, whatever the time, wind
    and parameters, leaves all four buffers as they are.  The constructed
    surface is such a surface, at level 100.  (Exact arithmetic.) *)
Theorem still_water_stays_still (c : OceanConstants R) (ext : OceanExternals R)
    (h : R) (o : OceanSurface.t R)
    (updates : list (R * Wind R * GameParameters R)) :
  0 < SamplesCount c ->
  still c h o ->
  still c h
    (fold_left
       (fun o u => OceanSurface.Update c ext (fst (fst u)) (snd (fst u)) (snd u) o)
       updates o).
Proof.
  intros Hc. revert o. induction updates as [|u updates IH]; intros o Hs; cbn.
  - exact Hs.
  - apply IH. now apply Update_still.
Qed.

Lemma still_water_stays_still_witness :
  0 < SamplesCount sample_ocean_constants /\
  still sample_ocean_constants 100%R
    (fold_left
       (fun o u =>
          OceanSurface.Update sample_ocean_constants sample_ocean_externals
            (fst (fst u)) (snd (fst u)) (snd u) o)
       [ ((1 / 50)%R, sample_wind, sample_ocean_parameters);
         ((2 / 50)%R, sample_wind, sample_ocean_parameters) ]
       sample_surface).
Proof.
  split; [reflexivity|].
  apply still_water_stays_still; [reflexivity|].
  apply (Make_still sample_ocean_constants sample_ocean_externals). reflexivity.
Defined.

(** ** The life of an external wave *)

Section WaveLifecycle.
Context {F : Type} `{FloatOps F} `{LibM F}.
Variable c : OceanConstants F.
Implicit Types (m : SWEWaveStateMachine.t F).

(** The machines that the constructor, [Update], [Restart] and [Release]
    produce from a wave started on sample [i] at height [low] with release
    mode [mode]. *)
Inductive wave_run (i : Z) (low : F) (mode : ReleaseModeType)
    : SWEWaveStateMachine.t F -> Prop :=
| wave_made targetHeight currentSimulationTime :
    wave_run i low mode
      (SWEWaveStateMachine.Make c i low targetHeight mode currentSimulationTime)
| wave_updated m currentSimulationTime :
    wave_run i low mode m ->
    wave_run i low mode (snd (SWEWaveStateMachine.Update c currentSimulationTime m))
| wave_restarted m restartHeight currentSimulationTime :
    wave_run i low mode m ->
    wave_run i low mode
      (SWEWaveStateMachine.Restart c restartHeight currentSimulationTime m)
| wave_released m currentSimulationTime :
    wave_run i low mode m ->
    wave_run i low mode (SWEWaveStateMachine.Release c currentSimulationTime m).

(** X3.  However a wave is updated, restarted and released, it stays on
    the sample it was started on, keeps its release mode and remembers the
    height the water had when it was started; and whenever it is in its
    Fall phase, the height it falls toward is that remembered height. *)
Theorem wave_falls_back_to_its_low_height i low mode m :
  wave_run i low mode m ->
  SWEWaveStateMachine.mSampleIndex m = i /\
  SWEWaveStateMachine.mLowHeight m = low /\
  SWEWaveStateMachine.mReleaseMode m = mode /\
  (SWEWaveStateMachine.mCurrentWavePhase m = Fall ->
   SWEWaveStateMachine.mCurrentPhaseTargetHeight m = low).
Proof.
  induction 1 as [target t0|m t _ IH|m h t _ IH|m t _ IH].
  - cbn. repeat split. discriminate.
  - destruct IH as (I1 & I2 & I3 & I4).
    unfold SWEWaveStateMachine.Update. cbv zeta.
    destruct (fltb (SWEWaveStateMachine.mCurrentProgress m) fone);
      cbn [SWEWaveStateMachine.mCurrentProgress
           SWEWaveStateMachine.set_mCurrentProgress
           SWEWaveStateMachine.set_mCurrentHeight
           SWEWaveStateMachine.mCurrentWavePhase
           SWEWaveStateMachine.mReleaseMode];
      match goal with |- context [if ?b then _ else _] => destruct b end;
      try (destruct (SWEWaveStateMachine.mCurrentWavePhase m) eqn:Ephase;
           try destruct (SWEWaveStateMachine.mReleaseMode m) eqn:Emode);
      cbn; rewrite ?Ephase; repeat split; auto; try discriminate; congruence.
  - destruct IH as (I1 & I2 & I3 & I4). cbn. repeat split; auto. discriminate.
  - destruct IH as (I1 & I2 & I3 & I4). unfold SWEWaveStateMachine.Release.
    destruct (SWEWaveStateMachine.mCurrentWavePhase m) eqn:Ephase; cbn;
      rewrite ?Ephase; repeat split; auto.
Qed.

End WaveLifecycle.

Lemma wave_falls_back_to_its_low_height_witness :
  let m :=
    SWEWaveStateMachine.Release sample_ocean_constants 1%R
      (snd (SWEWaveStateMachine.Update sample_ocean_constants (3 / 4)%R
              (SWEWaveStateMachine.Restart sample_ocean_constants 102%R (1 / 2)%R
                 sample_wave))) in
  SWEWaveStateMachine.mSampleIndex m = 3 /\
  SWEWaveStateMachine.mLowHeight m = 100%R /\
  SWEWaveStateMachine.mReleaseMode m = OnCue /\
  (SWEWaveStateMachine.mCurrentWavePhase m = Fall ->
   SWEWaveStateMachine.mCurrentPhaseTargetHeight m = 100%R).
Proof.
  apply (wave_falls_back_to_its_low_height sample_ocean_constants 3 100%R OnCue).
  apply wave_released, wave_updated, wave_restarted.
  exact (wave_made sample_ocean_constants 3 100%R OnCue 101%R 0%R).
Defined.

Section WaveEnd.
Context {F : Type} `{FloatOps F} `{LibM F} `{!FloatOrder F}.
Variable c : OceanConstants F.
Variable ext : OceanExternals F.
Implicit Types (o : OceanSurface.t F) (m : SWEWaveStateMachine.t F).

(** The steps of [Update] after the second leave the state machine
    alone. *)
Lemma Update_machine t wind gp o :
  OceanSurface.mSWEExternalWaveStateMachine (OceanSurface.Update c ext t wind gp o)
  = OceanSurface.mSWEExternalWaveStateMachine (OceanSurface.AdvanceWaves c t o).
Proof.
  unfold OceanSurface.Update. cbv zeta.
  destruct (GenerateSamples_fields c ext t wind gp
              (OceanSurface.swap_fields
                 (OceanSurface.SetBoundaryConditions c
                    (OceanSurface.UpdateVelocityField c
                       (OceanSurface.UpdateHeightField c
                          (OceanSurface.AdvectVelocityField c
                             (OceanSurface.AdvectHeightField c
                                (OceanSurface.AdvanceWaves c t o))))))))
    as (_ & _ & _ & _ & ->).
  cbn [OceanSurface.swap_fields OceanSurface.mSWEExternalWaveStateMachine].
  unfold OceanSurface.SetBoundaryConditions, OceanSurface.UpdateVelocityField,
    OceanSurface.UpdateHeightField, OceanSurface.AdvectVelocityField,
    OceanSurface.AdvectHeightField.
  rewrite !(fold_left_preserves _ OceanSurface.mSWEExternalWaveStateMachine);
    try reflexivity;
    intros a b; cbv zeta; try destruct (OceanSurface.PreviousCell c b _);
    reflexivity.
Qed.

(** A machine that [Release] has stopped: in its Fall phase, with the
    progress set to one. *)
Lemma Update_stopped m t :
  ordered (fone : F) ->
  SWEWaveStateMachine.mCurrentWavePhase m = Fall ->
  SWEWaveStateMachine.mCurrentProgress m = fone ->
  fst (SWEWaveStateMachine.Update c t m) = None.
Proof.
  intros Hone Hphase Hprog. unfold SWEWaveStateMachine.Update. cbv zeta.
  rewrite Hprog, fltb_irrefl.
  cbn [SWEWaveStateMachine.mCurrentProgress SWEWaveStateMachine.set_mCurrentHeight
       SWEWaveStateMachine.mCurrentWavePhase].
  rewrite Hprog, Hphase. unfold fgeb. rewrite Hone. reflexivity.
Qed.

(** X4.  Releasing a wave that is already falling stops it: [AdjustTo]
    without coordinates succeeds, and the next [Update] of the surface,
    whatever its arguments, gets no height from the machine, drops the
    machine, and writes nothing into the height field on its behalf. *)
Theorem release_during_fall_ends_the_wave o m now :
  ordered (fone : F) ->
  OceanSurface.mSWEExternalWaveStateMachine o = Some m ->
  SWEWaveStateMachine.mCurrentWavePhase m = Fall ->
  exists o1,
    OceanSurface.AdjustTo c None now o = Some o1 /\
    forall t wind gp,
      fst (SWEWaveStateMachine.Update c t (SWEWaveStateMachine.Release c now m))
        = None /\
      OceanSurface.AdvanceWaves c t o1
        = OceanSurface.set_mSWEExternalWaveStateMachine None o1 /\
      OceanSurface.mSWEExternalWaveStateMachine
        (OceanSurface.Update c ext t wind gp o1) = None.
Proof.
  intros Hone Hm Hphase. eexists. split.
  { unfold OceanSurface.AdjustTo. rewrite Hm. reflexivity. }
  intros t wind gp.
  assert (Hstop : fst (SWEWaveStateMachine.Update c t
                         (SWEWaveStateMachine.Release c now m)) = None).
  { unfold SWEWaveStateMachine.Release. rewrite Hphase.
    apply Update_stopped; [exact Hone|exact Hphase|reflexivity]. }
  assert (Hadv : OceanSurface.AdvanceWaves c t
                   (OceanSurface.set_mSWEExternalWaveStateMachine
                      (Some (SWEWaveStateMachine.Release c now m)) o)
                 = OceanSurface.set_mSWEExternalWaveStateMachine None
                     (OceanSurface.set_mSWEExternalWaveStateMachine
                        (Some (SWEWaveStateMachine.Release c now m)) o)).
  { unfold OceanSurface.AdvanceWaves.
    cbn [OceanSurface.mSWEExternalWaveStateMachine
         OceanSurface.set_mSWEExternalWaveStateMachine].
    destruct (SWEWaveStateMachine.Update c t (SWEWaveStateMachine.Release c now m))
      as [[h|] m']; cbn in Hstop; [discriminate|reflexivity]. }
  split; [exact Hstop|]. split; [exact Hadv|].
  rewrite Update_machine, Hadv. reflexivity.
Qed.

End WaveEnd.

Lemma release_during_fall_ends_the_wave_witness :
  ordered (fone : R) /\
  OceanSurface.mSWEExternalWaveStateMachine sample_surface_falling
    = Some sample_wave_falling /\
  SWEWaveStateMachine.mCurrentWavePhase sample_wave_falling = Fall /\
  exists o1,
    OceanSurface.AdjustTo sample_ocean_constants None 2%R sample_surface_falling
      = Some o1 /\
    forall t wind gp,
      fst (SWEWaveStateMachine.Update sample_ocean_constants t
             (SWEWaveStateMachine.Release sample_ocean_constants 2%R
                sample_wave_falling)) = None /\
      OceanSurface.AdvanceWaves sample_ocean_constants t o1
        = OceanSurface.set_mSWEExternalWaveStateMachine None o1 /\
      OceanSurface.mSWEExternalWaveStateMachine
        (OceanSurface.Update sample_ocean_constants sample_ocean_externals
           t wind gp o1) = None.
Proof.
  assert (Hone : ordered (fone : R)).
  { apply Rleb_true. apply Rle_refl. }
  split; [exact Hone|]. split; [reflexivity|]. split; [reflexivity|].
  apply (release_during_fall_ends_the_wave sample_ocean_constants
           sample_ocean_externals sample_surface_falling sample_wave_falling
           2%R Hone); reflexivity.
Defined.

(** ** Holding and timing of a wave *)

Lemma stdmax_Rmax (a b : R) : stdmax a b = Rmax a b.
Proof.
  unfold stdmax, Rmax; cbn. unfold Real.Rltb.
  destruct (Rlt_dec a b), (Rle_dec a b); lra.
Qed.

(** X5.  A wave that is released on cue holds its crest: once the
    progress of its Rise is no longer below 1 (and is not a NaN),
    [Update], at whatever time, leaves the progress alone, returns the
    height [start + (target - start) * sin(pi / 2 * min(progress, 1))]
    and changes nothing of the machine but the current height, which it
    sets to that height; every later [Update] returns the same height and
    leaves the machine as it is.  (Any float arithmetic.) *)
Theorem on_cue_wave_holds_its_crest {F : Type} `{FloatOps F} `{LibM F}
    (c : OceanConstants F) (m : SWEWaveStateMachine.t F) (now : F) :
  SWEWaveStateMachine.mCurrentWavePhase m = Rise ->
  SWEWaveStateMachine.mReleaseMode m = OnCue ->
  fltb (SWEWaveStateMachine.mCurrentProgress m) fone = false ->
  fgeb (SWEWaveStateMachine.mCurrentProgress m) fone = true ->
  let crest :=
    (SWEWaveStateMachine.mCurrentPhaseStartHeight m
     + (SWEWaveStateMachine.mCurrentPhaseTargetHeight m
        - SWEWaveStateMachine.mCurrentPhaseStartHeight m)
       * sinf (Pi c / f_of_Z 2
               * stdmin (SWEWaveStateMachine.mCurrentProgress m) fone))%flt in
  let held := SWEWaveStateMachine.set_mCurrentHeight crest m in
  SWEWaveStateMachine.Update c now m = (Some crest, held) /\
  (forall later, SWEWaveStateMachine.Update c later held = (Some crest, held)).
Proof.
  intros Hphase Hmode Hlt Hge crest held.
  assert (Hupd : forall t m',
            SWEWaveStateMachine.mCurrentWavePhase m' = Rise ->
            SWEWaveStateMachine.mReleaseMode m' = OnCue ->
            SWEWaveStateMachine.mCurrentProgress m'
              = SWEWaveStateMachine.mCurrentProgress m ->
            SWEWaveStateMachine.mCurrentPhaseStartHeight m'
              = SWEWaveStateMachine.mCurrentPhaseStartHeight m ->
            SWEWaveStateMachine.mCurrentPhaseTargetHeight m'
              = SWEWaveStateMachine.mCurrentPhaseTargetHeight m ->
            SWEWaveStateMachine.Update c t m'
              = (Some crest, SWEWaveStateMachine.set_mCurrentHeight crest m')).
  { intros t m' E1 E2 E3 E4 E5. unfold SWEWaveStateMachine.Update. cbv zeta.
    rewrite !E3, !Hlt.
    cbn [SWEWaveStateMachine.mCurrentProgress
         SWEWaveStateMachine.set_mCurrentHeight
         SWEWaveStateMachine.mCurrentWavePhase
         SWEWaveStateMachine.mReleaseMode
         SWEWaveStateMachine.mCurrentHeight].
    rewrite E3, Hge, E1, E2, E4, E5. reflexivity. }
  split.
  - apply Hupd; trivial.
  - intros later. rewrite (Hupd later held); trivial.
Qed.

Lemma on_cue_wave_holds_its_crest_witness :
  let m :=
    SWEWaveStateMachine.set_mCurrentProgress 1%R sample_wave in
  let held := SWEWaveStateMachine.set_mCurrentHeight 101%R m in
  SWEWaveStateMachine.mCurrentWavePhase m = Rise /\
  SWEWaveStateMachine.mReleaseMode m = OnCue /\
  SWEWaveStateMachine.Update sample_ocean_constants 7%R m
    = (Some 101%R, held) /\
  SWEWaveStateMachine.Update sample_ocean_constants 9%R held
    = (Some 101%R, held).
Proof.
  intros m held.
  split; [reflexivity|]. split; [reflexivity|].
  assert (Hlt : fltb (SWEWaveStateMachine.mCurrentProgress m) fone = false).
  { apply Rltb_false. cbn. lra. }
  assert (Hge : fgeb (SWEWaveStateMachine.mCurrentProgress m) fone = true).
  { apply Rleb_true. cbn. lra. }
  destruct (on_cue_wave_holds_its_crest sample_ocean_constants m 7%R
              eq_refl eq_refl Hlt Hge) as [E1 E2].
  assert (Ec : (SWEWaveStateMachine.mCurrentPhaseStartHeight m
                + (SWEWaveStateMachine.mCurrentPhaseTargetHeight m
                   - SWEWaveStateMachine.mCurrentPhaseStartHeight m)
                  * sinf (Pi sample_ocean_constants / f_of_Z 2
                          * stdmin (SWEWaveStateMachine.mCurrentProgress m) fone))%flt
               = 101%R).
  { rewrite stdmin_Rmin. exact (sine_height_end m 1%R (Rle_refl 1)). }
  cbv zeta in E1, E2. rewrite Ec in E1, E2.
  split; [exact E1|exact (E2 9%R)].
Defined.

(** X6.  The delay computed for a phase is at least one simulation step
    and is bounded: at most 221 steps for a Rise and at most 14 steps for a
    Fall, whatever the heights.  So the progress of a phase is never
    computed by a division by zero.  (Exact arithmetic.) *)
Theorem smoothing_delay_is_bounded (c : OceanConstants R)
    (m : SWEWaveStateMachine.t R) :
  (0 < SimulationStepTimeDuration c)%R ->
  let delay := SWEWaveStateMachine.CalculateSmoothingDelay c m in
  (SimulationStepTimeDuration c <= delay)%R /\
  (SWEWaveStateMachine.mCurrentWavePhase m = Rise ->
   (delay <= 221 * SimulationStepTimeDuration c)%R) /\
  (SWEWaveStateMachine.mCurrentWavePhase m = Fall ->
   (delay <= 14 * SimulationStepTimeDuration c)%R).
Proof.
  intros Hdt delay. subst delay.
  unfold SWEWaveStateMachine.CalculateSmoothingDelay. cbv zeta.
  set (deltaH := stdmin _ _).
  rewrite stdmax_Rmax.
  change (@fone R _) with 1%R.
  change (fmul ?a ?b) with (a * b)%R.
  split; [|split].
  - match goal with |- (_ <= Rmax ?a 1 * _)%R => pose proof (Rmax_r a 1) end.
    nra.
  - intros ->. apply Rmult_le_compat_r; [lra|]. apply Rmax_lub; [|lra].
    unfold lit. cbn [f_of_Z fadd fsub fmul fdiv Real.ops expf Real.libm].
    pose proof (exp_pos (-6126081 / 10000000 * deltaH)) as He.
    assert (Hk : (0 < 147403 / 1000 / (6126081 / 10000000) < 240.7)%R) by (split; lra).
    nra.
  - intros ->. apply Rmult_le_compat_r; [lra|]. apply Rmax_lub; [|lra].
    unfold lit. cbn [f_of_Z fadd fsub fmul fdiv Real.ops expf Real.libm].
    pose proof (exp_pos (-6485749 / 10000000 * deltaH)) as He.
    assert (Hk : (0 < 78394 / 10000 / (6485749 / 10000000) < 12.1)%R) by (split; lra).
    nra.
Qed.

Lemma smoothing_delay_is_bounded_witness :
  (0 < SimulationStepTimeDuration sample_ocean_constants)%R /\
  let delay :=
    SWEWaveStateMachine.CalculateSmoothingDelay sample_ocean_constants sample_wave in
  (SimulationStepTimeDuration sample_ocean_constants <= delay)%R /\
  (SWEWaveStateMachine.mCurrentWavePhase sample_wave = Rise ->
   (delay <= 221 * SimulationStepTimeDuration sample_ocean_constants)%R) /\
  (SWEWaveStateMachine.mCurrentWavePhase sample_wave = Fall ->
   (delay <= 14 * SimulationStepTimeDuration sample_ocean_constants)%R).
Proof.
  assert (Hdt : (0 < SimulationStepTimeDuration sample_ocean_constants)%R).
  { cbn. lra. }
  split; [exact Hdt|].
  exact (smoothing_delay_is_bounded sample_ocean_constants sample_wave Hdt).
Defined.

(** ** The samples generated for rendering *)

Lemma fold_seqZ_invariant {A : Type} (P : Z -> A -> Prop) (g : A -> Z -> A)
    (n : nat) : forall (start : Z) (a : A),
  P start a ->
  (forall i a, start <= i < start + Z.of_nat n -> P i a -> P (i + 1) (g a i)) ->
  P (start + Z.of_nat n) (fold_left g (seqZ start (Z.of_nat n)) a).
Proof.
  induction n as [|n IH]; intros start a Ha Hstep.
  - change (Z.of_nat 0) with 0. rewrite Z.add_0_r. exact Ha.
  - rewrite seqZ_cons by lia. cbn [fold_left].
    replace (Z.pred (Z.of_nat (S n))) with (Z.of_nat n) by lia.
    replace (start + Z.of_nat (S n)) with (Z.succ start + Z.of_nat n) by lia.
    apply IH.
    + replace (Z.succ start) with (start + 1) by lia. apply Hstep; [lia|exact Ha].
    + intros i a' Hi. apply Hstep. lia.
Qed.

Section SampleGeneration.
Context {F : Type} `{FloatOps F} `{LibM F}.
Variable c : OceanConstants F.
Variable ext : OceanExternals F.
Implicit Types (o : OceanSurface.t F) (S : list (Sample F)).

Lemma SampleValue_wr_delta S (i j : Z) (d : F) :
  0 <= i -> 0 <= j ->
  SampleValue
    (rd (wr S i (OceanSurface.set_SampleValuePlusOneMinusSampleValue d (rd S i))) j)
  = SampleValue (rd S j).
Proof.
  intros Hi Hj. rewrite rd_wr by assumption.
  destruct (decide _) as [[-> _]|_]; reflexivity.
Qed.

Lemma delta_wr_value S (i j : Z) (v : F) :
  0 <= i -> 0 <= j ->
  SampleValuePlusOneMinusSampleValue
    (rd (wr S i (OceanSurface.set_SampleValue v (rd S i))) j)
  = SampleValuePlusOneMinusSampleValue (rd S j).
Proof.
  intros Hi Hj. rewrite rd_wr by assumption.
  destruct (decide _) as [[-> _]|_]; reflexivity.
Qed.

(** The delta stored with sample [j] is the difference to the next
    sample. *)
Definition delta_ok S (j : Z) : Prop :=
  SampleValuePlusOneMinusSampleValue (rd S j)
  = (SampleValue (rd S (j + 1)) - SampleValue (rd S j))%flt.

Definition samples_ok S : Prop :=
  Z.of_nat (length S) = SamplesCount c + 1 /\
  (forall j, 0 <= j < SamplesCount c - 1 -> delta_ok S j) /\
  SampleValuePlusOneMinusSampleValue (rd S (SamplesCount c - 1)) = fzero /\
  SampleValue (rd S (SamplesCount c)) = SampleValue (rd S (SamplesCount c - 1)) /\
  SampleValuePlusOneMinusSampleValue (rd S (SamplesCount c)) = fzero.

Lemma GenerateSamples_samples t wind gp o :
  1 <= SamplesCount c ->
  Z.of_nat (length (OceanSurface.mSamples o)) = SamplesCount c + 1 ->
  samples_ok (OceanSurface.mSamples (OceanSurface.GenerateSamples c ext t wind gp o)).
Proof.
  intros Hc Hlen. unfold OceanSurface.GenerateSamples. cbv zeta.
  destruct (RunningAverage_Update ext _ _) as [smoothed average].
  cbn [OceanSurface.mSamples OceanSurface.set_mWindIncisivenessRunningAverage
       OceanSurface.mCurrentHeightField].
  set (L := SamplesCount c + 1) in *.
  pose (P := fun (k : Z) (acc : list (Sample F) * F * F) =>
    Z.of_nat (length (fst (fst acc))) = L /\
    snd (fst acc) = SampleValue (rd (fst (fst acc)) (k - 1)) /\
    forall j, 0 <= j < k - 1 -> delta_ok (fst (fst acc)) j).
  match goal with |- context [fold_left ?g (seqZ 1 ?n) ?a] =>
    assert (Hinv : P (1 + Z.of_nat (Z.to_nat n)) (fold_left g (seqZ 1 n) a));
    [ replace n with (Z.of_nat (Z.to_nat n)) at 2 by lia;
      apply (fold_seqZ_invariant P g)
    | destruct (fold_left g (seqZ 1 n) a) as [[S' prev'] x'] ]
  end.
  - unfold P; cbn [fst snd]. rewrite wr_length.
    split; [exact Hlen|]. split; [|intros j Hj; lia].
    replace (1 - 1) with 0 by lia. rewrite rd_wr_eq by lia. reflexivity.
  - intros i [[S prev] x] Hi (HL & Hprev & Hrel). unfold P in *. cbn [fst snd] in *.
    rewrite !wr_length. split; [exact HL|].
    replace (i + 1 - 1) with i by lia.
    split.
    + rewrite rd_wr_ne by lia. rewrite rd_wr_eq by lia. reflexivity.
    + intros j Hj. unfold delta_ok.
      rewrite !SampleValue_wr_delta by lia.
      destruct (decide (j = i - 1)) as [->|Hne].
      * rewrite rd_wr_eq by (rewrite wr_length; lia). cbn.
        replace (i - 1 + 1) with i by lia.
        rewrite rd_wr_eq by lia. rewrite rd_wr_ne by lia. cbn.
        now rewrite Hprev.
      * rewrite (rd_wr_ne _ (i - 1) j) by lia.
        rewrite delta_wr_value by lia.
        assert (Hj' : 0 <= j < i - 1) by lia.
        specialize (Hrel j Hj'). unfold delta_ok in Hrel. rewrite Hrel.
        rewrite !(rd_wr_ne _ i) by lia. reflexivity.
  - destruct Hinv as (HL & Hprev & Hrel). cbn [fst snd] in *.
    replace (1 + Z.of_nat (Z.to_nat (SamplesCount c - 1))) with (SamplesCount c)
      in * by lia.
    cbn [OceanSurface.mSamples OceanSurface.set_mSamples].
    unfold samples_ok. rewrite !wr_length. split; [exact HL|].
    split; [|split; [|split]].
    + intros j Hj. unfold delta_ok.
      rewrite !(rd_wr_ne _ (SamplesCount c)) by lia.
      rewrite !SampleValue_wr_delta by lia.
      rewrite (rd_wr_ne _ (SamplesCount c - 1) j) by lia.
      apply Hrel. lia.
    + rewrite !(rd_wr_ne _ (SamplesCount c)) by lia.
      rewrite rd_wr_eq by lia. reflexivity.
    + rewrite rd_wr_eq by (rewrite !wr_length; lia). cbn.
      rewrite rd_wr_eq by (rewrite !wr_length; lia). cbn.
      rewrite !(rd_wr_ne _ (SamplesCount c)) by lia.
      rewrite SampleValue_wr_delta by lia. reflexivity.
    + rewrite rd_wr_eq by (rewrite !wr_length; lia). reflexivity.
Qed.

Lemma before_samples_frame t o :
  OceanSurface.mSamples
    (OceanSurface.swap_fields
       (OceanSurface.SetBoundaryConditions c
          (OceanSurface.UpdateVelocityField c
             (OceanSurface.UpdateHeightField c
                (OceanSurface.AdvectVelocityField c
                   (OceanSurface.AdvectHeightField c
                      (OceanSurface.AdvanceWaves c t o)))))))
  = OceanSurface.mSamples o.
Proof.
  cbn [OceanSurface.swap_fields OceanSurface.mSamples].
  unfold OceanSurface.SetBoundaryConditions, OceanSurface.UpdateVelocityField,
    OceanSurface.UpdateHeightField, OceanSurface.AdvectVelocityField,
    OceanSurface.AdvectHeightField.
  rewrite !(fold_left_preserves _ OceanSurface.mSamples);
    try (intros a b; cbv zeta; try destruct (OceanSurface.PreviousCell c b _);
         reflexivity).
  unfold OceanSurface.AdvanceWaves.
  destruct (OceanSurface.mSWEExternalWaveStateMachine o) as [m|]; [|reflexivity].
  destruct (SWEWaveStateMachine.Update c t m) as [[h|] m']; reflexivity.
Qed.

Lemma reachable_samples_length o :
  1 <= SamplesCount c ->
  OceanSurface.reachable_surface c ext o ->
  Z.of_nat (length (OceanSurface.mSamples o)) = SamplesCount c + 1.
Proof.
  intros Hc. induction 1 as [|o t wind gp _ IH|o wc t o' _ IH E].
  - unfold OceanSurface.Make.
    rewrite (fold_left_preserves _ OceanSurface.mSamples) by reflexivity.
    cbn. unfold OceanSurface.new_array. rewrite length_replicate. lia.
  - unfold OceanSurface.Update. cbv zeta.
    apply GenerateSamples_samples; [exact Hc|].
    rewrite before_samples_frame. exact IH.
  - unfold OceanSurface.AdjustTo in E.
    destruct wc as [wc|], (OceanSurface.mSWEExternalWaveStateMachine o) as [m|];
      inversion E; subst; exact IH.
Qed.

End SampleGeneration.

(** X7.  The samples that an update leaves for rendering are consistent:
    there are SamplesCount + 1 of them; for every sample but the last two
    the stored delta is the value of the next sample minus its own value;
    the delta of sample SamplesCount - 1 is zero; and the extra sample
    repeats the value of sample SamplesCount - 1, with a zero delta. *)
Theorem rendered_samples_are_consistent {F : Type} `{FloatOps F} `{LibM F}
    (c : OceanConstants F) (ext : OceanExternals F) (o : OceanSurface.t F)
    (currentSimulationTime : F) (wind : Wind F) (gameParameters : GameParameters F) :
  1 <= SamplesCount c ->
  OceanSurface.reachable_surface c ext o ->
  let S :=
    OceanSurface.mSamples
      (OceanSurface.Update c ext currentSimulationTime wind gameParameters o) in
  Z.of_nat (length S) = SamplesCount c + 1 /\
  (forall j, 0 <= j < SamplesCount c - 1 ->
     SampleValuePlusOneMinusSampleValue (rd S j)
     = (SampleValue (rd S (j + 1)) - SampleValue (rd S j))%flt) /\
  SampleValuePlusOneMinusSampleValue (rd S (SamplesCount c - 1)) = fzero /\
  SampleValue (rd S (SamplesCount c)) = SampleValue (rd S (SamplesCount c - 1)) /\
  SampleValuePlusOneMinusSampleValue (rd S (SamplesCount c)) = fzero.
Proof.
  intros Hc Hr S. subst S. unfold OceanSurface.Update. cbv zeta.
  apply (GenerateSamples_samples c ext); [exact Hc|].
  rewrite before_samples_frame. now apply (reachable_samples_length c ext).
Qed.

Lemma rendered_samples_are_consistent_witness :
  1 <= SamplesCount sample_ocean_constants /\
  let S :=
    OceanSurface.mSamples
      (OceanSurface.Update sample_ocean_constants sample_ocean_externals
         (1 / 50)%R sample_wind sample_ocean_parameters sample_surface_with_wave) in
  Z.of_nat (length S) = SamplesCount sample_ocean_constants + 1 /\
  (forall j, 0 <= j < SamplesCount sample_ocean_constants - 1 ->
     SampleValuePlusOneMinusSampleValue (rd S j)
     = (SampleValue (rd S (j + 1)) - SampleValue (rd S j))%R) /\
  SampleValuePlusOneMinusSampleValue (rd S (SamplesCount sample_ocean_constants - 1))
    = 0%R /\
  SampleValue (rd S (SamplesCount sample_ocean_constants))
    = SampleValue (rd S (SamplesCount sample_ocean_constants - 1)) /\
  SampleValuePlusOneMinusSampleValue (rd S (SamplesCount sample_ocean_constants))
    = 0%R.
Proof.
  assert (Hc : 1 <= SamplesCount sample_ocean_constants) by (cbn; lia).
  split; [exact Hc|].
  exact (rendered_samples_are_consistent sample_ocean_constants
           sample_ocean_externals sample_surface_with_wave (1 / 50)%R sample_wind
           sample_ocean_parameters Hc sample_surface_with_wave_reachable).
Defined.

(** * Further properties of the particles *)

(** ** The drawing order of the burning points *)

Section BurningOrder.
Context {F : Type} `{FloatOps F}.
Implicit Types (pts : Points F) (p q : ElementIndex) (l : list ElementIndex)
  (planeIds : list PlaneId).

(** A list of points in non-decreasing order of plane id. *)
Fixpoint plane_sorted planeIds l : Prop :=
  match l with
  | [] => True
  | p :: l' => (forall q, q ∈ l' -> rd planeIds p <= rd planeIds q)
               /\ plane_sorted planeIds l'
  end.

(** Where the lower bound puts a new point: after the points of a lower
    plane, before all others. *)
Lemma insert_by_plane_split planeIds l p :
  plane_sorted planeIds l ->
  exists l1 l2,
    l = l1 ++ l2 /\
    insert_by_plane planeIds l p = l1 ++ p :: l2 /\
    (forall q, q ∈ l1 -> rd planeIds q < rd planeIds p) /\
    (forall q, q ∈ l2 -> rd planeIds p <= rd planeIds q).
Proof.
  induction l as [|a l IH]; intros Hs; cbn [insert_by_plane].
  - exists [], []. repeat split; intros q Hq; now apply elem_of_nil in Hq.
  - destruct Hs as [Ha Hs].
    destruct (Z.ltb_spec (rd planeIds a) (rd planeIds p)) as [Hlt|Hge].
    + destruct (IH Hs) as (l1 & l2 & E & Ei & H1 & H2).
      exists (a :: l1), l2. rewrite E at 1. rewrite Ei.
      repeat split; auto.
      intros q Hq. apply elem_of_cons in Hq as [->|Hq]; auto.
    + exists [], (a :: l). repeat split.
      * intros q Hq. now apply elem_of_nil in Hq.
      * intros q Hq. apply elem_of_cons in Hq as [->|Hq]; [assumption|].
        specialize (Ha q Hq). lia.
Qed.

Lemma insert_by_plane_sorted planeIds l p :
  plane_sorted planeIds l -> plane_sorted planeIds (insert_by_plane planeIds l p).
Proof.
  induction l as [|a l IH]; intros Hs; cbn [insert_by_plane].
  - cbn. split; [|exact I]. intros q Hq. now apply elem_of_nil in Hq.
  - destruct Hs as [Ha Hs].
    destruct (Z.ltb_spec (rd planeIds a) (rd planeIds p)) as [Hlt|Hge].
    + cbn. split; [|now apply IH].
      intros q Hq. rewrite insert_by_plane_perm in Hq.
      apply elem_of_cons in Hq as [->|Hq]; [lia|now apply Ha].
    + cbn. split; [|split; assumption].
      intros q Hq. apply elem_of_cons in Hq as [->|Hq]; [assumption|].
      specialize (Ha q Hq). lia.
Qed.

Lemma erase_first_subset l p q : q ∈ erase_first l p -> q ∈ l.
Proof.
  induction l as [|a l IH]; cbn [erase_first]; [trivial|].
  destruct (a =? p); intros Hq; apply elem_of_cons.
  - now right.
  - apply elem_of_cons in Hq as [->|Hq]; [now left|right; now apply IH].
Qed.

Lemma erase_first_sorted planeIds l p :
  plane_sorted planeIds l -> plane_sorted planeIds (erase_first l p).
Proof.
  induction l as [|a l IH]; intros Hs; cbn [erase_first]; [exact I|].
  destruct Hs as [Ha Hs]. destruct (a =? p); [exact Hs|].
  cbn. split; [|now apply IH].
  intros q Hq. apply Ha. now apply erase_first_subset in Hq.
Qed.

Lemma Ignite_planes (ext : Externals F) (cand : IgnitionCandidate) pers pts :
  mPlaneIdBuffer (Ignite ext cand pers pts) = mPlaneIdBuffer pts /\
  mBurningPoints (Ignite ext cand pers pts)
    = insert_by_plane (mPlaneIdBuffer pts) (mBurningPoints pts) (fst cand).
Proof. split; reflexivity. Qed.

Lemma IgniteAll_sorted (ext : Externals F) pers
    (cands : list (IgnitionCandidate (F:=F))) : forall (k : nat) pts,
  plane_sorted (mPlaneIdBuffer pts) (mBurningPoints pts) ->
  let pts' := IgniteAll ext k cands pers pts in
  mPlaneIdBuffer pts' = mPlaneIdBuffer pts /\
  plane_sorted (mPlaneIdBuffer pts') (mBurningPoints pts').
Proof.
  induction cands as [|cand cands IH]; intros k pts Hs; cbn [IgniteAll].
  - split; [reflexivity|exact Hs].
  - destruct (Ignite_planes ext cand (pers k) pts) as [E1 E2].
    destruct (IH (S k) (Ignite ext cand (pers k) pts)) as [J1 J2].
    { rewrite E1, E2. now apply insert_by_plane_sorted. }
    split; [congruence|exact J2].
Qed.

Lemma develop_planes p pts :
  mPlaneIdBuffer (develop p pts) = mPlaneIdBuffer pts /\
  (mBurningPoints (develop p pts) = mBurningPoints pts \/
   mBurningPoints (develop p pts) = erase_first (mBurningPoints pts) p).
Proof.
  unfold develop.
  destruct (State (rd (mCombustionStateBuffer pts) p)); cbv zeta;
    try (split; [reflexivity|left; reflexivity]);
    destruct (fleb _ (lit 2 100));
    (split; [reflexivity|]); (right; reflexivity) || (left; reflexivity).
Qed.

Lemma before_develop_planes (ext : Externals F) dt gp pts p :
  mPlaneIdBuffer (before_develop ext dt gp pts p) = mPlaneIdBuffer pts /\
  mBurningPoints (before_develop ext dt gp pts p) = mBurningPoints pts.
Proof.
  unfold before_develop. cbv zeta.
  destruct (_ && _); [split; reflexivity|].
  destruct (StateType_eqb _ Burning); [|split; reflexivity].
  split.
  - now rewrite (fold_left_preserves _ mPlaneIdBuffer) by reflexivity.
  - now rewrite (fold_left_preserves _ mBurningPoints) by reflexivity.
Qed.

Lemma HighFrequency_point_sorted (ext : Externals F) dt gp pts p :
  plane_sorted (mPlaneIdBuffer pts) (mBurningPoints pts) ->
  let pts' := HighFrequency_point ext dt gp pts p in
  mPlaneIdBuffer pts' = mPlaneIdBuffer pts /\
  plane_sorted (mPlaneIdBuffer pts') (mBurningPoints pts').
Proof.
  intros Hs pts'. subst pts'. rewrite HighFrequency_point_unfold.
  destruct (before_develop_planes ext dt gp pts p) as [B1 B2].
  destruct (develop_planes p (before_develop ext dt gp pts p)) as [D1 [D2|D2]];
    rewrite D1, D2, B1, B2; split; trivial.
  now apply erase_first_sorted.
Qed.

End BurningOrder.

Section BurningOrderLowFrequency.
Context {F : Type} `{FloatOps F} `{LibM F}.
Implicit Types (pts : Points F) (p q : ElementIndex).

Lemma LowFrequency_point_planes (ext : Externals F) gp rate
    (acc : Points F * list (IgnitionCandidate (F:=F))) idx :
  mPlaneIdBuffer (fst (LowFrequency_point ext gp rate acc idx))
    = mPlaneIdBuffer (fst acc) /\
  mBurningPoints (fst (LowFrequency_point ext gp rate acc idx))
    = mBurningPoints (fst acc) /\
  mShipPointCount (fst (LowFrequency_point ext gp rate acc idx))
    = mShipPointCount (fst acc).
Proof.
  destruct acc as [pts cands]. unfold LowFrequency_point.
  destruct (State (rd (mCombustionStateBuffer pts) idx)); cbv beta iota zeta;
    try (cbn; auto; fail).
  - destruct (_ && _); cbn; auto.
  - destruct (_ || _); cbn [fst]; [cbn; auto|].
    rewrite (fold_left_preserves _ mPlaneIdBuffer) by reflexivity.
    rewrite (fold_left_preserves _ mBurningPoints) by reflexivity.
    rewrite (fold_left_preserves _ mShipPointCount) by reflexivity.
    cbn. auto.
Qed.

Lemma LowFrequency_loop_planes (ext : Externals F) gp rate stride (budget : nat) :
  forall idx acc res,
  LowFrequency_loop budget ext gp rate stride idx acc = Some res ->
  mPlaneIdBuffer (fst res) = mPlaneIdBuffer (fst acc) /\
  mBurningPoints (fst res) = mBurningPoints (fst acc).
Proof.
  induction budget as [|budget IH]; intros idx acc res; cbn [LowFrequency_loop];
    destruct (idx <? mShipPointCount (fst acc)); intros E; try discriminate;
    try (inversion E; subst; auto; fail).
  apply IH in E as [E1 E2].
  destruct (LowFrequency_point_planes ext gp rate acc idx) as (P1 & P2 & _).
  split; congruence.
Qed.

End BurningOrderLowFrequency.

(** X8.  The burning points stay in drawing order: when the list of
    burning points is in non-decreasing order of plane id, it still is
    after the low-frequency combustion pass (which inserts the ignited
    points at their lower bound) and after the high-frequency loop body has
    run on any sequence of points (which only erases); neither pass
    changes a plane id. *)
Theorem burning_points_stay_sorted_by_plane {F : Type} `{FloatOps F} `{LibM F}
    (nth_element : nth_element_type F) (ext : Externals F)
    (offset stride : ElementIndex) (dt : F) (gp : GameParameters F)
    (rnd : nat) (pers : nat -> F) (visits : list ElementIndex)
    (pts pts' : Points F) :
  plane_sorted (mPlaneIdBuffer pts) (mBurningPoints pts) ->
  UpdateCombustionLowFrequency nth_element ext offset stride dt gp rnd pers pts
    = Some pts' ->
  (mPlaneIdBuffer pts' = mPlaneIdBuffer pts /\
   plane_sorted (mPlaneIdBuffer pts') (mBurningPoints pts')) /\
  (let pts2 := HighFrequency_visits ext dt gp visits pts in
   mPlaneIdBuffer pts2 = mPlaneIdBuffer pts /\
   plane_sorted (mPlaneIdBuffer pts2) (mBurningPoints pts2)).
Proof.
  intros Hs E. split.
  - unfold UpdateCombustionLowFrequency in E. cbv zeta in E.
    destruct (LowFrequency_loop _ _ _ _ _ _ _) as [[pts1 cands]|] eqn:El;
      [|discriminate].
    inversion E; subst pts'; clear E.
    apply LowFrequency_loop_planes in El as [E1 E2]. cbn [fst] in E1, E2.
    destruct (IgniteAll_sorted ext pers
                (take (maxPoints gp rnd (length (mBurningPoints pts1)) (length cands))
                   (nth_element by_ignition_delta
                      (maxPoints gp rnd (length (mBurningPoints pts1)) (length cands))
                      cands))
                0%nat pts1) as [J1 J2].
    { rewrite E1, E2. exact Hs. }
    split; [congruence|exact J2].
  - cbv zeta. unfold HighFrequency_visits. clear E.
    revert pts Hs. induction visits as [|p visits IH]; intros pts Hs; cbn [fold_left].
    + split; [reflexivity|exact Hs].
    + destruct (HighFrequency_point_sorted ext dt gp pts p Hs) as [P1 P2].
      destruct (IH _ P2) as [Q1 Q2]. split; [congruence|exact Q2].
Qed.

Lemma sample_layered_after_ignition_eq :
  sample_layered_after_ignition = Some sample_points_layered_ignited.
Proof. vm_compute. reflexivity. Qed.

Example ignition_on_layered_ship :
  mBurningPoints sample_points_layered_ignited = [2; 0].
Proof. vm_compute. reflexivity. Qed.

Lemma burning_points_stay_sorted_by_plane_witness :
  plane_sorted (mPlaneIdBuffer sample_points_layered)
    (mBurningPoints sample_points_layered) /\
  sample_layered_after_ignition = Some sample_points_layered_ignited /\
  (mPlaneIdBuffer sample_points_layered_ignited
     = mPlaneIdBuffer sample_points_layered /\
   plane_sorted (mPlaneIdBuffer sample_points_layered_ignited)
     (mBurningPoints sample_points_layered_ignited)) /\
  (let pts2 :=
     HighFrequency_visits sample_externals (b32 2 100) sample_parameters_roomy
       [0; 2; 0] sample_points_layered in
   mPlaneIdBuffer pts2 = mPlaneIdBuffer sample_points_layered /\
   plane_sorted (mPlaneIdBuffer pts2) (mBurningPoints pts2)).
Proof.
  split; [exact I|]. split; [exact sample_layered_after_ignition_eq|].
  exact (burning_points_stay_sorted_by_plane (H0 := sample_libm)
           nth_element_by_sort sample_externals 0 1 (b32 2 100)
           sample_parameters_roomy 0%nat (fun _ => b32 1 2) [0; 2; 0]
           sample_points_layered sample_points_layered_ignited
           I sample_layered_after_ignition_eq).
Defined.

(** X9.  A point that is ignited is put behind the burning points of its
    own plane: on a burning list in drawing order, [Ignite] inserts the
    point after every burning point of a lower plane and before every
    burning point of its own or a higher plane, moving no other point. *)
Theorem ignited_point_goes_behind_its_plane {F : Type} `{FloatOps F}
    (ext : Externals F) (candidate : IgnitionCandidate (F:=F)) (personality : F)
    (pts : Points F) :
  plane_sorted (mPlaneIdBuffer pts) (mBurningPoints pts) ->
  exists before after,
    mBurningPoints pts = before ++ after /\
    mBurningPoints (Ignite ext candidate personality pts)
      = before ++ fst candidate :: after /\
    (forall q, q ∈ before ->
       rd (mPlaneIdBuffer pts) q < rd (mPlaneIdBuffer pts) (fst candidate)) /\
    (forall q, q ∈ after ->
       rd (mPlaneIdBuffer pts) (fst candidate) <= rd (mPlaneIdBuffer pts) q).
Proof.
  intros Hs.
  destruct (insert_by_plane_split (mPlaneIdBuffer pts) (mBurningPoints pts)
              (fst candidate) Hs) as (l1 & l2 & E & Ei & H1 & H2).
  exists l1, l2. repeat split; assumption.
Qed.

Lemma layered_ignited_sorted :
  plane_sorted (mPlaneIdBuffer sample_points_layered_ignited)
    (mBurningPoints sample_points_layered_ignited).
Proof.
  change (plane_sorted [1; 0; 0; 0; 0] [2; 0]). cbn. split; [|split; [|exact I]].
  - intros q Hq. apply list_elem_of_singleton in Hq. subst q.
    vm_compute. discriminate.
  - intros q Hq. now apply elem_of_nil in Hq.
Qed.

Lemma ignited_point_goes_behind_its_plane_witness :
  plane_sorted (mPlaneIdBuffer sample_points_layered_ignited)
    (mBurningPoints sample_points_layered_ignited) /\
  exists before after,
    mBurningPoints sample_points_layered_ignited = before ++ after /\
    mBurningPoints
      (Ignite sample_externals (1, b32 1 1) (b32 1 2) sample_points_layered_ignited)
      = before ++ 1 :: after /\
    (forall q, q ∈ before ->
       rd (mPlaneIdBuffer sample_points_layered_ignited) q
       < rd (mPlaneIdBuffer sample_points_layered_ignited) 1) /\
    (forall q, q ∈ after ->
       rd (mPlaneIdBuffer sample_points_layered_ignited) 1
       <= rd (mPlaneIdBuffer sample_points_layered_ignited) q).
Proof.
  split; [exact layered_ignited_sorted|].
  exact (ignited_point_goes_behind_its_plane sample_externals (1, b32 1 1)
           (b32 1 2) sample_points_layered_ignited layered_ignited_sorted).
Defined.

Example ignition_behind_plane_on_layered_ship :
  mBurningPoints
    (Ignite sample_externals (1, b32 1 1) (b32 1 2) sample_points_layered_ignited)
  = [1; 2; 0].
Proof. vm_compute. reflexivity. Qed.

(** ** Reordering the burning points *)

(** What [std::sort] promises: a permutation in which, for a comparator
    that is a strict weak ordering on the elements, no later element is
    ordered before an earlier one. *)
Definition sort_contract {A : Type}
    (std_sort : (A -> A -> bool) -> list A -> list A) : Prop :=
  forall comp l,
    std_sort comp l ≡ₚ l /\
    (strict_weak_order_on comp l ->
     forall (i j : nat) a b,
       (i < j)%nat ->
       std_sort comp l !! i = Some a ->
       std_sort comp l !! j = Some b ->
       comp b a = false).

Lemma sort_by_insertion_contract {A : Type} :
  sort_contract (@sort_by_insertion A).
Proof.
  intros comp l. split; [apply (nth_element_by_sort_perm comp 0%nat)|].
  intros Hswo i j a b Hij Ha Hb.
  apply (descending_lookup comp (sort_by_insertion comp l) i j); trivial.
  apply (nth_element_by_sort_descending comp l 0%nat); auto.
Qed.

Section Reordering.
Context {F : Type} `{FloatOps F}.
Implicit Types (pts : Points F) (l : list ElementIndex).

Lemma plane_order_strict_weak (planeIds : list PlaneId) l :
  strict_weak_order_on (fun p1 p2 => rd planeIds p1 <? rd planeIds p2) l.
Proof.
  split; [|split].
  - intros a _. apply Z.ltb_irrefl.
  - intros a b c _ _ _ H1 H2. apply Z.ltb_lt in H1, H2. apply Z.ltb_lt. lia.
  - intros a b c _ _ _ H1 H2 H3 H4.
    rewrite Z.ltb_ge in H1, H2, H3, H4. rewrite !Z.ltb_ge. lia.
Qed.

Lemma plane_sorted_lookup (planeIds : list PlaneId) l :
  (forall (i j : nat) a b, (i < j)%nat -> l !! i = Some a -> l !! j = Some b ->
     (rd planeIds b <? rd planeIds a) = false) ->
  plane_sorted planeIds l.
Proof.
  induction l as [|p l IH]; intros Hl; cbn; [exact I|]. split.
  - intros q Hq. apply list_elem_of_lookup in Hq as [j Hj].
    specialize (Hl 0%nat (S j) p q ltac:(lia) eq_refl Hj).
    apply Z.ltb_ge in Hl. exact Hl.
  - apply IH. intros i j a b Hij Ha Hb.
    apply (Hl (S i) (S j)); trivial. lia.
Qed.

Lemma burning_inv_perm pts pts' :
  mBurningPoints pts' ≡ₚ mBurningPoints pts ->
  mCombustionStateBuffer pts' = mCombustionStateBuffer pts ->
  mShipPointCount pts' = mShipPointCount pts ->
  burning_inv pts -> burning_inv pts'.
Proof.
  intros Ep Ec Es (Hnd & Hmem & Hall & Hship).
  unfold burning_inv, cs_len, state_of in *. rewrite Ec, Es.
  split; [now rewrite Ep|]. split; [|split; [|assumption]].
  - intros q Hq. rewrite Ep in Hq. now apply Hmem.
  - intros i Hi Hs. rewrite Ep. now apply Hall.
Qed.

End Reordering.

(** X10.  [ReorderBurningPointsForDepth] changes nothing but the order
    of the burning list: the list it leaves is a permutation of the one it
    found, is in non-decreasing order of plane id, and the burning list
    still holds exactly the points that are not NotBurning. *)
Theorem reordering_restores_the_drawing_order {F : Type} `{FloatOps F}
    (std_sort : (ElementIndex -> ElementIndex -> bool) ->
                list ElementIndex -> list ElementIndex)
    (pts : Points F) :
  sort_contract std_sort ->
  let pts' := ReorderBurningPointsForDepth std_sort pts in
  mBurningPoints pts' ≡ₚ mBurningPoints pts /\
  plane_sorted (mPlaneIdBuffer pts') (mBurningPoints pts') /\
  pts' = set_mBurningPoints (mBurningPoints pts') pts /\
  (burning_inv pts -> burning_inv pts').
Proof.
  intros Hsort pts'. subst pts'. unfold ReorderBurningPointsForDepth.
  cbn [mBurningPoints set_mBurningPoints mPlaneIdBuffer].
  destruct (Hsort (fun p1 p2 => rd (mPlaneIdBuffer pts) p1 <? rd (mPlaneIdBuffer pts) p2)
              (mBurningPoints pts)) as [Hperm Hord].
  split; [exact Hperm|]. split; [|split; [reflexivity|]].
  - apply plane_sorted_lookup. intros i j a b Hij Ha Hb.
    exact (Hord (plane_order_strict_weak _ _) i j a b Hij Ha Hb).
  - apply burning_inv_perm; [exact Hperm|reflexivity|reflexivity].
Qed.

Lemma reordering_restores_the_drawing_order_witness :
  sort_contract (@sort_by_insertion ElementIndex) /\
  let pts := set_mPlaneIdBuffer [0; 0; 1; 0; 0] sample_points_layered_ignited in
  let pts' := ReorderBurningPointsForDepth sort_by_insertion pts in
  mBurningPoints pts' ≡ₚ mBurningPoints pts /\
  plane_sorted (mPlaneIdBuffer pts') (mBurningPoints pts') /\
  pts' = set_mBurningPoints (mBurningPoints pts') pts /\
  (burning_inv pts -> burning_inv pts').
Proof.
  split; [exact sort_by_insertion_contract|].
  exact (reordering_restores_the_drawing_order sort_by_insertion
           (set_mPlaneIdBuffer [0; 0; 1; 0; 0] sample_points_layered_ignited)
           sort_by_insertion_contract).
Defined.

Example reordering_on_layered_ship :
  mBurningPoints
    (ReorderBurningPointsForDepth sort_by_insertion
       (set_mPlaneIdBuffer [0; 0; 1; 0; 0] sample_points_layered_ignited))
  = [0; 2].
Proof. vm_compute. reflexivity. Qed.

(** * Ephemeral allocation and the other particles *)

Section AllocationFrame.
Context {F : Type} `{FloatOps F}.
Implicit Types (pts : Points F) (i q : ElementIndex).

(** Everything the buffers hold for particle [i]. *)
Definition particle pts i :=
  (rd (mMaterialsBuffer pts) i,
   rd (mPositionBuffer pts) i,
   rd (mVelocityBuffer pts) i,
   rd (mForceBuffer pts) i,
   rd (mAugmentedMaterialMassBuffer pts) i,
   rd (mMassBuffer pts) i,
   rd (mDecayBuffer pts) i,
   rd (mIntegrationFactorTimeCoefficientBuffer pts) i,
   rd (mIntegrationFactorBuffer pts) i,
   rd (mMaterialWaterVolumeFillBuffer pts) i,
   rd (mWaterBuffer pts) i,
   rd (mTemperatureBuffer pts) i,
   rd (mMaterialHeatCapacityBuffer pts) i,
   rd (mMaterialIgnitionTemperatureBuffer pts) i,
   rd (mCombustionStateBuffer pts) i,
   rd (mMaterialWindReceptivityBuffer pts) i,
   rd (mEphemeralTypeBuffer pts) i,
   rd (mEphemeralStartTimeBuffer pts) i,
   rd (mEphemeralMaxLifetimeBuffer pts) i,
   rd (mConnectedSpringsBuffer pts) i,
   rd (mPlaneIdBuffer pts) i,
   rd (mIsPinnedBuffer pts) i).

(** The state that is not per particle, the search start index apart. *)
Definition shared_state pts :=
  (mShipPointCount pts, mAllPointCount pts, mBurningPoints pts,
   mCurrentNumMechanicalDynamicsIterations pts, mGameEventHandler pts).

Definition is_air_bubble (a : Allocation F) : bool :=
  match a with
  | AllocAirBubble _ _ _ _ => true
  | _ => false
  end.

Lemma particle_type pts pts' i :
  particle pts' i = particle pts i ->
  rd (mEphemeralTypeBuffer pts') i = rd (mEphemeralTypeBuffer pts) i.
Proof. unfold particle. intros E. now inversion E. Qed.

(** The buffers after the stores of a creator. *)
Lemma StoreAttributes_buffers (ext : Externals F) p pos v m fill temp wind ty
    now life pl pts :
  let pts' := StoreAttributes ext p pos v m fill temp wind ty now life pl pts in
  mMaterialsBuffer pts' = wr (mMaterialsBuffer pts) p m /\
  mPositionBuffer pts' = wr (mPositionBuffer pts) p pos /\
  mVelocityBuffer pts' = wr (mVelocityBuffer pts) p v /\
  mForceBuffer pts' = wr (mForceBuffer pts) p vec2f_zero /\
  mAugmentedMaterialMassBuffer pts'
    = wr (mAugmentedMaterialMassBuffer pts) p (Mass m) /\
  mMassBuffer pts' = wr (mMassBuffer pts) p (Mass m) /\
  mDecayBuffer pts' = wr (mDecayBuffer pts) p fone /\
  mIntegrationFactorTimeCoefficientBuffer pts'
    = wr (mIntegrationFactorTimeCoefficientBuffer pts) p
         (CalculateIntegrationFactorTimeCoefficient ext
            (mCurrentNumMechanicalDynamicsIterations pts)) /\
  mIntegrationFactorBuffer pts' = mIntegrationFactorBuffer pts /\
  mMaterialWaterVolumeFillBuffer pts'
    = wr (mMaterialWaterVolumeFillBuffer pts) p fill /\
  mWaterBuffer pts' = wr (mWaterBuffer pts) p fzero /\
  mTemperatureBuffer pts' = wr (mTemperatureBuffer pts) p temp /\
  mMaterialHeatCapacityBuffer pts'
    = wr (mMaterialHeatCapacityBuffer pts) p (HeatCapacity m) /\
  mMaterialIgnitionTemperatureBuffer pts'
    = wr (mMaterialIgnitionTemperatureBuffer pts) p (IgnitionTemperature m) /\
  mCombustionStateBuffer pts'
    = wr (mCombustionStateBuffer pts) p CombustionState_default /\
  mMaterialWindReceptivityBuffer pts'
    = wr (mMaterialWindReceptivityBuffer pts) p wind /\
  mEphemeralTypeBuffer pts' = wr (mEphemeralTypeBuffer pts) p ty /\
  mEphemeralStartTimeBuffer pts' = wr (mEphemeralStartTimeBuffer pts) p now /\
  mEphemeralMaxLifetimeBuffer pts' = wr (mEphemeralMaxLifetimeBuffer pts) p life /\
  mConnectedSpringsBuffer pts' = mConnectedSpringsBuffer pts /\
  mPlaneIdBuffer pts' = wr (mPlaneIdBuffer pts) p pl /\
  mIsPinnedBuffer pts' = mIsPinnedBuffer pts.
Proof. repeat split. Qed.

Lemma place_frame (ext : Externals F) q pos v m fill temp wind ty now life pl pts :
  0 <= q ->
  let pts' :=
    StoreAttributes ext q pos v m fill temp wind ty now life pl (start_after q pts) in
  (forall i, 0 <= i -> i <> q -> particle pts' i = particle pts i) /\
  shared_state pts' = shared_state pts.
Proof.
  intros Hq pts'. split; [|reflexivity].
  intros i Hi Hne.
  destruct (StoreAttributes_buffers ext q pos v m fill temp wind ty now life pl
              (start_after q pts))
    as (E1 & E2 & E3 & E4 & E5 & E6 & E7 & E8 & E9 & E10 & E11 & E12 & E13
        & E14 & E15 & E16 & E17 & E18 & E19 & E20 & E21 & E22).
  fold pts' in E1, E2, E3, E4, E5, E6, E7, E8, E9, E10, E11, E12, E13, E14,
    E15, E16, E17, E18, E19, E20, E21, E22.
  unfold particle.
  rewrite E1, E2, E3, E4, E5, E6, E7, E8, E9, E10, E11, E12, E13, E14,
    E15, E16, E17, E18, E19, E20, E21, E22.
  rewrite !rd_wr_ne by lia. reflexivity.
Qed.

(** What the air-bubble creator does, by the first free slot in scan
    order. *)
Lemma air_bubble_places (ext : Externals F) gp pos m now pl pts :
  pool_ok pts ->
  CreateEphemeralParticleAirBubble ext gp pos m now pl pts =
  Some match first_free pts (scan_order pts) with
       | Some q =>
           StoreAttributes ext q pos vec2f_zero m (WaterVolumeFill m)
             (InitialTemperature gp) fzero AirBubble now (numeric_limits_max ext)
             pl (start_after q pts)
       | None => pts
       end.
Proof.
  intros Hok. unfold CreateEphemeralParticleAirBubble.
  rewrite (FindFreeEphemeralParticle_spec now false pts Hok).
  destruct (first_free pts (scan_order pts)) as [q|] eqn:Ef; cbn [negb].
  - apply first_free_some in Ef as [Hin _].
    apply scan_order_region in Hin; [|assumption].
    destruct (Z.eqb_spec q NoneElementIndex) as [E|_]; [|reflexivity].
    exfalso. destruct Hok as (_ & _ & _ & H3 & _). destruct Hin. lia.
  - now rewrite Z.eqb_refl.
Qed.

(** X12.  Air bubbles never take the place of anything: from a
    well-formed pool, any sequence of air-bubble allocations runs to
    completion and changes no buffer entry of any particle other than the
    slots of the ephemeral region that were free; and when no slot is free
    the state is left exactly as it was. *)
Theorem air_bubbles_never_evict (ext : Externals F) (gp : GameParameters F)
    (l : list (Allocation F)) :
  forall pts, pool_ok pts -> Forall (fun a => is_air_bubble a = true) l ->
  exists pts',
    allocate_all ext gp l pts = Some pts' /\
    (forall i, 0 <= i -> ~ (in_region pts i /\ is_free pts i) ->
       particle pts' i = particle pts i) /\
    shared_state pts' = shared_state pts /\
    ((forall q, in_region pts q -> ~ is_free pts q) -> pts' = pts).
Proof.
  induction l as [|a l IH]; intros pts Hok Hl; cbn [allocate_all].
  - exists pts. repeat split; trivial.
  - apply Forall_cons in Hl as [Ha Hl].
    destruct a as [pos m now pl | |]; try discriminate. cbn [allocate].
    rewrite (air_bubble_places ext gp pos m now pl pts Hok).
    destruct (first_free pts (scan_order pts)) as [q|] eqn:Ef.
    + pose proof Ef as Ef'. apply first_free_some in Ef' as [Hin Hfree].
      apply scan_order_region in Hin; [|assumption].
      set (pts1 := StoreAttributes ext q pos vec2f_zero m (WaterVolumeFill m)
                     (InitialTemperature gp) fzero AirBubble now
                     (numeric_limits_max ext) pl (start_after q pts)).
      destruct (place_ok ext q pos vec2f_zero m (WaterVolumeFill m)
                  (InitialTemperature gp) fzero AirBubble now
                  (numeric_limits_max ext) pl pts Hok Hin) as (Hok1 & _ & C1 & C2).
      fold pts1 in Hok1, C1, C2.
      assert (Hq : 0 <= q) by (destruct Hok, Hin; lia).
      destruct (place_frame ext q pos vec2f_zero m (WaterVolumeFill m)
                  (InitialTemperature gp) fzero AirBubble now
                  (numeric_limits_max ext) pl pts Hq) as (Hfr & Hsh).
      fold pts1 in Hfr, Hsh.
      destruct (IH pts1 Hok1 Hl) as (pts' & E & Hfr' & Hsh' & _).
      exists pts'. split; [exact E|]. split; [|split].
      * intros i Hi Hocc.
        assert (Hne : i <> q) by (intros ->; apply Hocc; split; assumption).
        rewrite Hfr', (Hfr i Hi Hne); [reflexivity|assumption|].
        intros [Hr Hf]. apply Hocc. split.
        -- unfold in_region in *. rewrite C1, C2 in Hr. exact Hr.
        -- unfold is_free in *. now rewrite <- (particle_type _ _ _ (Hfr i Hi Hne)).
      * now rewrite Hsh'.
      * intros Hfull. exfalso. exact (Hfull q Hin Hfree).
    + destruct (IH pts Hok Hl) as (pts' & E & Hfr' & Hsh' & Hfull').
      exists pts'. repeat split; assumption.
Qed.

End AllocationFrame.

Section AllocationFrameForced.
Context {F : Type} `{FloatOps F} `{!FloatOrder F}.
Implicit Types (pts : Points F) (i q : ElementIndex).

(** One allocation either leaves the state as it is or stores the new
    particle in one slot of the ephemeral region. *)
Lemma allocate_places (ext : Externals F) gp (a : Allocation F) pts :
  pool_ok pts ->
  (forall s, stored pts s -> fleb fzero (allocation_time a - s)%flt = true) ->
  exists pts',
    allocate ext gp a pts = Some pts' /\
    (pts' = pts \/
     exists q pos v m fill temp wind ty life pl,
       in_region pts q /\
       pts' = StoreAttributes ext q pos v m fill temp wind ty
                (allocation_time a) life pl (start_after q pts)).
Proof.
  intros Hok Hclock.
  assert (Hforce : first_free pts (scan_order pts) = None ->
    in_region pts (fst (fold_left (older (allocation_time a) pts) (scan_order pts)
                          (NoneElementIndex, fzero)))).
  { intros Ef.
    destruct (oldest_fold (allocation_time a) pts (scan_order pts) []
                (NoneElementIndex, fzero)) as [[Hnil _] | (Ho & _)].
    - left. split; reflexivity.
    - intros q Hq. apply Hclock. exists q. repeat split.
      + apply scan_order_region; assumption.
      + apply scan_order_region; assumption.
      + eapply first_free_none; eassumption.
    - exfalso. cbn [app] in Hnil.
      destruct (scan_order_linked pts Hok) as (rest & Er & _). congruence.
    - apply scan_order_region; assumption. }
  assert (Hfound : forall q, first_free pts (scan_order pts) = Some q ->
                             in_region pts q).
  { intros q Ef. apply first_free_some in Ef as [Hin _].
    apply scan_order_region; assumption. }
  destruct a as [pos m now pl | pos v m now life pl | pos v m now life pl];
    cbn [allocate allocation_time] in *.
  - rewrite (air_bubble_places ext gp pos m now pl pts Hok).
    eexists. split; [reflexivity|].
    destruct (first_free pts (scan_order pts)) as [q|] eqn:Ef; [right|now left].
    exists q. do 9 eexists. split; [now apply Hfound|reflexivity].
  - unfold CreateEphemeralParticleDebris.
    rewrite (FindFreeEphemeralParticle_spec now true pts Hok).
    destruct (first_free pts (scan_order pts)) as [q|] eqn:Ef; cbn [negb];
      cbv zeta; (eexists; split; [reflexivity|]); right;
      eexists; do 9 eexists; (split; [|reflexivity]); auto.
  - unfold CreateEphemeralParticleSparkle.
    rewrite (FindFreeEphemeralParticle_spec now true pts Hok).
    destruct (first_free pts (scan_order pts)) as [q|] eqn:Ef; cbn [negb];
      cbv zeta; (eexists; split; [reflexivity|]); right;
      eexists; do 9 eexists; (split; [|reflexivity]); auto.
Qed.

End AllocationFrameForced.

(** X11.  Ephemeral allocations leave the ship alone: from a well-formed
    pool and with a clock that does not run backwards, any sequence of
    air-bubble, debris and sparkle allocations, stealing slots or not,
    changes no buffer entry of any ship particle (index below the ship
    point count), and changes neither the counts, nor the burning list,
    nor the events fired. *)
Theorem allocations_leave_the_ship_alone {F : Type} `{FloatOps F} `{!FloatOrder F}
    (ext : Externals F) (gp : GameParameters F)
    (l : list (Allocation F)) (pts : Points F) :
  pool_ok pts ->
  clock_ok (stored pts) l ->
  exists pts',
    allocate_all ext gp l pts = Some pts' /\
    (forall i, 0 <= i < mShipPointCount pts -> particle pts' i = particle pts i) /\
    shared_state pts' = shared_state pts.
Proof.
  revert pts. induction l as [|a l IH]; intros pts Hok Hclock; cbn [allocate_all].
  - exists pts. repeat split.
  - destruct Hclock as [Ha Hl].
    destruct (allocate_ok ext gp a pts Hok Ha) as (pts1 & E & Hok1 & Hst & C1 & C2).
    destruct (allocate_places ext gp a pts Hok Ha) as (pts1' & E' & Hpl).
    rewrite E in E'. inversion E'; subst pts1'. clear E'. rewrite E.
    destruct (IH pts1 Hok1) as (pts' & E2 & Hfr & Hsh).
    { eapply clock_ok_weaken; [|exact Hl]. exact Hst. }
    exists pts'. split; [exact E2|].
    destruct Hpl as [-> | (q & pos & v & m & fill & temp & wind & ty & life & pl
                            & Hq & ->)]; [split; assumption|].
    assert (Hq0 : 0 <= q) by (destruct Hok, Hq; lia).
    destruct (place_frame ext q pos v m fill temp wind ty (allocation_time a)
                life pl pts Hq0) as (Hfr1 & Hsh1).
    split.
    + intros i Hi. rewrite Hfr by (rewrite C1; exact Hi).
      apply Hfr1; [lia|]. destruct Hq. lia.
    + now rewrite Hsh.
Qed.

Lemma allocations_leave_the_ship_alone_witness :
  exists pts',
    allocate_all sample_externals sample_parameters sample_allocations
      sample_points = Some pts' /\
    (forall i, 0 <= i < mShipPointCount sample_points ->
       particle pts' i = particle sample_points i) /\
    shared_state pts' = shared_state sample_points.
Proof.
  exact (allocations_leave_the_ship_alone sample_externals sample_parameters
           sample_allocations sample_points sample_points_pool_ok
           sample_clock_ok).
Defined.

Lemma air_bubbles_never_evict_witness :
  exists pts',
    allocate_all sample_externals sample_parameters
      (take 2 sample_allocations) sample_points = Some pts' /\
    (forall i, 0 <= i -> ~ (in_region sample_points i /\ is_free sample_points i) ->
       particle pts' i = particle sample_points i) /\
    shared_state pts' = shared_state sample_points /\
    ((forall q, in_region sample_points q -> ~ is_free sample_points q) ->
     pts' = sample_points).
Proof.
  apply (air_bubbles_never_evict sample_externals sample_parameters
           (take 2 sample_allocations) sample_points sample_points_pool_ok).
  repeat constructor.
Defined.

Example air_bubbles_on_sample_pool :
  mEphemeralTypeBuffer <$>
    allocate_all sample_externals sample_parameters
      (take 2 sample_allocations) sample_points
  = Some [ET_None; ET_None; ET_None; Debris; AirBubble].
Proof. vm_compute. reflexivity. Qed.

(** * The controller over sequences of operations *)

Section ControllerSequences.
Implicit Types (g : GameController.t) (k : list ControllerCall).

Definition no_world_update k : Prop := World_Update ∉ k.

Lemma flushed_no_update k :
  no_world_update k -> flushed_after_update k = true.
Proof.
  unfold no_world_update. induction k as [|a k IH]; intros Hn; [reflexivity|].
  assert (Hk : World_Update ∉ k) by (intros Hin; apply Hn; now right).
  destruct a; cbn; try (now apply IH).
  exfalso. apply Hn. now left.
Qed.

Lemma flushed_app k1 k2 :
  flushed_after_update k1 = true -> flushed_after_update k2 = true ->
  flushed_after_update (k1 ++ k2) = true.
Proof.
  intros H1 H2. induction k1 as [|a k1 IH]; [exact H2|].
  destruct a; cbn in *; try (now apply IH).
  destruct k1 as [|b k1]; [discriminate|].
  destruct b; try discriminate.
  destruct k1 as [|d k1]; [discriminate|].
  destruct d; try discriminate.
  cbn in *. now apply IH.
Qed.

Lemma flushed_update_calls g : flushed_after_update (update_calls g) = true.
Proof.
  unfold update_calls. cbn.
  induction (GameController.mParameterSmoothers g) as [|s l IH]; [reflexivity|].
  exact IH.
Qed.

Lemma no_update_render_calls g : no_world_update (render_calls g).
Proof.
  unfold no_world_update, render_calls. intros Hin.
  apply elem_of_app in Hin as [Hin|Hin].
  - destruct (GameController.mRenderStatsStarted g).
    + now apply elem_of_nil in Hin.
    + apply list_elem_of_singleton in Hin. discriminate.
  - apply elem_of_cons in Hin as [Hin|Hin]; [discriminate|].
    apply list_elem_of_singleton in Hin. discriminate.
Qed.

Lemma smoothed_no_update (s : list nat) k :
  no_world_update k -> smoothed_before_update s k.
Proof.
  intros Hn before after E. exfalso. apply Hn. rewrite E.
  apply elem_of_app. right. now left.
Qed.

Lemma smoothed_app (s : list nat) k1 k2 :
  smoothed_before_update s k1 -> smoothed_before_update s k2 ->
  smoothed_before_update s (k1 ++ k2).
Proof.
  intros H1 H2 before after E.
  apply app_eq_app in E as (m & [(E1 & E2) | (E1 & E2)]).
  - destruct m as [|x m].
    + cbn in E2. destruct (H2 [] after (eq_sym E2)) as (b' & Eb).
      destruct b'; discriminate.
    + cbn in E2. inversion E2; subst x.
      apply (H1 before m). exact E1.
  - (* the update lies in [k2] *)
    destruct (H2 m after E2) as (b' & ->).
    exists (k1 ++ b'). rewrite E1. now rewrite <- app_assoc.
Qed.

Lemma smoothed_update_calls g :
  smoothed_before_update (GameController.mParameterSmoothers g) (update_calls g).
Proof.
  unfold update_calls. intros before after E.
  set (s := GameController.mParameterSmoothers g) in *.
  assert (Hs : World_Update ∉ GameWallClock_Now :: map ParameterSmoother_Update s).
  { intros Hin. apply elem_of_cons in Hin as [Hin|Hin]; [discriminate|].
    apply list_elem_of_fmap in Hin as (x & Hx & _). discriminate. }
  change (GameWallClock_Now
          :: map ParameterSmoother_Update s
             ++ [World_Update; GameEventDispatcher_Flush; UpdateStateMachines])
    with ((GameWallClock_Now :: map ParameterSmoother_Update s)
          ++ World_Update :: [GameEventDispatcher_Flush; UpdateStateMachines]) in E.
  apply app_eq_app in E as (m & [(E1 & E2) | (E1 & E2)]).
  - destruct m as [|x m].
    + exists []. rewrite app_nil_r in E1. now rewrite E1.
    + exfalso. cbn in E2. inversion E2; subst x. apply Hs. rewrite E1.
      apply elem_of_app. right. now left.
  - destruct m as [|x m].
    + exists []. rewrite app_nil_r in E1. now rewrite E1.
    + exfalso. cbn in E2. inversion E2 as [[Ex Em]].
      destruct m as [|y m]; [discriminate|]. inversion Em as [[Ey Em']].
      destruct m as [|z m]; [discriminate|]. inversion Em' as [[Ez Em'']].
      destruct m; discriminate.
Qed.

(** The calls of one operation and what it does to the smoothers. *)
Lemma perform_calls op g :
  exists k,
    GameController.mCalls (perform op g) = GameController.mCalls g ++ k /\
    flushed_after_update k = true /\
    smoothed_before_update (GameController.mParameterSmoothers g) k /\
    GameController.mParameterSmoothers (perform op g)
      = GameController.mParameterSmoothers g.
Proof.
  destruct (InternalUpdate_spec g) as (Eu & _ & _ & Es & _).
  destruct op; cbn [perform].
  - eexists. split; [apply RunGameIteration_calls|].
    split; [|split].
    + destruct (_ && _).
      * apply flushed_app; [apply flushed_update_calls|].
        apply flushed_no_update, no_update_render_calls.
      * apply flushed_no_update, no_update_render_calls.
    + destruct (_ && _).
      * apply smoothed_app; [apply smoothed_update_calls|].
        apply smoothed_no_update, no_update_render_calls.
      * apply smoothed_no_update, no_update_render_calls.
    + unfold GameController.RunGameIteration. cbv zeta.
      destruct (_ && _); [|destruct (GameController.mRenderStatsStarted g); reflexivity].
      destruct (GameController.mRenderStatsStarted (GameController.InternalUpdate g));
        cbn; exact Es.
  - exists (update_calls g). split; [exact Eu|].
    split; [apply flushed_update_calls|]. split; [apply smoothed_update_calls|exact Es].
  - exists [InternalRender]. split; [reflexivity|].
    split; [reflexivity|]. split; [|reflexivity].
    apply smoothed_no_update. intros Hin.
    apply list_elem_of_singleton in Hin. discriminate.
  - exists [GameWallClock_SetPaused isPaused]. split; [reflexivity|].
    split; [reflexivity|]. split; [|reflexivity].
    apply smoothed_no_update. intros Hin.
    apply list_elem_of_singleton in Hin. discriminate.
  - exists []. split; [cbn; now rewrite app_nil_r|].
    split; [reflexivity|]. split; [|reflexivity].
    apply smoothed_no_update. intros Hin. now apply elem_of_nil in Hin.
Qed.

Lemma perform_all_calls ops : forall g,
  exists k,
    GameController.mCalls (perform_all ops g) = GameController.mCalls g ++ k /\
    flushed_after_update k = true /\
    smoothed_before_update (GameController.mParameterSmoothers g) k /\
    GameController.mParameterSmoothers (perform_all ops g)
      = GameController.mParameterSmoothers g.
Proof.
  induction ops as [|op ops IH]; intros g.
  - exists []. cbn. rewrite app_nil_r. repeat split.
    apply smoothed_no_update. intros Hin. now apply elem_of_nil in Hin.
  - change (perform_all (op :: ops) g) with (perform_all ops (perform op g)).
    destruct (perform_calls op g) as (k1 & E1 & F1 & S1 & P1).
    destruct (IH (perform op g)) as (k2 & E2 & F2 & S2 & P2).
    exists (k1 ++ k2). rewrite E2, E1, <- app_assoc. split; [reflexivity|].
    split; [now apply flushed_app|]. split; [|congruence].
    apply smoothed_app; [exact S1|]. now rewrite <- P1.
Qed.

End ControllerSequences.

(** X13.  The move tool freezes the simulation like a pause: a game
    iteration updates the world exactly when the game is neither paused
    nor has the move tool engaged; then it first reads the clock, updates
    every smoother, updates the world, flushes the events and updates the
    state machines, and only then renders; otherwise it only renders.  In
    both cases it counts one frame and leaves both flags as they are. *)
Theorem iteration_updates_iff_running (g : GameController.t) :
  let g' := GameController.RunGameIteration g in
  let made := GameController.calls_made g g' in
  (World_Update ∈ made <->
   GameController.mIsPaused g = false /\
   GameController.mIsMoveToolEngaged g = false) /\
  (World_Update ∈ made -> made = update_calls g ++ render_calls g) /\
  (World_Update ∉ made -> made = render_calls g) /\
  GameController.mIsPaused g' = GameController.mIsPaused g /\
  GameController.mIsMoveToolEngaged g' = GameController.mIsMoveToolEngaged g /\
  GameController.mRenderStatsStarted g' = true /\
  GameController.mTotalFrameCount g'
    = GameController.wrap64
        ((if GameController.mRenderStatsStarted g
          then GameController.mTotalFrameCount g else 0) + 1).
Proof.
  intros g' made.
  assert (E : made =
    (if negb (GameController.mIsPaused g)
        && negb (GameController.mIsMoveToolEngaged g)
     then update_calls g else []) ++ render_calls g).
  { apply calls_made_app. unfold g'. rewrite RunGameIteration_calls.
    reflexivity. }
  assert (Hin : World_Update ∈ update_calls g ++ render_calls g).
  { apply elem_of_app. left. unfold update_calls.
    apply elem_of_cons. right. apply elem_of_app. right. now left. }
  pose proof (no_update_render_calls g) as Hout. unfold no_world_update in Hout.
  destruct (InternalUpdate_spec g) as (_ & E1 & E2 & _ & E4 & E5 & _).
  cbv zeta in E1, E2, E4, E5.
  split; [|split; [|split]].
  - rewrite E.
    destruct (GameController.mIsPaused g), (GameController.mIsMoveToolEngaged g);
      cbn [negb andb app]; split;
      try (intros Hx; exfalso; exact (Hout Hx));
      try (intros [? ?]; discriminate); auto.
  - rewrite E.
    destruct (GameController.mIsPaused g), (GameController.mIsMoveToolEngaged g);
      cbn [negb andb app]; intros Hx; try reflexivity;
      exfalso; exact (Hout Hx).
  - rewrite E.
    destruct (GameController.mIsPaused g), (GameController.mIsMoveToolEngaged g);
      cbn [negb andb app]; intros Hx; try reflexivity;
      exfalso; exact (Hx Hin).
  - unfold g', GameController.RunGameIteration. cbv zeta.
    destruct (negb (GameController.mIsPaused g)
              && negb (GameController.mIsMoveToolEngaged g)).
    + set (gu := GameController.InternalUpdate g) in *. clearbody gu.
      rewrite E4.
      destruct (GameController.mRenderStatsStarted g) eqn:Es;
        cbn -[GameController.wrap64];
        rewrite ?E1, ?E2, ?E4, ?E5, ?Es; repeat split; reflexivity.
    + destruct (GameController.mRenderStatsStarted g) eqn:Es;
        cbn -[GameController.wrap64];
        rewrite ?Es; repeat split; reflexivity.
Qed.

(** X14.  No world update goes unflushed: in the calls made by any
    sequence of iterations, explicit updates, explicit renders and changes
    of the pause and move-tool flags, every world update comes directly
    after a reading of the clock and the update of each registered
    smoother, in registration order, and is directly followed by the flush
    of the events and the update of the state machines; and the registered
    smoothers stay the same. *)
Theorem world_updates_are_smoothed_and_flushed
    (ops : list ControllerOperation) (g : GameController.t) :
  let g' := perform_all ops g in
  let made := GameController.calls_made g g' in
  flushed_after_update made = true /\
  smoothed_before_update (GameController.mParameterSmoothers g) made /\
  GameController.mParameterSmoothers g' = GameController.mParameterSmoothers g.
Proof.
  intros g' made.
  destruct (perform_all_calls ops g) as (k & E & Hf & Hs & Hp).
  assert (Ek : made = k) by (apply calls_made_app; exact E).
  rewrite Ek. repeat split; assumption.
Qed.

Example operations_on_sample_controller :
  GameController.calls_made sample_controller
    (perform_all
       [OpRunGameIteration; OpSetPaused true; OpRunGameIteration;
        OpSetPaused false; OpSetMoveToolEngaged true; OpRunGameIteration;
        OpUpdate]
       sample_controller)
  = [GameWallClock_Now;
     ParameterSmoother_Update 0; ParameterSmoother_Update 1;
     ParameterSmoother_Update 2; ParameterSmoother_Update 3;
     ParameterSmoother_Update 4; ParameterSmoother_Update 5;
     World_Update; GameEventDispatcher_Flush; UpdateStateMachines;
     PublishStats; SwapRenderBuffersFunction; InternalRender;
     GameWallClock_SetPaused true;
     SwapRenderBuffersFunction; InternalRender;
     GameWallClock_SetPaused false;
     SwapRenderBuffersFunction; InternalRender;
     GameWallClock_Now;
     ParameterSmoother_Update 0; ParameterSmoother_Update 1;
     ParameterSmoother_Update 2; ParameterSmoother_Update 3;
     ParameterSmoother_Update 4; ParameterSmoother_Update 5;
     World_Update; GameEventDispatcher_Flush; UpdateStateMachines].
Proof. reflexivity. Qed.

(** * The life of a flame *)

Section FlameLifecycle.
Context {F : Type} `{FloatOps F}.
Implicit Types (pts : Points F) (p q i : ElementIndex).

Lemma develops_to_refl (s : StateType) : develops_to s s = true.
Proof. destruct s; reflexivity. Qed.

Lemma develop_states pts p :
  0 <= p ->
  develops_to (state_of pts p) (state_of (develop p pts) p) = true.
Proof.
  intros Hp.
  destruct (Z_lt_le_dec p (cs_len pts)) as [Hin|Hout].
  2:{ assert (E : develop p pts = pts).
      { unfold develop. rewrite rd_outside by exact Hout. reflexivity. }
      rewrite E. apply develops_to_refl. }
  assert (Hupd : forall c,
            state_of (update_combustion (fun _ => c) p pts) p = State c).
  { intros c. rewrite state_of_update by assumption.
    destruct (decide (p = p /\ p < cs_len pts)); tauto || reflexivity. }
  unfold develop. fold (state_of pts p).
  destruct (rd (mCombustionStateBuffer pts) p) as [st fd mx pers] eqn:Ec.
  assert (Est : state_of pts p = st) by (unfold state_of; now rewrite Ec).
  rewrite Est. cbn [State FlameDevelopment MaxFlameDevelopment].
  destruct st; cbv zeta.
  - now rewrite Est.
  - rewrite Hupd. destruct (fgtb _ _); reflexivity.
  - rewrite Hupd. destruct (fltb _ _); reflexivity.
  - now rewrite Est.
  - destruct (fleb _ (lit 2 100)).
    + change (state_of (set_mBurningPoints ?l ?x) p) with (state_of x p).
      now rewrite Hupd.
    + now rewrite Hupd.
  - destruct (fleb _ (lit 2 100)).
    + change (state_of (set_mBurningPoints ?l ?x) p) with (state_of x p).
      now rewrite Hupd.
    + now rewrite Hupd.
Qed.

Lemma dry_before_develop (ext : Externals F) dt gp pts p :
  smothering ext gp pts p = false ->
  mCombustionStateBuffer (before_develop ext dt gp pts p)
  = mCombustionStateBuffer pts.
Proof.
  intros Hdry. unfold before_develop. cbv zeta.
  unfold smothering in Hdry. rewrite Hdry, andb_false_r.
  destruct (StateType_eqb _ Burning); [|reflexivity].
  match goal with |- context [fold_left ?g ?l ?a] =>
    destruct (heat_fold_frame ext gp
                (lit 100 1 * lit 1000 1 * dt * CombustionHeatAdjustment gp)%flt
                p l a) as (E1 & _)
  end.
  rewrite E1. reflexivity.
Qed.

Lemma dry_visit_states (ext : Externals F) dt gp pts p :
  0 <= p ->
  smothering ext gp pts p = false ->
  let pts' := HighFrequency_point ext dt gp pts p in
  develops_to (state_of pts p) (state_of pts' p) = true /\
  (forall i, 0 <= i -> i <> p -> state_of pts' i = state_of pts i).
Proof.
  intros Hp Hdry pts'. subst pts'. rewrite HighFrequency_point_unfold.
  pose proof (dry_before_develop ext dt gp pts p Hdry) as Eb.
  assert (Es : forall i, state_of (before_develop ext dt gp pts p) i = state_of pts i).
  { intros i. unfold state_of. now rewrite Eb. }
  split.
  - rewrite <- (Es p). now apply develop_states.
  - intros i Hi Hne.
    destruct (develop_spec (before_develop ext dt gp pts p) p Hp) as (_ & _ & D & _).
    rewrite D by assumption. apply Es.
Qed.

End FlameLifecycle.

(** X17.  The states of a flame follow its life cycle.  The low-frequency
    pass only ignites (NotBurning to Developing(1)) and consumes (Burning
    to Extinguishing(consumed)).  A visit of the high-frequency pass to a
    point it does not smother only moves that point one step on: from
    Developing(1) to Developing(2), from Developing(2) to Burning, from
    either Extinguishing state to NotBurning, or not at all; it changes the
    state of no other point.  [OnOrphaned] changes no state.  So a point
    is never ignited by the high-frequency pass, and a flame that is
    extinguishing never burns again before it has gone out. *)
Theorem flame_states_follow_the_life_cycle {F : Type} `{FloatOps F} `{LibM F}
    (nth_element : nth_element_type F) (ext : Externals F)
    (offset stride : ElementIndex) (dt : F) (gp : GameParameters F)
    (rnd : nat) (pers : nat -> F) (pts : Points F) :
  nth_element_contract nth_element ->
  burning_inv pts ->
  0 <= offset -> 0 < stride -> mShipPointCount pts + stride <= 4294967296 ->
  (exists pts',
     UpdateCombustionLowFrequency nth_element ext offset stride dt gp rnd pers pts
       = Some pts' /\
     forall i, 0 <= i ->
       ignites_or_consumes (state_of pts i) (state_of pts' i) = true) /\
  (forall p, 0 <= p -> smothering ext gp pts p = false ->
     let pts' := HighFrequency_point ext dt gp pts p in
     develops_to (state_of pts p) (state_of pts' p) = true /\
     (forall i, 0 <= i -> i <> p -> state_of pts' i = state_of pts i)) /\
  (forall r p i, state_of (OnOrphaned r p pts) i = state_of pts i).
Proof.
  intros Hnth Hinv Hoff Hstride Hwrap. split; [|split].
  - destruct (LowFrequency_pass_spec nth_element ext offset stride dt gp rnd pers
                pts Hnth Hinv Hoff Hstride Hwrap)
      as (pts1 & cands & _ & Hpass).
    cbv zeta in Hpass.
    destruct Hpass as (E & Hperm & _ & _ & Hc & _ & _ & Hch & Hrest).
    eexists. split; [exact E|].
    intros i Hi.
    match type of Hch with
    | forall i, _ -> i ∈ fst <$> ?l -> _ => set (chosen := l) in *
    end.
    destruct (decide (i ∈ fst <$> chosen)) as [Hin|Hnin].
    + rewrite (Hch i Hi Hin).
      assert (Hs : state_of pts i = NotBurning).
      { apply list_elem_of_fmap in Hin as (c & -> & Hcin).
        rewrite Forall_forall in Hc. apply Hc.
        rewrite <- Hperm. apply elem_of_app. now left. }
      now rewrite Hs.
    + destruct (Hrest i Hi Hnin) as [-> | [-> ->]]; [|reflexivity].
      destruct (state_of pts i); reflexivity.
  - intros p Hp Hdry. now apply dry_visit_states.
  - intros r p i. apply OnOrphaned_frame.
Qed.

Lemma flame_states_follow_the_life_cycle_witness :
  (exists pts',
     UpdateCombustionLowFrequency (H0 := sample_libm) nth_element_by_sort
       sample_externals 0 1 (b32 2 100) sample_parameters 0%nat
       (fun _ => b32 1 2) sample_points_hot = Some pts' /\
     forall i, 0 <= i ->
       ignites_or_consumes (state_of sample_points_hot i) (state_of pts' i) = true) /\
  (forall p, 0 <= p ->
     smothering sample_externals sample_parameters sample_points_hot p = false ->
     let pts' :=
       HighFrequency_point sample_externals (b32 2 100) sample_parameters
         sample_points_hot p in
     develops_to (state_of sample_points_hot p) (state_of pts' p) = true /\
     (forall i, 0 <= i -> i <> p ->
        state_of pts' i = state_of sample_points_hot i)) /\
  (forall r p i,
     state_of (OnOrphaned r p sample_points_hot) i = state_of sample_points_hot i).
Proof.
  destruct sample_points_hot_start as (Hs & Hl & Hship).
  apply (flame_states_follow_the_life_cycle (H0 := sample_libm)
           nth_element_by_sort sample_externals 0 1 (b32 2 100)
           sample_parameters 0%nat (fun _ => b32 1 2) sample_points_hot
           nth_element_by_sort_contract
           (start_burning_inv sample_points_hot Hs Hl Hship));
    cbn; lia.
Defined.

(** * Masses *)

Section MassesAgain.
Context {F : Type} `{FloatOps F}.
Implicit Types (p : Points F) (i : ElementIndex).

Lemma UpdateMasses_values gp p :
  mAllPointCount p <= Z.of_nat (length (mMassBuffer p)) ->
  mAllPointCount p <= Z.of_nat (length (mIntegrationFactorBuffer p)) ->
  let p' := UpdateMasses gp p in
  (forall i, 0 <= i < mAllPointCount p ->
     rd (mMassBuffer p') i = mass_of gp p i /\
     rd (mIntegrationFactorBuffer p') i = integration_factor_of gp p i) /\
  (forall i, mAllPointCount p <= i -> 0 <= i ->
     rd (mMassBuffer p') i = rd (mMassBuffer p) i /\
     rd (mIntegrationFactorBuffer p') i = rd (mIntegrationFactorBuffer p) i) /\
  p' = set_mIntegrationFactorBuffer (mIntegrationFactorBuffer p')
         (set_mMassBuffer (mMassBuffer p') p) /\
  length (mMassBuffer p') = length (mMassBuffer p) /\
  length (mIntegrationFactorBuffer p') = length (mIntegrationFactorBuffer p).
Proof.
  intros Hm Hf p'.
  assert (Hvals := masses_loop_values gp (all_elements p) p
                     (NoDup_seqZ 0 (mAllPointCount p))).
  assert (Hrange : forall i, i ∈ all_elements p ->
      0 <= i < Z.of_nat (length (mMassBuffer p)) /\
      0 <= i < Z.of_nat (length (mIntegrationFactorBuffer p))).
  { intros i Hi. apply elem_of_seqZ in Hi. lia. }
  specialize (Hvals Hrange).
  destruct (masses_loop_frame gp (all_elements p) p) as (E & L1 & L2).
  change (masses_loop gp (all_elements p) p) with p' in *.
  repeat split; trivial.
  - apply (Hvals i); [lia|]. apply elem_of_seqZ. lia.
  - apply (Hvals i); [lia|]. apply elem_of_seqZ. lia.
  - apply (Hvals i); trivial. intros Hx. apply elem_of_seqZ in Hx. lia.
  - apply (Hvals i); trivial. intros Hx. apply elem_of_seqZ in Hx. lia.
Qed.

Lemma rd_ext {A : Type} `{Inhabited A} (l1 l2 : list A) :
  length l1 = length l2 ->
  (forall i, 0 <= i -> rd l1 i = rd l2 i) ->
  l1 = l2.
Proof.
  intros Hlen Hrd. apply (list_eq_same_length _ _ (length l1)); [now symmetry|reflexivity|].
  intros k x y Hk Hx Hy.
  specialize (Hrd (Z.of_nat k) ltac:(lia)). unfold rd in Hrd.
  rewrite Nat2Z.id in Hrd.
  rewrite (list_lookup_total_correct _ _ _ Hx),
          (list_lookup_total_correct _ _ _ Hy) in Hrd. exact Hrd.
Qed.

End MassesAgain.

(** X19.  [UpdateMasses] can be run again without effect: it reads only
    the augmented material masses, the water, the water volume fills and
    the time coefficients, none of which it writes, so a second run with
    the same parameters leaves the state exactly as the first run left
    it. *)
Theorem UpdateMasses_twice {F : Type} `{FloatOps F}
    (gp : GameParameters F) (p : Points F) :
  mAllPointCount p <= Z.of_nat (length (mMassBuffer p)) ->
  mAllPointCount p <= Z.of_nat (length (mIntegrationFactorBuffer p)) ->
  UpdateMasses gp (UpdateMasses gp p) = UpdateMasses gp p.
Proof.
  intros Hm Hf.
  destruct (UpdateMasses_values gp p Hm Hf) as (V1 & O1 & E1 & L1 & L2).
  cbv zeta in V1, O1, E1, L1, L2.
  set (p1 := UpdateMasses gp p) in *.
  assert (Hc : mAllPointCount p1 = mAllPointCount p) by (rewrite E1; reflexivity).
  assert (Hmass : forall i, mass_of gp p1 i = mass_of gp p i).
  { intros i. unfold mass_of. rewrite E1. reflexivity. }
  assert (Hif : forall i, integration_factor_of gp p1 i = integration_factor_of gp p i).
  { intros i. unfold integration_factor_of. rewrite Hmass. rewrite E1 at 1 2.
    reflexivity. }
  destruct (UpdateMasses_values gp p1) as (V2 & O2 & E2 & M1 & M2);
    [rewrite Hc, L1; exact Hm | rewrite Hc, L2; exact Hf |].
  cbv zeta in V2, O2, E2, M1, M2.
  set (p2 := UpdateMasses gp p1) in *.
  assert (Em : mMassBuffer p2 = mMassBuffer p1).
  { apply rd_ext; [exact M1|]. intros i Hi.
    destruct (Z_lt_le_dec i (mAllPointCount p)) as [Hlt|Hge].
    - rewrite (proj1 (V2 i ltac:(lia))), (proj1 (V1 i ltac:(lia))). apply Hmass.
    - apply (O2 i); lia. }
  assert (Ef : mIntegrationFactorBuffer p2 = mIntegrationFactorBuffer p1).
  { apply rd_ext; [exact M2|]. intros i Hi.
    destruct (Z_lt_le_dec i (mAllPointCount p)) as [Hlt|Hge].
    - rewrite (proj2 (V2 i ltac:(lia))), (proj2 (V1 i ltac:(lia))). apply Hif.
    - apply (O2 i); lia. }
  rewrite E2, Em, Ef. destruct p1; reflexivity.
Qed.

Lemma UpdateMasses_twice_witness :
  UpdateMasses sample_parameters (UpdateMasses sample_parameters sample_points)
  = UpdateMasses sample_parameters sample_points.
Proof.
  apply (UpdateMasses_twice sample_parameters sample_points); cbn; lia.
Defined.

(** * Combustion and the ephemeral particles *)

Section ShipBurning.
Context {F : Type} `{FloatOps F}.
Implicit Types (pts : Points F) (p q i : ElementIndex).






End ShipBurning.




(** * Free slots and air bubbles *)

Section FreeSlots.
Context {F : Type} `{FloatOps F}.
Implicit Types (pts : Points F) (i q : ElementIndex).

(** The free slots of the ephemeral region, in index order. *)
Definition free_slots pts : list ElementIndex :=
  List.filter (free_test pts)
    (seqZ (mShipPointCount pts) (mAllPointCount pts - mShipPointCount pts)).

Lemma free_slots_none pts :
  pool_ok pts -> first_free pts (scan_order pts) = None -> free_slots pts = [].
Proof.
  intros Hok Hn. unfold free_slots.
  destruct (List.filter _ _) as [|q l] eqn:E; [reflexivity|exfalso].
  assert (Hq : In q (List.filter (free_test pts)
                       (seqZ (mShipPointCount pts)
                          (mAllPointCount pts - mShipPointCount pts))))
    by (rewrite E; now left).
  apply filter_In in Hq as [Hq Hf].
  apply list_elem_of_In, elem_of_seqZ in Hq.
  apply (first_free_none pts (scan_order pts) q Hn).
  - apply scan_order_region; [assumption|]. unfold in_region. lia.
  - now apply free_test_true.
Qed.

(** Storing a particle in a free slot takes that slot, and no other, out
    of the free slots. *)
Lemma place_free_slots (ext : Externals F) q pos v m fill temp wind ty now life
    pl pts :
  pool_ok pts -> in_region pts q -> is_free pts q ->
  EphemeralType_eqb ET_None ty = false ->
  let pts' :=
    StoreAttributes ext q pos v m fill temp wind ty now life pl (start_after q pts) in
  S (length (free_slots pts')) = length (free_slots pts).
Proof.
  intros Hok Hq Hfree Hty pts'.
  destruct Hok as (H0 & H1 & H2 & H3 & H4 & H5). destruct Hq as [Hq1 Hq2].
  assert (Et : mEphemeralTypeBuffer pts' = wr (mEphemeralTypeBuffer pts) q ty)
    by reflexivity.
  assert (Hother : forall i, 0 <= i -> i <> q -> free_test pts' i = free_test pts i).
  { intros i Hi Hne. unfold free_test. rewrite Et, rd_wr_ne by lia. reflexivity. }
  assert (Hat : free_test pts' q = false).
  { unfold free_test. rewrite Et, rd_wr_eq by lia. exact Hty. }
  apply free_test_true in Hfree.
  unfold free_slots.
  change (mShipPointCount pts') with (mShipPointCount pts).
  change (mAllPointCount pts') with (mAllPointCount pts).
  set (a := mShipPointCount pts) in *. set (b := mAllPointCount pts) in *.
  replace (b - a) with ((q - a) + (b - q)) by lia.
  rewrite seqZ_app by lia. replace (a + (q - a)) with q by lia.
  rewrite (seqZ_cons q) by lia.
  rewrite !List.filter_app. cbn [List.filter]. rewrite Hat, Hfree.
  rewrite (filter_ext_in (free_test pts') (free_test pts) (seqZ a (q - a))).
  2:{ intros i Hi. apply list_elem_of_In, elem_of_seqZ in Hi. apply Hother; lia. }
  rewrite (filter_ext_in (free_test pts') (free_test pts)
             (seqZ (Z.succ q) (Z.pred (b - q)))).
  2:{ intros i Hi. apply list_elem_of_In, elem_of_seqZ in Hi. apply Hother; lia. }
  rewrite !length_app. cbn [length]. lia.
Qed.

(** X25.  A bubble is created exactly while a slot is free: from a
    well-formed pool, a sequence of air-bubble allocations runs to
    completion and leaves as many free slots in the ephemeral region as
    there were, less the number of allocations, or none when there were
    fewer free slots than allocations. *)
Theorem free_slots_take_the_bubbles (ext : Externals F) (gp : GameParameters F)
    (l : list (Allocation F)) :
  forall pts, pool_ok pts -> Forall (fun a => is_air_bubble a = true) l ->
  exists pts',
    allocate_all ext gp l pts = Some pts' /\
    length (free_slots pts') = (length (free_slots pts) - length l)%nat.
Proof.
  induction l as [|a l IH]; intros pts Hok Hl; cbn [allocate_all].
  - exists pts. split; [reflexivity|]. cbn. lia.
  - apply Forall_cons in Hl as [Ha Hl].
    destruct a as [pos m now pl | |]; try discriminate. cbn [allocate].
    rewrite (air_bubble_places ext gp pos m now pl pts Hok).
    destruct (first_free pts (scan_order pts)) as [q|] eqn:Ef.
    + pose proof Ef as Ef'. apply first_free_some in Ef' as [Hin Hfree].
      apply scan_order_region in Hin; [|assumption].
      set (pts1 := StoreAttributes ext q pos vec2f_zero m (WaterVolumeFill m)
                     (InitialTemperature gp) fzero AirBubble now
                     (numeric_limits_max ext) pl (start_after q pts)).
      destruct (place_ok ext q pos vec2f_zero m (WaterVolumeFill m)
                  (InitialTemperature gp) fzero AirBubble now
                  (numeric_limits_max ext) pl pts Hok Hin) as (Hok1 & _).
      fold pts1 in Hok1.
      pose proof (place_free_slots ext q pos vec2f_zero m (WaterVolumeFill m)
                    (InitialTemperature gp) fzero AirBubble now
                    (numeric_limits_max ext) pl pts Hok Hin Hfree eq_refl) as Hcount.
      fold pts1 in Hcount. cbv zeta in Hcount.
      destruct (IH pts1 Hok1 Hl) as (pts' & E & Hlen).
      exists pts'. split; [exact E|]. cbn [length]. lia.
    + destruct (IH pts Hok Hl) as (pts' & E & Hlen).
      exists pts'. split; [exact E|].
      rewrite (free_slots_none pts Hok Ef) in Hlen |- *. cbn in Hlen |- *. lia.
Qed.

End FreeSlots.

Lemma free_slots_take_the_bubbles_witness :
  exists pts',
    allocate_all sample_externals sample_parameters
      (take 2 sample_allocations) sample_points = Some pts' /\
    length (free_slots pts')
    = (length (free_slots sample_points) - length (take 2 sample_allocations))%nat.
Proof.
  apply (free_slots_take_the_bubbles sample_externals sample_parameters
           (take 2 sample_allocations) sample_points sample_points_pool_ok).
  repeat constructor.
Defined.

Example free_slots_of_sample_pool :
  free_slots sample_points = [4] /\
  (free_slots <$>
     allocate_all sample_externals sample_parameters
       (take 2 sample_allocations) sample_points) = Some [].
Proof. split; vm_compute; reflexivity. Qed.
